(** * Circles SDK: path rewriting and flow-matrix encoding

    A shallow embedding of the Python sources
      - [circles_sdk/core/types.py]
      - [circles_sdk/core/flow_matrix.py]
      - [circles_sdk/core/token_info.py]
      - [circles_sdk/pathfinding/path_processor.py]
      - [circles_sdk/transactions/builder.py]
      - [circles_sdk/transfers/advanced.py]
    together with the properties the specification states about them.

    Conventions of the embedding.
      - A Python [str] is a [string]; addresses are ASCII text and
        [str.lower] is ASCII lower-casing.
      - A Python [int] is a [Z].  A field holding an integer as a decimal
        string that a pydantic validator has already passed through
        [int(...)] (step values, [max_flow], edge amounts, the expected
        total) is represented by the integer it denotes.
      - [bytes] is a list of [Z] in the range 0..255.
      - A raised exception is the [Err] branch of [result]; the exception
        class is the constructor of [exn], the formatted message its
        structured argument.
      - A [set] is a [gset], a [dict] whose iteration order is observable an
        insertion-ordered association list ([odict]), any other [dict] a
        [gmap]. *)

From Stdlib Require Import ZArith Lia Ascii.
From stdpp Require Import gmap strings list fin_maps sorting.

Open Scope Z_scope.

(** ** Python runtime *)

Module Py.

(** Messages of the exceptions the modelled code raises. *)
Inductive message :=
| TerminalSumMismatch (terminal_sum expected : Z)
    (* f"Terminal sum {terminal_sum} does not equal expected {expected}" *)
| InvalidLiteral (s : string)
    (* int(s, 16) on text that is no base-16 literal *)
| InvalidEthereumAddress (v : string)
    (* f'Invalid Ethereum address: {v}' *)
| InvalidTokenAddress (v : string)
    (* f'Invalid token address: {addr}' *)
| SourceNotNegative (addr : string) (balance : Z)
    (* f"Source {addr} should be net negative, got {balance}" *)
| SinkNotPositive (addr : string) (balance : Z)
    (* f"Sink {addr} should be net positive, got {balance}" *)
| VertexUnbalanced (addr : string) (balance : Z)
    (* f"Vertex {addr} is unbalanced: {balance}" *)
| NoUniqueSourceSink
    (* "Could not determine unique source / sink" *)
| NotContextManager
    (* "AdvancedTransfer must be used as async context manager" *)
| CoroutineRaisedStopIteration
    (* "coroutine raised StopIteration" *)
| InvalidParameter (name v : string)
    (* f"Invalid {name}: {addr}" *)
| AmountNotPositive
    (* "Amount must be positive" *)
| AmountNotInteger
    (* "Amount must be a valid integer string" *)
| SameSourceAndDestination
    (* "Source and destination addresses must be different" *)
| UnexpectedTransferError
    (* f"Unexpected error during transfer: {e}"; the text of e is not kept *)
| InvalidTargetFlow (v : string)
    (* f'target_flow must be a valid integer string: {v}' *)
| OtherMessage (s : string).

(** Exception classes: Python built-ins, pydantic's validation error and the
    classes of [circles_sdk/core/exceptions.py]. *)
Inductive exn :=
| ValueError (m : message)
| IndexError
| KeyError (k : string)
| StopIteration
| RuntimeError (m : message)
| PydanticValidationError (m : message)
| CirclesSDKError (m : message)
| PathfindingError (m : message)
| NoPathFoundError (m : message)
| InsufficientBalanceError (m : message)
| ValidationError (m : message)
| FlowMatrixError (m : message)
| TokenError (m : message)
| OtherError (m : message).

Inductive result (A : Type) :=
| Ok (a : A)
| Err (e : exn).
Arguments Ok {A} a.
Arguments Err {A} e.

#[global] Instance result_ret : MRet result := fun A a => Ok a.
#[global] Instance result_bind : MBind result :=
  fun A B f m => match m with Ok a => f a | Err e => Err e end.

Definition is_ok {A} (r : result A) : bool :=
  match r with Ok _ => true | Err _ => false end.

(** The body of an [async def]: a [StopIteration] that leaves a coroutine
    is replaced by a [RuntimeError]; every other outcome is kept. *)
Definition coroutine {A} (body : result A) : result A :=
  match body with
  | Err StopIteration => Err (RuntimeError CoroutineRaisedStopIteration)
  | _ => body
  end.

(** [str.lower] on ASCII text. *)
Definition lower_ascii (c : ascii) : ascii :=
  let n := nat_of_ascii c in
  if (Nat.leb 65 n && Nat.leb n 90)%bool then ascii_of_nat (n + 32) else c.

Fixpoint lower (s : string) : string :=
  match s with
  | EmptyString => EmptyString
  | String c s' => String (lower_ascii c) (lower s')
  end.

(** [s.startswith(p)] *)
Definition startswith (p s : string) : bool := String.prefix p s.

(** [len(s)] *)
Definition len_str (s : string) : Z := Z.of_nat (String.length s).

(** [enumerate(l)] *)
Definition enumerate {A} (l : list A) : list (nat * A) :=
  zip (seq 0 (length l)) l.

(** [l[i]] used as an assignment target, [l[i].attr = v]: Python counts a
    negative index from the end and raises [IndexError] outside the list. *)
Definition setitem_with {A} (f : A -> A) (i : Z) (l : list A) : result (list A) :=
  let n := Z.of_nat (length l) in
  let j := if i <? 0 then i + n else i in
  if (j <? 0) || (n <=? j) then Err IndexError
  else Ok (alter f (Z.to_nat j) l).

(** [sum(...)] over integers. *)
Definition sum (l : list Z) : Z := foldl Z.add 0 l.

(** [sorted(l, key=...)] and [l.sort(key=...)]: Python's sort is stable, and
    a stable sort into ascending key order is a function of the list; it is
    given here by insertion, an element going behind those of equal key. *)
Fixpoint insert_by {A} (key : A -> Z) (x : A) (l : list A) : list A :=
  match l with
  | [] => [x]
  | y :: l' => if key x <? key y then x :: l else y :: insert_by key x l'
  end.

Definition sorted_by {A} (key : A -> Z) (l : list A) : list A :=
  foldl (fun acc x => insert_by key x acc) [] l.

(** A [for] loop whose body may raise. *)
Fixpoint for_each {A} (l : list A) (body : A -> result unit) : result unit :=
  match l with
  | [] => Ok tt
  | x :: l' => _ ← body x; for_each l' body
  end.

(** Insertion-ordered dictionary: [d[k] = v] keeps the position of a key
    that is already present and appends a new key at the end. *)
Definition odict (V : Type) := list (string * V).

Fixpoint odict_get {V} (d : odict V) (k : string) : option V :=
  match d with
  | [] => None
  | (k', v) :: d' => if decide (k' = k) then Some v else odict_get d' k
  end.

Fixpoint odict_set {V} (d : odict V) (k : string) (v : V) : odict V :=
  match d with
  | [] => [(k, v)]
  | (k', v') :: d' =>
      if decide (k' = k) then (k', v) :: d' else (k', v') :: odict_set d' k v
  end.

End Py.
Import Py.

(** ** [core/types.py] *)

Module Types.

Record TransferStep := {
  from_address : string;
  to_address : string;
  token_owner : string;
  value : Z
}.

Record PathfindingResult := {
  max_flow : Z;
  transfers : list TransferStep
}.

Record FlowEdge := {
  stream_sink_id : Z;
  amount : Z
}.

Record Stream := {
  source_coordinate : Z;
  flow_edge_ids : list Z;
  data : list Z
}.

Record FlowMatrix := {
  flow_vertices : list string;
  flow_edges : list FlowEdge;
  streams : list Stream;
  packed_coordinates : list Z;
  fm_source_coordinate : Z
}.

(** The validator shared by [TransferStep] and [FindPathParams]:
    [if not v.startswith('0x') or len(v) != 42: raise ValueError];
    [return v.lower()].  pydantic reports the [ValueError] as its own
    [ValidationError]. *)
Definition validate_address (v : string) : result string :=
  if negb (startswith "0x" v) || negb (len_str v =? 42)
  then Err (PydanticValidationError (InvalidEthereumAddress v))
  else Ok (lower v).

(** [TransferStep(from_address=..., to_address=..., token_owner=..., value=...)] *)
Definition new_TransferStep (f t o : string) (v : Z) : result TransferStep :=
  f' ← validate_address f;
  t' ← validate_address t;
  o' ← validate_address o;
  mret {| from_address := f'; to_address := t'; token_owner := o'; value := v |}.

(** A step is an instance of the class when the constructor, run on its own
    fields, gives it back. *)
Definition valid_step (s : TransferStep) : Prop :=
  new_TransferStep (from_address s) (to_address s) (token_owner s) (value s) = Ok s.

Record FindPathParams := {
  from_addr : string;
  to_addr : string;
  target_flow : Z;
  use_wrapped_balances : bool;
  from_tokens : option (list string);
  to_tokens : option (list string);
  exclude_from_tokens : option (list string);
  exclude_to_tokens : option (list string)
}.

(** [FindPathParams.validate_token_lists] *)
Definition validate_token_lists (v : option (list string))
  : result (option (list string)) :=
  match v with
  | Some l =>
      _ ← for_each l (fun addr =>
            if negb (startswith "0x" addr) || negb (len_str addr =? 42)
            then Err (PydanticValidationError (InvalidTokenAddress addr))
            else Ok tt);
      mret (Some (lower <$> l))
  | None => Ok None
  end.

(** [FindPathParams(...)]: the field validators run in the order of the
    fields.  pydantic gathers the failures of all fields into the one
    exception it raises; the message kept here is that of the first. *)
Definition new_FindPathParams
    (from_addr to_addr : string) (target_flow : Z) (use_wrapped_balances : bool)
    (from_tokens to_tokens exclude_from_tokens exclude_to_tokens : option (list string))
  : result FindPathParams :=
  from_addr ← validate_address from_addr;
  to_addr ← validate_address to_addr;
  from_tokens ← validate_token_lists from_tokens;
  to_tokens ← validate_token_lists to_tokens;
  exclude_from_tokens ← validate_token_lists exclude_from_tokens;
  exclude_to_tokens ← validate_token_lists exclude_to_tokens;
  mret {| from_addr := from_addr;
          to_addr := to_addr;
          target_flow := target_flow;
          use_wrapped_balances := use_wrapped_balances;
          from_tokens := from_tokens;
          to_tokens := to_tokens;
          exclude_from_tokens := exclude_from_tokens;
          exclude_to_tokens := exclude_to_tokens |}.

End Types.
Import Types.

(** ** [core/flow_matrix.py] *)

Module FlowMatrixEncoder.

Definition pack_coordinates (coords : list Z) : list Z :=
  let result := replicate (length coords * 2) 0 in
  foldl (fun result '(i, coord) =>
           let hi := Z.land (Z.shiftr coord 8) 0xFF in
           let lo := Z.land coord 0xFF in
           let offset := (2 * i)%nat in
           <[(offset + 1)%nat := lo]> (<[offset := hi]> result))
        result (enumerate coords).

(** The values an element of a [bytes] object can have. *)
Definition is_byte (b : Z) : bool := (0 <=? b) && (b <? 256).

(** The decoder of the packed format as the specification words it: two
    bytes at a time, each pair a big-endian unsigned 16-bit integer.  It
    reads byte buffers only: a list with an element outside 0..255, or of
    odd length, has no decoding. *)
Fixpoint unpack_coordinates (buf : list Z) : option (list Z) :=
  match buf with
  | [] => Some []
  | hi :: lo :: rest =>
      if is_byte hi && is_byte lo
      then cons (hi * 256 + lo) <$> unpack_coordinates rest
      else None
  | [_] => None
  end.

(** The two bytes the loop of [pack_coordinates] writes for a coordinate. *)
Definition encode_coordinate (coord : Z) : list Z :=
  [Z.land (Z.shiftr coord 8) 0xFF; Z.land coord 0xFF].

(** The lower-cased addresses of the steps, in the order in which
    [transform_to_flow_vertices] adds them to its set. *)
Definition step_addresses (transfers : list TransferStep) : list string :=
  transfers ≫= (fun transfer =>
    [lower (from_address transfer); lower (to_address transfer);
     lower (token_owner transfer)]).

(** The set [transform_to_flow_vertices] sorts into the vertex list. *)
Definition address_set (from_addr to_addr : string) (transfers : list TransferStep)
  : gset string :=
  {[ lower from_addr; lower to_addr ]} ∪ list_to_set (step_addresses transfers).

(** An edge that is not terminal, and a terminal one. *)
Definition intermediate_edge (transfer : TransferStep) : FlowEdge :=
  {| stream_sink_id := 0; amount := value transfer |}.

Definition terminal_edge (transfer : TransferStep) : FlowEdge :=
  {| stream_sink_id := 1; amount := value transfer |}.

(** The sum of the amounts of the terminal edges, as the specification
    words it: every edge with [stream_sink_id = 1] counts with its amount,
    the others do not count. *)
Fixpoint terminal_total (flow_edges : list FlowEdge) : Z :=
  match flow_edges with
  | [] => 0
  | edge :: rest =>
      (if stream_sink_id edge =? 1 then amount edge else 0) + terminal_total rest
  end.

(** [d[k]] on a dictionary used only through look-ups. *)
Definition getitem (d : gmap string Z) (k : string) : result Z :=
  match d !! k with
  | Some v => Ok v
  | None => Err (KeyError k)
  end.

Section Encoder.

(** [int(addr, 16)]: the integer a string denotes in base 16, [None] where
    Python raises [ValueError]. *)
Variable int16 : string -> option Z.

(** [sorted(addresses, key=lambda addr: int(addr, 16))]: the keys are
    computed first, one per element, then the elements are put in ascending
    key order. *)
Definition sorted_by_int16 (addresses : list string) : result (list string) :=
  keyed ← mapM (fun addr =>
                  match int16 addr with
                  | Some k => Ok (k, addr)
                  | None => Err (ValueError (InvalidLiteral addr))
                  end) addresses;
  mret (snd <$> sorted_by fst keyed).

Definition transform_to_flow_vertices
    (transfers : list TransferStep) (from_addr to_addr : string)
  : result (list string * gmap string Z) :=
  let addresses : gset string := {[ lower from_addr; lower to_addr ]} in
  let addresses :=
    foldl (fun addresses transfer =>
             addresses ∪ {[ lower (from_address transfer) ]}
                       ∪ {[ lower (to_address transfer) ]}
                       ∪ {[ lower (token_owner transfer) ]})
          addresses transfers in
  sorted_addresses ← sorted_by_int16 (elements addresses);
  let idx : gmap string Z :=
    foldl (fun idx '(i, addr) => <[addr := Z.of_nat i]> idx)
          ∅ (enumerate sorted_addresses) in
  mret (sorted_addresses, idx).

(** The edge list as it stands when the terminal sum is taken: one edge per
    step, then the forced terminal edge when none was marked. *)
Definition mark_edges (receiver : string) (transfers : list TransferStep)
  : result (list FlowEdge) :=
  let flow_edges :=
    (fun transfer =>
       let is_terminal := bool_decide (lower (to_address transfer) = receiver) in
       {| stream_sink_id := if is_terminal then 1 else 0;
          amount := value transfer |}) <$> transfers in
  let has_terminal_edge :=
    existsb (fun edge => stream_sink_id edge =? 1) flow_edges in
  if negb has_terminal_edge then
    let last_edge_index :=
      foldl (fun last_edge_index '(i, transfer) =>
               if bool_decide (lower (to_address transfer) = receiver)
               then Z.of_nat i else last_edge_index)
            (-1) (enumerate transfers) in
    let fallback_index :=
      if negb (last_edge_index =? -1) then last_edge_index
      else Z.of_nat (length flow_edges) - 1 in
    setitem_with (fun edge => {| stream_sink_id := 1; amount := amount edge |})
                 fallback_index flow_edges
  else Ok flow_edges.

Definition terminal_sum (flow_edges : list FlowEdge) : Z :=
  sum (amount <$> filter (fun edge => stream_sink_id edge = 1) flow_edges).

Definition create_flow_matrix
    (from_addr to_addr : string) (value : Z) (transfers : list TransferStep)
  : result FlowMatrix :=
  let sender := lower from_addr in
  let receiver := lower to_addr in
  '(flow_vertices, idx) ← transform_to_flow_vertices transfers sender receiver;
  flow_edges ← mark_edges receiver transfers;
  let term_edge_ids :=
    (fun p => Z.of_nat p.1)
      <$> filter (fun p => stream_sink_id p.2 = 1) (enumerate flow_edges) in
  source ← getitem idx sender;
  let streams :=
    [ {| source_coordinate := source;
         flow_edge_ids := term_edge_ids;
         data := [] |} ] in
  coords ← foldl (fun coords transfer =>
                    coords ← coords;
                    c1 ← getitem idx (lower (token_owner transfer));
                    c2 ← getitem idx (lower (from_address transfer));
                    c3 ← getitem idx (lower (to_address transfer));
                    mret (coords ++ [c1; c2; c3]))
                 (Ok []) transfers;
  let packed_coordinates := pack_coordinates coords in
  let expected := value in
  let terminal_sum := terminal_sum flow_edges in
  if negb (terminal_sum =? expected) then
    Err (ValueError (TerminalSumMismatch terminal_sum expected))
  else
    source_coordinate ← getitem idx sender;
    mret {| flow_vertices := flow_vertices;
            flow_edges := flow_edges;
            streams := streams;
            packed_coordinates := packed_coordinates;
            fm_source_coordinate := source_coordinate |}.

End Encoder.

End FlowMatrixEncoder.
Import FlowMatrixEncoder.

(** ** [core/token_info.py] *)

Module TokenInfo.

(** The members of [TokenType]; the enumeration derives from [str], so a
    member compares equal to its text. *)
Definition CRC_V1_SIGNUP : string := "CrcV1_Signup".
Definition CRC_V2_REGISTER_HUMAN : string := "CrcV2_RegisterHuman".
Definition CRC_V2_REGISTER_GROUP : string := "CrcV2_RegisterGroup".
Definition CRC_V2_ERC20_WRAPPER_INFLATIONARY : string :=
  "CrcV2_ERC20WrapperDeployed_Inflationary".
Definition CRC_V2_ERC20_WRAPPER_DEMURRAGED : string :=
  "CrcV2_ERC20WrapperDeployed_Demurraged".

Record TokenInfoRow := {
  timestamp : Z;
  transaction_hash : string;
  version : Z;
  type : string;
  token : string;
  token_owner : string
}.

(** [TokenInfoRow.__init__] lower-cases the two addresses. *)
Definition new_TokenInfoRow
    (timestamp : Z) (transaction_hash : string) (version : Z)
    (token_type token token_owner : string) : TokenInfoRow :=
  {| timestamp := timestamp;
     transaction_hash := transaction_hash;
     version := version;
     type := token_type;
     token := lower token;
     token_owner := lower token_owner |}.

Definition is_wrapped (self : TokenInfoRow) : bool :=
  startswith "CrcV2_ERC20WrapperDeployed" (type self).

Record TokenInfoCache := {
  _cache : odict TokenInfoRow;
  _max_size : Z
}.

(** [TokenInfoCache.get] *)
Definition cache_get (self : TokenInfoCache) (token_address : string)
  : option TokenInfoRow :=
  odict_get (_cache self) (lower token_address).

(** [TokenInfoCache.set]: [next(iter(self._cache))] is the oldest key and
    raises [StopIteration] on an empty dictionary. *)
Definition cache_set (self : TokenInfoCache) (token_address : string)
    (info : TokenInfoRow) : result TokenInfoCache :=
  entries ←
    (if Z.of_nat (length (_cache self)) >=? _max_size self then
       match _cache self with
       | [] => Err StopIteration
       | _ :: rest => Ok rest
       end
     else Ok (_cache self));
  mret {| _cache := odict_set entries (lower token_address) info;
          _max_size := _max_size self |}.

(** [TokenInfoCache.set_batch] *)
Definition cache_set_batch (self : TokenInfoCache) (infos : list TokenInfoRow)
  : result TokenInfoCache :=
  foldl (fun self info => self ← self; cache_set self (token info) info)
        (Ok self) infos.

Definition _infer_token_type (token_address : string) : string :=
  CRC_V2_REGISTER_HUMAN.

(** [get_token_info_batch]: the repository's body builds the rows itself;
    the HTTP session it opens is not used for a request. *)
Definition get_token_info_batch (token_addresses : list string)
  : result (list TokenInfoRow) :=
  match token_addresses with
  | [] => Ok []
  | _ =>
      Ok ((fun addr =>
             new_TokenInfoRow 0
               ("0x" +:+ "0000000000000000000000000000000000000000000000000000000000000000")
               2 (_infer_token_type addr) addr addr) <$> token_addresses)
  end.

(** [get_token_info_map_from_path]; the cache object is shared with the
    caller, so the cache as the call leaves it is returned with the map.
    The function is a coroutine and [TokenInfoCache.set] can raise
    [StopIteration] inside it. *)
Definition get_token_info_map_from_path
    (transfer_path : PathfindingResult) (cache : option TokenInfoCache)
  : result (gmap string TokenInfoRow * option TokenInfoCache) :=
  coroutine
  (let token_info_map : gmap string TokenInfoRow := ∅ in
  let unique_addresses : gset string :=
    foldl (fun unique transfer => unique ∪ {[ lower (Types.token_owner transfer) ]})
          ∅ (transfers transfer_path) in
  let '(token_info_map, addresses_to_fetch) :=
    match cache with
    | Some cache =>
        foldl (fun '(token_info_map, addresses_to_fetch) addr =>
                 match cache_get cache addr with
                 | Some cached_info =>
                     (<[addr := cached_info]> token_info_map, addresses_to_fetch)
                 | None => (token_info_map, addresses_to_fetch ++ [addr])
                 end)
              (token_info_map, []) (elements unique_addresses)
    | None => (token_info_map, elements unique_addresses)
    end in
  match addresses_to_fetch with
  | [] => Ok (token_info_map, cache)
  | _ =>
      batch_info ← get_token_info_batch addresses_to_fetch;
      let token_info_map :=
        foldl (fun token_info_map info => <[token info := info]> token_info_map)
              token_info_map batch_info in
      match cache with
      | Some cache =>
          cache ← cache_set_batch cache batch_info;
          mret (token_info_map, Some cache)
      | None => mret (token_info_map, None)
      end
  end).

Definition get_wrapped_token_totals_from_path
    (transfer_path : PathfindingResult)
    (token_info_map : gmap string TokenInfoRow)
  : odict (Z * string) :=
  foldl (fun wrapped_edge_totals transfer =>
           let token_addr := lower (Types.token_owner transfer) in
           match token_info_map !! token_addr with
           | Some info =>
               if is_wrapped info then
                 let wrapped_edge_totals :=
                   match odict_get wrapped_edge_totals token_addr with
                   | None => odict_set wrapped_edge_totals token_addr (0, type info)
                   | Some _ => wrapped_edge_totals
                   end in
                 let '(current_total, wrapper_type) :=
                   default (0, type info) (odict_get wrapped_edge_totals token_addr) in
                 odict_set wrapped_edge_totals token_addr
                           (current_total + value transfer, wrapper_type)
               else wrapped_edge_totals
           | None => wrapped_edge_totals
           end)
        [] (transfers transfer_path).

Definition _atto_circles_to_atto_static_circles (amount : Z) : Z := amount.

Definition _atto_static_circles_to_atto_circles (amount : Z) : Z := amount.

Definition get_expected_unwrapped_token_totals
    (wrapped_totals : odict (Z * string))
    (token_info_map : gmap string TokenInfoRow)
  : odict (Z * string) :=
  foldl (fun unwrapped '(wrapper_addr, (total, token_type)) =>
           match token_info_map !! lower wrapper_addr with
           | None => unwrapped
           | Some info =>
               let is_demurraged :=
                 bool_decide (token_type = CRC_V2_ERC20_WRAPPER_DEMURRAGED) in
               let is_inflationary :=
                 bool_decide (token_type = CRC_V2_ERC20_WRAPPER_INFLATIONARY) in
               let unwrap_amount :=
                 if is_demurraged then total
                 else if is_inflationary
                      then _atto_circles_to_atto_static_circles total
                      else total in
               let available_after_unwrap :=
                 if is_demurraged then unwrap_amount
                 else _atto_static_circles_to_atto_circles unwrap_amount in
               odict_set unwrapped wrapper_addr
                         (available_after_unwrap, token_owner info)
           end)
        [] wrapped_totals.

End TokenInfo.

(** ** [pathfinding/path_processor.py] *)

Module PathProcessor.

Module Indexed.
Record _IndexedTransferStep := {
  from_address : string;
  to_address : string;
  token_owner : string;
  value : Z;
  _idx : Z
}.
End Indexed.

Definition replace_wrapped_tokens
    (path : PathfindingResult) (unwrapped_totals : odict (Z * string))
  : result PathfindingResult :=
  rewritten_transfers ←
    mapM (fun transfer =>
            let unwrap_info :=
              odict_get unwrapped_totals (lower (token_owner transfer)) in
            let token_owner :=
              match unwrap_info with
              | Some info => info.2
              | None => token_owner transfer
              end in
            new_TransferStep (from_address transfer) (to_address transfer)
                             token_owner (value transfer))
         (transfers path);
  mret {| max_flow := max_flow path; transfers := rewritten_transfers |}.

Definition DENOM : Z := 1000000000000.

(** The default of the [retain_bps] argument. *)
Definition default_retain_bps : Z := 999999999999.

(** The first loop of [shrink_path_values]: the surviving steps with their
    scaled values, and the scaled amount arriving at each address. *)
Definition scale_transfers (path : PathfindingResult) (retain_bps : Z)
  : gmap string Z * list Indexed._IndexedTransferStep :=
  foldl (fun '(incoming_to_sink, scaled) '(i, transfer) =>
           let scaled_value := (value transfer * retain_bps) `div` DENOM in
           let is_zero := scaled_value =? 0 in
           if is_zero then (incoming_to_sink, scaled)
           else
             let scaled_transfer :=
               {| Indexed.from_address := from_address transfer;
                  Indexed.to_address := to_address transfer;
                  Indexed.token_owner := token_owner transfer;
                  Indexed.value := scaled_value;
                  Indexed._idx := Z.of_nat i |} in
             let to_addr := lower (to_address transfer) in
             (<[to_addr := default 0 (incoming_to_sink !! to_addr) + scaled_value]>
                incoming_to_sink,
              scaled ++ [scaled_transfer]))
        (∅, []) (enumerate (transfers path)).

(** The sink search of [shrink_path_values]: the first surviving step, in
    list order, whose receiver is no sender. *)
Definition find_sink (scaled : list Indexed._IndexedTransferStep) : option string :=
  let senders : gset string :=
    list_to_set ((fun t => lower (Indexed.from_address t)) <$> scaled) in
  (fun t => lower (Indexed.to_address t))
    <$> head (filter (fun t => lower (Indexed.to_address t) ∉ senders) scaled).

Definition shrink_path_values (path : PathfindingResult) (retain_bps : Z)
  : result PathfindingResult :=
  let '(incoming_to_sink, scaled) := scale_transfers path retain_bps in
  let sink := find_sink scaled in
  (* [incoming_to_sink.get(sink, 0) if sink else 0]: [None] and the empty
     string are both false *)
  let max_flow :=
    match sink with
    | Some sink =>
        if bool_decide (sink = "") then 0
        else default 0 (incoming_to_sink !! sink)
    | None => 0
    end in
  let scaled := sorted_by Indexed._idx scaled in
  result_transfers ←
    mapM (fun scaled_transfer =>
            new_TransferStep (Indexed.from_address scaled_transfer)
                             (Indexed.to_address scaled_transfer)
                             (Indexed.token_owner scaled_transfer)
                             (Indexed.value scaled_transfer))
         scaled;
  mret {| max_flow := max_flow; transfers := result_transfers |}.

Definition has_inflationary (wrapped_totals : odict (Z * string)) : bool :=
  existsb (fun '(_, (_, wrapper_type)) =>
             bool_decide (wrapper_type = "CrcV2_ERC20WrapperDeployed_Inflationary"))
          wrapped_totals.

Definition process_path_for_wrapped_tokens
    (path : PathfindingResult) (cache : option TokenInfo.TokenInfoCache)
  : result (PathfindingResult * bool * option TokenInfo.TokenInfoCache) :=
  '(token_info_map, cache) ← TokenInfo.get_token_info_map_from_path path cache;
  let wrapped_totals :=
    TokenInfo.get_wrapped_token_totals_from_path path token_info_map in
  let unwrapped_totals :=
    TokenInfo.get_expected_unwrapped_token_totals wrapped_totals token_info_map in
  path_unwrapped ← replace_wrapped_tokens path unwrapped_totals;
  let has_inflationary_wrapper := has_inflationary wrapped_totals in
  if has_inflationary_wrapper then
    shrunk_path ← shrink_path_values path_unwrapped default_retain_bps;
    mret (shrunk_path, true, cache)
  else mret (path_unwrapped, false, cache).

Definition _get_source_and_sink (path : PathfindingResult)
  : result (string * string) :=
  let senders : gset string :=
    list_to_set ((fun t => lower (from_address t)) <$> transfers path) in
  let receivers : gset string :=
    list_to_set ((fun t => lower (to_address t)) <$> transfers path) in
  let sources := filter (fun addr => addr ∉ receivers) (elements senders) in
  let sinks := filter (fun addr => addr ∉ senders) (elements receivers) in
  if negb (length sources =? 1)%nat || negb (length sinks =? 1)%nat then
    Err (PathfindingError NoUniqueSourceSink)
  else
    match sources, sinks with
    | source :: _, sink :: _ => Ok (source, sink)
    | _, _ => Err IndexError
    end.

Definition _compute_netted_flow (path : PathfindingResult) : odict Z :=
  foldl (fun net_flow transfer =>
           let amount := value transfer in
           let from_addr := lower (from_address transfer) in
           let to_addr := lower (to_address transfer) in
           let net_flow :=
             odict_set net_flow from_addr
                       (default 0 (odict_get net_flow from_addr) - amount) in
           odict_set net_flow to_addr
                     (default 0 (odict_get net_flow to_addr) + amount))
        [] (transfers path).

Definition assert_no_netted_flow_mismatch (path : PathfindingResult)
  : result unit :=
  '(source, sink) ← _get_source_and_sink path;
  let net_flow := _compute_netted_flow path in
  for_each net_flow (fun '(addr, balance) =>
    let is_source := bool_decide (addr = source) in
    let is_sink := bool_decide (addr = sink) in
    if is_source && (balance >=? 0) then
      Err (PathfindingError (SourceNotNegative addr balance))
    else if is_sink && (balance <=? 0) then
      Err (PathfindingError (SinkNotPositive addr balance))
    else
      let is_intermediate := negb is_source && negb is_sink in
      if is_intermediate && negb (balance =? 0) then
        Err (PathfindingError (VertexUnbalanced addr balance))
      else Ok tt).

End PathProcessor.

(** ** [transactions/builder.py] *)

Module Builder.

Record TransactionCall := {
  to : string;
  data : list Z;
  value : Z
}.

Record UnwrapCall := {
  unwrap_to : string;
  unwrap_data : list Z;
  unwrap_value : Z
}.

(** A [bytes] literal. *)
Definition bytes_of (s : string) : list Z :=
  (fun c => Z.of_nat (nat_of_ascii c)) <$> String.list_ascii_of_string s.

Definition build_unwrap_calls (wrapped_totals : odict (Z * string))
  : list UnwrapCall :=
  foldl (fun unwrap_calls '(wrapper_addr, (total_value, wrapper_type)) =>
           unwrap_calls ++
             [ {| unwrap_to := wrapper_addr;
                  unwrap_data := bytes_of "unwrap_placeholder";
                  unwrap_value := 0 |} ])
        [] wrapped_totals.

End Builder.

(** ** [transfers/advanced.py] *)

Module Advanced.

(** The external calls an operation makes, in the order it makes them. *)
Inductive call :=
| CallFindPath (params : FindPathParams).

Record AdvancedTransfer := {
  v2_hub_address : string;                       (* [self.config.v2_hub_address] *)
  cache : TokenInfo.TokenInfoCache;              (* [self.cache] *)
  _pathfinder_client : bool                      (* is [self._pathfinder_client] set *)
}.

Section Orchestrator.

(** [int(addr, 16)], as in the encoder. *)
Variable int16 : string -> option Z.

(** [PathfinderClient.find_path]: the answer of the pathfinding service. *)
Variable find_path : FindPathParams -> result PathfindingResult.

Definition _truncate_to_six_decimals (amount : Z) : Z := amount.

Definition _check_approval_status (owner spender : string) : bool := false.

Definition _encode_approval_call (spender : string) (approved : bool) : list Z :=
  Builder.bytes_of "setApprovalForAll_placeholder".

Definition _build_approval_calls (self : AdvancedTransfer) (owner spender : string)
  : list Builder.TransactionCall :=
  let approval_data := _encode_approval_call spender true in
  [ {| Builder.to := v2_hub_address self;
       Builder.data := approval_data;
       Builder.value := 0 |} ].

Definition _encode_flow_matrix_call (flow_matrix : FlowMatrix) : list Z :=
  Builder.bytes_of "flow_matrix_call_placeholder".

(** What [transitive_transfer] does once the pathfinder has answered. *)
Definition after_find_path
    (self : AdvancedTransfer) (from_addr to_addr : string)
    (tx_data : option (list Z)) (path : PathfindingResult)
  : result (FlowMatrix * list Builder.TransactionCall * TokenInfo.TokenInfoCache) :=
  let batch : list Builder.TransactionCall := [] in
  let approval_status := _check_approval_status from_addr from_addr in
  let batch :=
    if negb approval_status
    then batch ++ _build_approval_calls self from_addr from_addr
    else batch in
  '(token_info_map, cache') ←
    TokenInfo.get_token_info_map_from_path path (Some (cache self));
  let wrapped_totals :=
    TokenInfo.get_wrapped_token_totals_from_path path token_info_map in
  let unwrapped_totals :=
    TokenInfo.get_expected_unwrapped_token_totals wrapped_totals token_info_map in
  let batch :=
    match wrapped_totals with
    | [] => batch
    | _ =>
        batch ++
          ((fun unwrap_call =>
              {| Builder.to := Builder.unwrap_to unwrap_call;
                 Builder.data := Builder.unwrap_data unwrap_call;
                 Builder.value := Builder.unwrap_value unwrap_call |})
             <$> Builder.build_unwrap_calls wrapped_totals)
    end in
  path_unwrapped ← PathProcessor.replace_wrapped_tokens path unwrapped_totals;
  let has_inflationary_wrapper := PathProcessor.has_inflationary wrapped_totals in
  shrunk_path ←
    (if has_inflationary_wrapper
     then PathProcessor.shrink_path_values path_unwrapped
                                           PathProcessor.default_retain_bps
     else Ok path_unwrapped);
  _ ← PathProcessor.assert_no_netted_flow_mismatch shrunk_path;
  flow_matrix ←
    create_flow_matrix int16 from_addr to_addr
                       (max_flow shrunk_path) (transfers shrunk_path);
  let flow_matrix :=
    match tx_data with
    | Some (b :: bs) =>
        {| flow_vertices := flow_vertices flow_matrix;
           flow_edges := flow_edges flow_matrix;
           streams :=
             (fun stream =>
                {| source_coordinate := source_coordinate stream;
                   flow_edge_ids := flow_edge_ids stream;
                   data := b :: bs |}) <$> streams flow_matrix;
           packed_coordinates := packed_coordinates flow_matrix;
           fm_source_coordinate := fm_source_coordinate flow_matrix |}
    | _ => flow_matrix
    end in
  let transfer_call :=
    {| Builder.to := v2_hub_address self;
       Builder.data := _encode_flow_matrix_call flow_matrix;
       Builder.value := 0 |} in
  let batch := batch ++ [transfer_call] in
  mret (flow_matrix, batch, default (cache self) cache').

(** [AdvancedTransfer.transitive_transfer]: the external calls made, and the
    outcome. *)
Definition transitive_transfer
    (self : AdvancedTransfer) (from_addr to_addr : string) (amount : Z)
    (use_wrapped_balances : bool)
    (from_tokens to_tokens exclude_from_tokens exclude_to_tokens : option (list string))
    (tx_data : option (list Z))
  : list call
    * result (FlowMatrix * list Builder.TransactionCall * TokenInfo.TokenInfoCache) :=
  if negb (_pathfinder_client self) then
    ([], Err (CirclesSDKError NotContextManager))
  else
    let from_addr := lower from_addr in
    let to_addr := lower to_addr in
    let amount := _truncate_to_six_decimals amount in
    match new_FindPathParams from_addr to_addr amount use_wrapped_balances
                             from_tokens to_tokens
                             exclude_from_tokens exclude_to_tokens with
    | Err e => ([], Err e)
    | Ok find_params =>
        ([CallFindPath find_params],
         path ← find_path find_params;
         after_find_path self from_addr to_addr tx_data path)
    end.

End Orchestrator.

End Advanced.

(** ** [transfers/simple.py] *)

Module Simple.

Section SimpleTransfer.

(** [int(addr, 16)], as in the encoder; [int(amount)] on the text of an
    amount, [None] where Python raises [ValueError]; and
    [PathfinderClient.find_path]. *)
Variable int16 : string -> option Z.
Variable int10 : string -> option Z.
Variable find_path : FindPathParams -> result PathfindingResult.

Definition _validate_transfer_params (from_addr to_addr amount : string)
  : result unit :=
  _ ← for_each [(from_addr, "from_addr"); (to_addr, "to_addr")]
        (fun '(addr, name) =>
           if negb (startswith "0x" addr) || negb (len_str addr =? 42)
           then Err (ValidationError (InvalidParameter name addr))
           else Ok tt);
  _ ← match int10 amount with
      | Some amount_int =>
          if amount_int <=? 0 then Err (ValidationError AmountNotPositive)
          else Ok tt
      | None => Err (ValidationError AmountNotInteger)
      end;
  if bool_decide (lower from_addr = lower to_addr)
  then Err (ValidationError SameSourceAndDestination)
  else Ok tt.

Definition _convert_transfers (transfers : list TransferStep)
  : result (list TransferStep) :=
  mapM (fun transfer =>
          new_TransferStep (from_address transfer) (to_address transfer)
                           (token_owner transfer) (value transfer))
       transfers.

(** [isinstance(e, (ValidationError, PathfindingError))]; the classes
    [NoPathFoundError] and [InsufficientBalanceError] derive from
    [PathfindingError]. *)
Definition is_validation_or_pathfinding (e : exn) : bool :=
  match e with
  | ValidationError _ | PathfindingError _
  | NoPathFoundError _ | InsufficientBalanceError _ => true
  | _ => false
  end.

(** The handler of the [try] block of [transfer]. *)
Definition except_Exception {A} (body : result A) : result A :=
  match body with
  | Ok a => Ok a
  | Err e =>
      if is_validation_or_pathfinding e then Err e
      else Err (PathfindingError UnexpectedTransferError)
  end.

(** [SimpleTransfer.transfer]: the pathfinder calls made, and the outcome.
    The amount is text; once [int] has accepted it, [target_flow] is
    represented by the integer it denotes. *)
Definition transfer
    (from_addr to_addr amount : string) (use_wrapped_balances : bool)
    (from_tokens to_tokens exclude_from_tokens exclude_to_tokens : option (list string))
  : list Advanced.call * result FlowMatrix :=
  let from_addr := lower from_addr in
  let to_addr := lower to_addr in
  match _validate_transfer_params from_addr to_addr amount with
  | Err e => ([], Err e)
  | Ok _ =>
      let params :=
        match int10 amount with
        | Some target_flow =>
            new_FindPathParams from_addr to_addr target_flow use_wrapped_balances
                               from_tokens to_tokens
                               exclude_from_tokens exclude_to_tokens
        | None => Err (PydanticValidationError (InvalidTargetFlow amount))
        end in
      match except_Exception params with
      | Err e => ([], Err e)
      | Ok params =>
          ([Advanced.CallFindPath params],
           except_Exception
             (path_result ← find_path params;
              legacy_transfers ← _convert_transfers (transfers path_result);
              create_flow_matrix int16 from_addr to_addr
                                 (max_flow path_result) legacy_transfers))
      end
  end.

End SimpleTransfer.

End Simple.

(** ** Quantities of a path, for stating properties *)

Module Flows.

(** The lower-cased senders and receivers of a step list, in step order. *)
Definition senders (ts : list TransferStep) : list string :=
  (fun t => lower (from_address t)) <$> ts.

Definition receivers (ts : list TransferStep) : list string :=
  (fun t => lower (to_address t)) <$> ts.

(** What arrives at an address and what leaves it. *)
Fixpoint inflow (ts : list TransferStep) (a : string) : Z :=
  match ts with
  | [] => 0
  | t :: ts' =>
      (if bool_decide (lower (to_address t) = a) then value t else 0) + inflow ts' a
  end.

Fixpoint outflow (ts : list TransferStep) (a : string) : Z :=
  match ts with
  | [] => 0
  | t :: ts' =>
      (if bool_decide (lower (from_address t) = a) then value t else 0) + outflow ts' a
  end.

(** Net flow: incoming minus outgoing. *)
Definition net (ts : list TransferStep) (a : string) : Z :=
  inflow ts a - outflow ts a.

(** An address that sends and never receives, and one that receives and
    never sends. *)
Definition sends_only (ts : list TransferStep) (a : string) : Prop :=
  a ∈ senders ts /\ a ∉ receivers ts.

Definition receives_only (ts : list TransferStep) (a : string) : Prop :=
  a ∈ receivers ts /\ a ∉ senders ts.

(** The paths the specification lets pass the conservation check: one
    address sends and never receives, one receives and never sends, the
    net flow of the first is negative, that of the second positive, and
    that of every other address zero. *)
Definition unique_source_and_sink (ts : list TransferStep) (source sink : string)
  : Prop :=
  (forall a, Flows.sends_only ts a <-> a = source)
  /\ (forall a, Flows.receives_only ts a <-> a = sink).

Definition conserved (ts : list TransferStep) : Prop :=
  exists source sink,
    unique_source_and_sink ts source sink
    /\ Flows.net ts source < 0
    /\ 0 < Flows.net ts sink
    /\ (forall a, a <> source -> a <> sink -> Flows.net ts a = 0).

(** The scaled value of the first loop of [shrink_path_values]. *)
Definition scaled_value (retain_bps v : Z) : Z :=
  (v * retain_bps) `div` PathProcessor.DENOM.

(** A step with its value scaled, and the steps of a list that survive the
    scaling, in their order. *)
Definition rescale (retain_bps : Z) (t : TransferStep) : TransferStep :=
  {| from_address := from_address t;
     to_address := to_address t;
     token_owner := token_owner t;
     value := scaled_value retain_bps (value t) |}.

Definition shrunk (retain_bps : Z) (ts : list TransferStep) : list TransferStep :=
  rescale retain_bps
    <$> filter (fun t => scaled_value retain_bps (value t) <> 0) ts.

(** The surviving steps as the first loop of [shrink_path_values] records
    them, the positions counted from [start]. *)
Fixpoint indexed_from (retain_bps : Z) (start : nat) (ts : list TransferStep)
  : list PathProcessor.Indexed._IndexedTransferStep :=
  match ts with
  | [] => []
  | t :: ts' =>
      (if scaled_value retain_bps (value t) =? 0 then []
       else [ {| PathProcessor.Indexed.from_address := from_address t;
                 PathProcessor.Indexed.to_address := to_address t;
                 PathProcessor.Indexed.token_owner := token_owner t;
                 PathProcessor.Indexed.value := scaled_value retain_bps (value t);
                 PathProcessor.Indexed._idx := Z.of_nat start |} ])
        ++ indexed_from retain_bps (S start) ts'
  end.

(** A scaled step without its position. *)
Definition unindexed (t : PathProcessor.Indexed._IndexedTransferStep) : TransferStep :=
  {| from_address := PathProcessor.Indexed.from_address t;
     to_address := PathProcessor.Indexed.to_address t;
     token_owner := PathProcessor.Indexed.token_owner t;
     value := PathProcessor.Indexed.value t |}.

(** The step [replace_wrapped_tokens] builds from a valid step: the token
    owner gives way to the avatar recorded for it, lower-cased by the
    constructor. *)
Definition substituted (unwrapped_totals : odict (Z * string)) (t : TransferStep)
  : TransferStep :=
  match odict_get unwrapped_totals (lower (token_owner t)) with
  | Some info =>
      {| from_address := from_address t; to_address := to_address t;
         token_owner := lower info.2; value := value t |}
  | None => t
  end.

(** The receiver of the first step, in list order, whose receiver sends
    nothing. *)
Definition first_sink (ts : list TransferStep) : option string :=
  (fun t => lower (to_address t))
    <$> head (filter (fun t => lower (to_address t) ∉ senders ts) ts).

(** The order [sorted] puts two addresses in: both have a base-16 value and
    the value of the first is not the larger one; and the strict order. *)
Definition key_le (int16 : string -> option Z) (a b : string) : Prop :=
  exists ka kb, int16 a = Some ka /\ int16 b = Some kb /\ ka <= kb.

Definition key_lt (int16 : string -> option Z) (a b : string) : Prop :=
  exists ka kb, int16 a = Some ka /\ int16 b = Some kb /\ ka < kb.

(** The addresses whose coordinates [create_flow_matrix] packs, in the
    order in which it packs them. *)
Definition coordinate_addresses (transfers : list TransferStep) : list string :=
  transfers ≫= (fun transfer =>
    [lower (token_owner transfer); lower (from_address transfer);
     lower (to_address transfer)]).

(** One edge per step, terminal when the step goes to the receiver; and
    the positions of the steps that go there. *)
Definition natural_edges (receiver : string) (ts : list TransferStep) : list FlowEdge :=
  (fun t => if decide (lower (to_address t) = receiver)
            then terminal_edge t else intermediate_edge t) <$> ts.

Definition positions_to (receiver : string) (ts : list TransferStep) : list Z :=
  (fun p : nat * TransferStep => Z.of_nat p.1)
    <$> filter (fun p : nat * TransferStep => lower (to_address p.2) = receiver)
               (enumerate ts).

(** A FlowMatrix with the transaction data put on its streams, as
    [transitive_transfer] does when data is given. *)
Definition with_data (tx_data : option (list Z)) (fm : FlowMatrix) : FlowMatrix :=
  match tx_data with
  | Some (b :: bs) =>
      {| flow_vertices := flow_vertices fm;
         flow_edges := flow_edges fm;
         streams :=
           (fun stream =>
              {| source_coordinate := source_coordinate stream;
                 flow_edge_ids := flow_edge_ids stream;
                 data := b :: bs |}) <$> streams fm;
         packed_coordinates := packed_coordinates fm;
         fm_source_coordinate := fm_source_coordinate fm |}
  | _ => fm
  end.

(** The lower-cased token owners of a step list, in step order, and the
    total value moved in a token. *)
Definition token_owners (ts : list TransferStep) : list string :=
  (fun t => lower (token_owner t)) <$> ts.

Fixpoint token_flow (ts : list TransferStep) (a : string) : Z :=
  match ts with
  | [] => 0
  | t :: ts' =>
      (if bool_decide (lower (token_owner t) = a) then value t else 0)
      + token_flow ts' a
  end.

(** The row of an address that the token map classifies as a wrapper. *)
Definition wrapper_of (m : gmap string TokenInfo.TokenInfoRow) (a : string)
  : option TokenInfo.TokenInfoRow :=
  match m !! a with
  | Some info => if TokenInfo.is_wrapped info then Some info else None
  | None => None
  end.

(** The body of the loop of [get_wrapped_token_totals_from_path]. *)
Definition totals_step (m : gmap string TokenInfo.TokenInfoRow)
    (wrapped_edge_totals : odict (Z * string)) (transfer : TransferStep)
  : odict (Z * string) :=
  let token_addr := lower (token_owner transfer) in
  match m !! token_addr with
  | Some info =>
      if TokenInfo.is_wrapped info then
        let wrapped_edge_totals :=
          match odict_get wrapped_edge_totals token_addr with
          | None => odict_set wrapped_edge_totals token_addr (0, TokenInfo.type info)
          | Some _ => wrapped_edge_totals
          end in
        let '(current_total, wrapper_type) :=
          default (0, TokenInfo.type info) (odict_get wrapped_edge_totals token_addr) in
        odict_set wrapped_edge_totals token_addr
                  (current_total + value transfer, wrapper_type)
      else wrapped_edge_totals
  | None => wrapped_edge_totals
  end.

(** The elements of a list in the order of their first occurrence. *)
Definition first_occurrences (l : list string) : list string :=
  foldl (fun seen x => if decide (x ∈ seen) then seen else seen ++ [x]) [] l.

(** A step with a wrapper replaced by its lower-cased avatar; and a step
    list that uses an inflationary wrapper. *)
Definition unwrapped_step (m : gmap string TokenInfo.TokenInfoRow) (t : TransferStep)
  : TransferStep :=
  match wrapper_of m (lower (token_owner t)) with
  | Some info =>
      {| from_address := from_address t; to_address := to_address t;
         token_owner := lower (TokenInfo.token_owner info); value := value t |}
  | None => t
  end.

Definition uses_inflationary (m : gmap string TokenInfo.TokenInfoRow)
    (ts : list TransferStep) : Prop :=
  exists t info,
    t ∈ ts /\ wrapper_of m (lower (token_owner t)) = Some info
    /\ TokenInfo.type info = "CrcV2_ERC20WrapperDeployed_Inflationary".

(** An address in the form the validators ask for. *)
Definition well_formed (a : string) : Prop :=
  startswith "0x" a = true /\ String.length a = 42%nat.

End Flows.

(** ** Inputs used in the examples below *)

Module Examples.

(** [int(s, 16)] on text of the form [0x] followed by hexadecimal digits,
    the form of an address. *)
Definition hex_digit (c : ascii) : option Z :=
  let n := Z.of_nat (nat_of_ascii c) in
  if (48 <=? n) && (n <=? 57) then Some (n - 48)
  else if (97 <=? n) && (n <=? 102) then Some (n - 87)
  else if (65 <=? n) && (n <=? 70) then Some (n - 55)
  else None.

Fixpoint hex_digits (acc : Z) (s : string) : option Z :=
  match s with
  | EmptyString => Some acc
  | String c s' =>
      match hex_digit c with
      | Some d => hex_digits (acc * 16 + d) s'
      | None => None
      end
  end.

Definition int16 (s : string) : option Z :=
  match s with
  | String "0" (String "x" (String c s')) => hex_digits 0 (String c s')
  | _ => None
  end.

(** [int(s)] on text made of decimal digits with an optional minus sign. *)
Definition dec_digit (c : ascii) : option Z :=
  let n := Z.of_nat (nat_of_ascii c) in
  if (48 <=? n) && (n <=? 57) then Some (n - 48) else None.

Fixpoint dec_digits (acc : Z) (s : string) : option Z :=
  match s with
  | EmptyString => Some acc
  | String c s' =>
      match dec_digit c with
      | Some d => dec_digits (acc * 10 + d) s'
      | None => None
      end
  end.

Definition int10 (s : string) : option Z :=
  match s with
  | EmptyString => None
  | String "-" (String c s') => Z.opp <$> dec_digits 0 (String c s')
  | String c s' => dec_digits 0 (String c s')
  end.

Definition addr_A : string := "0x1234567890123456789012345678901234567890".
Definition addr_B : string := "0x2222222222222222222222222222222222222222".
Definition addr_C : string := "0x9999999999999999999999999999999999999999".
Definition addr_D : string := "0x3333333333333333333333333333333333333333".

Definition step (f t o : string) (v : Z) : TransferStep :=
  {| from_address := f; to_address := t; token_owner := o; value := v |}.

(** The two-hop path of the specification's scenario. *)
Definition two_hop : list TransferStep :=
  [ step addr_A addr_B addr_A 1000; step addr_B addr_C addr_B 1000 ].

(** The address whose number is [n]: [0x] and forty lower-case hexadecimal
    digits. *)
Definition hex_char (d : Z) : ascii :=
  if d <? 10 then ascii_of_nat (Z.to_nat (48 + d))
  else ascii_of_nat (Z.to_nat (87 + d)).

Fixpoint hex_string (digits : nat) (n : Z) (rest : string) : string :=
  match digits with
  | O => rest
  | S digits' =>
      hex_string digits' (n `div` 16) (String (hex_char (n `mod` 16)) rest)
  end.

Definition address_of (n : Z) : string :=
  String "0" (String "x" (hex_string 40 n EmptyString)).

(** [n] steps, the step numbered [i] moving nothing from the address
    numbered [i] to itself. *)
Definition steps_upto (n : Z) : list TransferStep :=
  (fun i => step (address_of i) (address_of i) (address_of i) 0) <$> seqZ 0 n.

(** A step list with 65537 different addresses. *)
Definition many_steps : list TransferStep := steps_upto 65537.

(** The FlowMatrix of that path from [addr_A] to [addr_C]. *)
Definition two_hop_matrix : FlowMatrix :=
  {| flow_vertices := [addr_A; addr_B; addr_C];
     flow_edges := [ {| stream_sink_id := 0; amount := 1000 |};
                     {| stream_sink_id := 1; amount := 1000 |} ];
     streams := [ {| source_coordinate := 0; flow_edge_ids := [1]; data := [] |} ];
     packed_coordinates := [0; 0; 0; 0; 0; 1; 0; 1; 0; 1; 0; 2];
     fm_source_coordinate := 0 |}.

(** A path that never reaches [addr_C]. *)
Definition detour : list TransferStep :=
  [ step addr_A addr_B addr_A 1000; step addr_B addr_D addr_B 700 ].

(** A cache that knows [addr_A] as a demurraged wrapper of the avatar
    [addr_D]. *)
Definition wrapper_row : TokenInfo.TokenInfoRow :=
  TokenInfo.new_TokenInfoRow 0 "0x" 2 TokenInfo.CRC_V2_ERC20_WRAPPER_DEMURRAGED
                             addr_A addr_D.

Definition wrapper_cache : TokenInfo.TokenInfoCache :=
  {| TokenInfo._cache := [(addr_A, wrapper_row)]; TokenInfo._max_size := 1000 |}.

End Examples.

(** * Properties *)

(** ** Packing of coordinates *)

Section Packing.

Lemma pack_loop_spec (coords : list Z) :
  forall (start : nat) (front back : list Z),
    length front = (2 * start)%nat ->
    foldl (fun result '(i, coord) =>
             let hi := Z.land (Z.shiftr coord 8) 0xFF in
             let lo := Z.land coord 0xFF in
             let offset := (2 * i)%nat in
             <[(offset + 1)%nat := lo]> (<[offset := hi]> result))
          (front ++ replicate (length coords * 2) 0 ++ back)
          (zip (seq start (length coords)) coords)
    = front ++ (coords ≫= encode_coordinate) ++ back.
Proof.
  induction coords as [|c cs IH]; intros start front back Hlen; [done|].
  cbn [length].
  change (S (length cs) * 2)%nat with (S (S (length cs * 2))).
  cbn [seq zip_with foldl replicate app].
  rewrite (insert_app_r_alt front _ (2 * start)) by lia.
  rewrite (insert_app_r_alt front _ (2 * start + 1)) by lia.
  rewrite Hlen, Nat.sub_diag.
  replace (2 * start + 1 - 2 * start)%nat with 1%nat by lia.
  cbn [insert list_insert].
  specialize (IH (S start) (front ++ encode_coordinate c) back).
  rewrite <- !app_assoc in IH. cbn [encode_coordinate app] in IH.
  rewrite IH by (rewrite length_app; simpl; lia).
  done.
Qed.

Lemma pack_coordinates_bind (coords : list Z) :
  pack_coordinates coords = coords ≫= encode_coordinate.
Proof.
  unfold pack_coordinates, enumerate.
  pose proof (pack_loop_spec coords 0 [] [] eq_refl) as H.
  rewrite !app_nil_r in H. exact H.
Qed.

Lemma length_pack_coordinates (coords : list Z) :
  length (pack_coordinates coords) = (2 * length coords)%nat.
Proof.
  rewrite pack_coordinates_bind.
  induction coords as [|c cs IH]; [done|].
  change ((c :: cs) ≫= encode_coordinate)
    with (encode_coordinate c ++ (cs ≫= encode_coordinate)).
  rewrite length_app, IH. cbn [encode_coordinate length]. lia.
Qed.

Lemma is_byte_spec (b : Z) : is_byte b = true <-> 0 <= b <= 255.
Proof. unfold is_byte. rewrite andb_true_iff, Z.leb_le, Z.ltb_lt. lia. Qed.

Lemma land_0xFF_byte (c : Z) : 0 <= Z.land c 0xFF <= 255.
Proof.
  change (Z.land c 0xFF) with (Z.land c (Z.ones 8)). rewrite Z.land_ones by lia.
  change (2 ^ 8) with 256. pose proof (Z.mod_pos_bound c 256). lia.
Qed.

(** Whatever the coordinates are, every element of the packed list is a
    byte (so the [bytearray] assignments of the source never raise). *)
Lemma pack_coordinates_bytes (coords : list Z) :
  Forall (fun b => 0 <= b <= 255) (pack_coordinates coords).
Proof.
  rewrite pack_coordinates_bind.
  induction coords as [|c cs IH]; [constructor|].
  change ((c :: cs) ≫= encode_coordinate)
    with (encode_coordinate c ++ (cs ≫= encode_coordinate)).
  apply Forall_app. split; [|exact IH].
  unfold encode_coordinate. repeat constructor; apply land_0xFF_byte.
Qed.

Lemma decode_encode_coordinate_mod (c : Z) :
  Z.land (Z.shiftr c 8) 0xFF * 256 + Z.land c 0xFF = c `mod` 65536.
Proof.
  change 0xFF with (Z.ones 8).
  rewrite !Z.land_ones, Z.shiftr_div_pow2 by lia.
  change (2 ^ 8) with 256. change 65536 with (256 * 256).
  rewrite (Z.rem_mul_r c 256 256) by lia. lia.
Qed.

(** The packed list always decodes, to the coordinates modulo 65536. *)
Lemma unpack_pack_coordinates (coords : list Z) :
  unpack_coordinates (pack_coordinates coords)
  = Some ((fun c => c `mod` 65536) <$> coords).
Proof.
  rewrite pack_coordinates_bind.
  induction coords as [|c cs IH]; [done|].
  change ((c :: cs) ≫= encode_coordinate)
    with (encode_coordinate c ++ (cs ≫= encode_coordinate)).
  cbn [encode_coordinate app unpack_coordinates].
  rewrite (proj2 (is_byte_spec _) (land_0xFF_byte (Z.shiftr c 8))).
  rewrite (proj2 (is_byte_spec _) (land_0xFF_byte c)).
  cbn [andb]. rewrite IH. cbn [fmap option_fmap option_map list_fmap].
  by rewrite decode_encode_coordinate_mod.
Qed.

End Packing.

(** C4: packing a list of coordinates that each fit in 16 bits gives a
    buffer of exactly twice as many elements, each of them a byte, and
    reading that byte buffer back two bytes at a time as big-endian
    unsigned 16-bit integers gives the original list. *)
Theorem pack_coordinates_roundtrip (coords : list Z) :
  Forall (fun c => 0 <= c <= 65535) coords ->
  length (pack_coordinates coords) = (2 * length coords)%nat
  /\ Forall (fun b => 0 <= b <= 255) (pack_coordinates coords)
  /\ unpack_coordinates (pack_coordinates coords) = Some coords.
Proof.
  intros Hrange.
  split; [apply length_pack_coordinates|].
  split; [apply pack_coordinates_bytes|].
  rewrite unpack_pack_coordinates. f_equal.
  induction Hrange as [|c cs Hc _ IH]; [done|].
  cbn [fmap list_fmap]. rewrite Z.mod_small by lia. f_equal. exact IH.
Qed.

Lemma pack_coordinates_roundtrip_witness :
  Forall (fun c => 0 <= c <= 65535) [0; 258; 65535]
  /\ length (pack_coordinates [0; 258; 65535]) = 6%nat
  /\ Forall (fun b => 0 <= b <= 255) (pack_coordinates [0; 258; 65535])
  /\ unpack_coordinates (pack_coordinates [0; 258; 65535]) = Some [0; 258; 65535].
Proof.
  assert (H : Forall (fun c => 0 <= c <= 65535) [0; 258; 65535])
    by (repeat constructor; lia).
  split; [exact H|].
  exact (pack_coordinates_roundtrip [0; 258; 65535] H).
Defined.

(** ** The Python runtime *)

Section Runtime.

Lemma lower_ascii_idemp (c : ascii) : lower_ascii (lower_ascii c) = lower_ascii c.
Proof. by destruct c as [[] [] [] [] [] [] [] []]. Qed.

Lemma lower_idemp (s : string) : lower (lower s) = lower s.
Proof.
  induction s as [|c s IH]; [done|].
  cbn [lower]. by rewrite lower_ascii_idemp, IH.
Qed.

Lemma length_lower (s : string) : String.length (lower s) = String.length s.
Proof. induction s as [|c s IH]; [done|]. cbn. by rewrite IH. Qed.

Lemma bind_Ok {A B} (m : result A) (f : A -> result B) (b : B) :
  m ≫= f = Ok b <-> exists a, m = Ok a /\ f a = Ok b.
Proof.
  destruct m as [a|e]; cbn; split.
  - eauto.
  - by intros (a' & [= ->] & ?).
  - done.
  - by intros (a' & [=] & ?).
Qed.

Lemma insert_by_Permutation {A} (key : A -> Z) (x : A) (l : list A) :
  insert_by key x l ≡ₚ x :: l.
Proof.
  induction l as [|y l IH]; [done|].
  cbn [insert_by]. destruct (key x <? key y); [done|].
  rewrite IH. apply Permutation_swap.
Qed.

Lemma sorted_by_Permutation {A} (key : A -> Z) (l : list A) :
  sorted_by key l ≡ₚ l.
Proof.
  unfold sorted_by.
  assert (H : forall acc, foldl (fun acc x => insert_by key x acc) acc l ≡ₚ acc ++ l).
  { induction l as [|x l IH]; intros acc; cbn [foldl].
    - by rewrite app_nil_r.
    - rewrite IH, insert_by_Permutation. apply Permutation_middle. }
  by rewrite H.
Qed.

(** Sorting a list that is already in strictly ascending key order leaves
    it as it is. *)
Lemma insert_by_last {A} (key : A -> Z) (x : A) (l : list A) :
  Forall (fun y => key y <= key x) l -> insert_by key x l = l ++ [x].
Proof.
  induction 1 as [|y l Hy _ IH]; [done|].
  cbn [insert_by]. destruct (Z.ltb_spec (key x) (key y)); [lia|].
  by rewrite IH.
Qed.

Lemma sorted_by_ascending {A} (key : A -> Z) (l : list A) :
  StronglySorted (fun x y => key x <= key y) l -> sorted_by key l = l.
Proof.
  unfold sorted_by. intros Hl.
  assert (H : forall acc,
             Forall (fun y => Forall (fun x => key y <= key x) l) acc ->
             foldl (fun acc x => insert_by key x acc) acc l = acc ++ l).
  { induction Hl as [|x l Hl IH Hx]; intros acc Hacc; cbn [foldl].
    - by rewrite app_nil_r.
    - rewrite insert_by_last.
      + rewrite IH; [by rewrite <- app_assoc|].
        apply Forall_app; split.
        * eapply Forall_impl; [exact Hacc|]. intros y Hy. by inversion Hy.
        * by constructor.
      + eapply Forall_impl; [exact Hacc|]. intros y Hy. by inversion Hy. }
  by rewrite H.
Qed.

End Runtime.

(** ** The flow-matrix encoder *)

(** The address set built by [transform_to_flow_vertices]. *)
Lemma address_set_fold (transfers : list TransferStep) (s0 : gset string) :
  foldl (fun addresses transfer =>
           addresses ∪ {[ lower (from_address transfer) ]}
                     ∪ {[ lower (to_address transfer) ]}
                     ∪ {[ lower (token_owner transfer) ]})
        s0 transfers
  = s0 ∪ list_to_set (step_addresses transfers).
Proof.
  revert s0. induction transfers as [|t ts IH]; intros s0; cbn [foldl].
  - unfold step_addresses. cbn. by rewrite (right_id_L ∅ (∪)).
  - rewrite IH.
    change (step_addresses (t :: ts))
      with ([lower (from_address t); lower (to_address t); lower (token_owner t)]
              ++ step_addresses ts).
    rewrite list_to_set_app_L. cbn [list_to_set].
    by rewrite (right_id_L ∅ (∪)), !(assoc_L (∪)).
Qed.

Section EncoderFacts.

Variable int16 : string -> option Z.

Lemma mapM_key_Ok (l : list string) (keyed : list (Z * string)) :
  mapM (fun addr =>
          match int16 addr with
          | Some k => Ok (k, addr)
          | None => Err (ValueError (InvalidLiteral addr))
          end) l = Ok keyed ->
  keyed.*2 = l.
Proof.
  revert keyed. induction l as [|a l IH]; intros keyed; cbn.
  - by intros [= <-].
  - destruct (int16 a) as [k|]; cbn; [|done].
    destruct (mapM _ l) as [keyed'|]; cbn; [|done].
    intros [= <-]. cbn. by rewrite (IH keyed').
Qed.

Lemma mapM_key_total (l : list string) :
  Forall (fun a => is_Some (int16 a)) l ->
  exists keyed,
    mapM (fun addr =>
            match int16 addr with
            | Some k => Ok (k, addr)
            | None => Err (ValueError (InvalidLiteral addr))
            end) l = Ok keyed.
Proof.
  induction 1 as [|a l [k Hk] _ [keyed IH]]; cbn.
  - by eexists.
  - rewrite Hk. cbn. rewrite IH. cbn. by eexists.
Qed.

Lemma sorted_by_int16_Permutation (l vs : list string) :
  sorted_by_int16 int16 l = Ok vs -> vs ≡ₚ l.
Proof.
  unfold sorted_by_int16. intros (keyed & Hk & [= <-])%bind_Ok.
  apply mapM_key_Ok in Hk. rewrite <- Hk.
  by rewrite sorted_by_Permutation.
Qed.

Lemma sorted_by_int16_total (l : list string) :
  Forall (fun a => is_Some (int16 a)) l ->
  exists vs, sorted_by_int16 int16 l = Ok vs.
Proof.
  intros [keyed Hk]%mapM_key_total. unfold sorted_by_int16.
  rewrite Hk. cbn. by eexists.
Qed.

(** Every listed address gets a coordinate. *)
Lemma idx_fold_lookup (l : list string) :
  forall (start : nat) (m : gmap string Z) (a : string),
    a ∈ l \/ is_Some (m !! a) ->
    is_Some (foldl (fun idx '(i, addr) => <[addr := Z.of_nat i]> idx)
                   m (zip (seq start (length l)) l) !! a).
Proof.
  induction l as [|b l IH]; intros start m a Ha; cbn [length seq zip_with foldl].
  - destruct Ha as [Ha|Ha]; [by apply elem_of_nil in Ha | done].
  - apply IH. destruct Ha as [[->|Ha]%elem_of_cons|Ha].
    + right. rewrite lookup_insert_eq. by eexists.
    + by left.
    + right. destruct (decide (b = a)) as [->|Hne].
      * rewrite lookup_insert_eq. by eexists.
      * by rewrite lookup_insert_ne.
Qed.

Lemma transform_to_flow_vertices_Ok transfers from_addr to_addr vs idx :
  transform_to_flow_vertices int16 transfers from_addr to_addr = Ok (vs, idx) ->
  vs ≡ₚ elements (address_set from_addr to_addr transfers)
  /\ forall a, a ∈ address_set from_addr to_addr transfers -> is_Some (idx !! a).
Proof.
  unfold transform_to_flow_vertices. rewrite address_set_fold.
  fold (address_set from_addr to_addr transfers).
  intros (vs' & Hvs & [= <- <-])%bind_Ok.
  pose proof (sorted_by_int16_Permutation _ _ Hvs) as Hperm.
  split; [done|]. intros a Ha.
  apply idx_fold_lookup. left. rewrite Hperm. by apply elem_of_elements.
Qed.

Lemma transform_to_flow_vertices_total transfers from_addr to_addr :
  (forall a, a ∈ address_set from_addr to_addr transfers -> is_Some (int16 a)) ->
  exists vs idx,
    transform_to_flow_vertices int16 transfers from_addr to_addr = Ok (vs, idx).
Proof.
  intros Hkeys. unfold transform_to_flow_vertices. rewrite address_set_fold.
  fold (address_set from_addr to_addr transfers).
  destruct (sorted_by_int16_total (elements (address_set from_addr to_addr transfers)))
    as [vs Hvs].
  { apply Forall_forall. intros a Ha. apply Hkeys. by apply elem_of_elements. }
  rewrite Hvs. cbn. by do 2 eexists.
Qed.

End EncoderFacts.

Section MarkEdges.

Lemma setitem_with_Ok {A} (f : A -> A) (i : Z) (l l' : list A) :
  setitem_with f i l = Ok l' ->
  exists j : nat, (j < length l)%nat /\ l' = alter f j l.
Proof.
  unfold setitem_with.
  set (n := Z.of_nat (length l)). set (j := if i <? 0 then i + n else i).
  destruct (Z.ltb_spec j 0); cbn [orb]; [done|].
  destruct (Z.leb_spec n j); [done|].
  intros [= <-]. exists (Z.to_nat j). split; [lia|done].
Qed.

Lemma last_edge_index_none (receiver : string) (transfers : list TransferStep) :
  Forall (fun s => lower (to_address s) <> receiver) transfers ->
  forall (start : nat) (acc : Z),
    foldl (fun last_edge_index '(i, transfer) =>
             if bool_decide (lower (to_address transfer) = receiver)
             then Z.of_nat i else last_edge_index)
          acc (zip (seq start (length transfers)) transfers) = acc.
Proof.
  induction 1 as [|s ts Hs _ IH]; intros start acc; cbn [length seq zip_with foldl].
  - done.
  - by rewrite bool_decide_eq_false_2, IH.
Qed.

Lemma natural_edges_none (receiver : string) (transfers : list TransferStep) :
  Forall (fun s => lower (to_address s) <> receiver) transfers ->
  (fun transfer =>
     let is_terminal := bool_decide (lower (to_address transfer) = receiver) in
     {| stream_sink_id := if is_terminal then 1 else 0;
        amount := value transfer |}) <$> transfers
  = intermediate_edge <$> transfers.
Proof.
  induction 1 as [|s ts Hs _ IH]; [done|].
  cbn [fmap list_fmap] in *. rewrite IH.
  by rewrite bool_decide_eq_false_2.
Qed.

Lemma existsb_intermediate (transfers : list TransferStep) :
  existsb (fun edge => stream_sink_id edge =? 1) (intermediate_edge <$> transfers)
  = false.
Proof. by induction transfers as [|s ts IH]. Qed.

Lemma mark_edges_nil (receiver : string) : mark_edges receiver [] = Err IndexError.
Proof. reflexivity. Qed.

(** No step reaches the receiver: the last edge is forced terminal and it
    is the only terminal one. *)
Lemma mark_edges_forced (receiver : string) (init : list TransferStep)
    (last : TransferStep) :
  Forall (fun s => lower (to_address s) <> receiver) (init ++ [last]) ->
  mark_edges receiver (init ++ [last])
  = Ok ((intermediate_edge <$> init) ++ [terminal_edge last]).
Proof.
  intros Hnone. unfold mark_edges.
  rewrite natural_edges_none by done.
  rewrite existsb_intermediate. cbn [negb].
  unfold enumerate. rewrite last_edge_index_none by done.
  cbn [Z.eqb Pos.eqb negb].
  unfold setitem_with. rewrite length_fmap, length_app. cbn [length].
  rewrite !(proj2 (Z.ltb_ge (Z.of_nat (length init + 1) - 1) 0)) by lia.
  rewrite (proj2 (Z.leb_gt (Z.of_nat (length init + 1)) _)) by lia.
  cbn [orb]. f_equal. rewrite fmap_app.
  replace (Z.to_nat (Z.of_nat (length init + 1) - 1))
    with (length (intermediate_edge <$> init) + 0)%nat
    by (rewrite length_fmap; lia).
  by rewrite alter_app_r.
Qed.

(** Whatever the steps, an edge list that [mark_edges] delivers has a
    terminal edge. *)
Lemma mark_edges_terminal (receiver : string) (transfers : list TransferStep)
    (es : list FlowEdge) :
  mark_edges receiver transfers = Ok es ->
  length es = length transfers
  /\ Exists (fun e => stream_sink_id e = 1) es.
Proof.
  unfold mark_edges.
  set (natural := _ <$> transfers).
  assert (Hlen : length natural = length transfers) by apply length_fmap.
  destruct (existsb _ natural) eqn:Hex; cbn [negb].
  - intros [= <-]. split; [done|].
    apply existsb_exists in Hex as (e & He & H1).
    apply Exists_exists. exists e. split; [by apply list_elem_of_In|].
    by apply Z.eqb_eq.
  - intros (j & Hj & ->)%setitem_with_Ok. split; [by rewrite length_alter|].
    destruct (lookup_lt_is_Some_2 natural j Hj) as [e He].
    apply Exists_exists. eexists. split.
    + apply list_elem_of_lookup. exists j.
      rewrite list_lookup_alter_eq, He. done.
    + done.
Qed.

End MarkEdges.

Section CreateFlowMatrix.

Variable int16 : string -> option Z.

Lemma getitem_Some (idx : gmap string Z) (a : string) :
  is_Some (idx !! a) -> exists c, getitem idx a = Ok c.
Proof. intros [c Hc]. exists c. unfold getitem. by rewrite Hc. Qed.

Lemma coords_total (idx : gmap string Z) (transfers : list TransferStep) :
  (forall a, a ∈ step_addresses transfers -> is_Some (idx !! a)) ->
  forall acc : list Z,
  exists coords,
    foldl (fun coords transfer =>
             coords ← coords;
             c1 ← getitem idx (lower (token_owner transfer));
             c2 ← getitem idx (lower (from_address transfer));
             c3 ← getitem idx (lower (to_address transfer));
             mret (coords ++ [c1; c2; c3]))
          (Ok acc) transfers = Ok coords
    /\ length coords = (length acc + 3 * length transfers)%nat.
Proof.
  induction transfers as [|t ts IH]; intros Hidx acc; cbn [foldl].
  - exists acc. split; [done|]. cbn. lia.
  - assert (Hin : forall a,
               a ∈ [lower (from_address t); lower (to_address t);
                    lower (token_owner t)] -> is_Some (idx !! a)).
    { intros a Ha. apply Hidx.
      change (step_addresses (t :: ts))
        with ([lower (from_address t); lower (to_address t); lower (token_owner t)]
                ++ step_addresses ts).
      apply elem_of_app. by left. }
    destruct (getitem_Some idx (lower (token_owner t))) as [c1 H1];
      [apply Hin; repeat constructor|].
    destruct (getitem_Some idx (lower (from_address t))) as [c2 H2];
      [apply Hin; repeat constructor|].
    destruct (getitem_Some idx (lower (to_address t))) as [c3 H3];
      [apply Hin; repeat constructor|].
    cbn [mbind result_bind]. rewrite H1, H2, H3. cbn [mret result_ret].
    destruct (IH (fun a Ha => Hidx a ltac:(
                change (step_addresses (t :: ts))
                  with ([lower (from_address t); lower (to_address t);
                         lower (token_owner t)] ++ step_addresses ts);
                apply elem_of_app; by right))
                 (acc ++ [c1; c2; c3])) as (coords & Hc & Hl).
    exists coords. split; [done|]. rewrite Hl, length_app. cbn. lia.
Qed.

(** What [create_flow_matrix] returns once the vertices are sorted and the
    edges marked: the terminal sum decides. *)
Lemma create_flow_matrix_run from_addr to_addr v transfers vs idx es :
  transform_to_flow_vertices int16 transfers (lower from_addr) (lower to_addr)
    = Ok (vs, idx) ->
  mark_edges (lower to_addr) transfers = Ok es ->
  (terminal_sum es <> v ->
   create_flow_matrix int16 from_addr to_addr v transfers
   = Err (ValueError (TerminalSumMismatch (terminal_sum es) v)))
  /\ (terminal_sum es = v ->
      exists fm,
        create_flow_matrix int16 from_addr to_addr v transfers = Ok fm
        /\ flow_vertices fm = vs
        /\ flow_edges fm = es
        /\ length (packed_coordinates fm) = (6 * length transfers)%nat).
Proof.
  intros Htr Hes.
  destruct (transform_to_flow_vertices_Ok _ _ _ _ _ _ Htr) as [_ Hidx].
  assert (Hsender : is_Some (idx !! lower from_addr)).
  { apply Hidx. unfold address_set. rewrite !lower_idemp.
    apply elem_of_union_l, elem_of_union_l, elem_of_singleton. done. }
  destruct (getitem_Some _ _ Hsender) as [src Hsrc].
  destruct (coords_total idx transfers) with (acc := @nil Z) as (coords & Hc & Hl).
  { intros a Ha. apply Hidx. unfold address_set.
    apply elem_of_union_r. by apply elem_of_list_to_set. }
  unfold create_flow_matrix.
  rewrite Htr. cbn [mbind result_bind]. rewrite Hes, Hsrc, Hc.
  cbn [mbind result_bind].
  split; intros Hsum.
  - by rewrite (proj2 (Z.eqb_neq _ _) Hsum).
  - rewrite (proj2 (Z.eqb_eq _ _) Hsum). cbn [negb mret result_ret].
    eexists. split; [done|]. cbn.
    rewrite length_pack_coordinates, Hl. cbn. repeat split; lia.
Qed.

Lemma create_flow_matrix_Ok from_addr to_addr v transfers fm :
  create_flow_matrix int16 from_addr to_addr v transfers = Ok fm ->
  exists idx,
    transform_to_flow_vertices int16 transfers (lower from_addr) (lower to_addr)
      = Ok (flow_vertices fm, idx)
    /\ mark_edges (lower to_addr) transfers = Ok (flow_edges fm)
    /\ terminal_sum (flow_edges fm) = v
    /\ flow_edge_ids <$> streams fm
       = [ (fun p => Z.of_nat p.1)
             <$> filter (fun p => stream_sink_id p.2 = 1)
                        (enumerate (flow_edges fm)) ].
Proof.
  unfold create_flow_matrix.
  intros ([vs idx] & Htr & H)%bind_Ok.
  apply bind_Ok in H as (es & Hes & H).
  apply bind_Ok in H as (src & Hsrc & H).
  apply bind_Ok in H as (coords & Hc & H).
  destruct (Z.eqb_spec (terminal_sum es) v) as [Hsum|]; cbn [negb] in H; [|done].
  apply bind_Ok in H as (src' & _ & [= <-]). cbn. eauto.
Qed.

Lemma transform_to_flow_vertices_errors transfers from_addr to_addr e :
  transform_to_flow_vertices int16 transfers from_addr to_addr = Err e ->
  exists m, e = ValueError m.
Proof.
  unfold transform_to_flow_vertices, sorted_by_int16.
  set (addresses := foldl _ _ transfers).
  destruct (mapM _ (elements addresses)) as [keyed|e0] eqn:Hk;
    cbn [mbind result_bind mret result_ret]; [done|].
  intros [= <-]. clear -Hk.
  revert e0 Hk. induction (elements addresses) as [|a l IH]; intros e0; cbn.
  - done.
  - destruct (int16 a); cbn; [|intros [= <-]; eauto].
    destruct (mapM _ l); cbn; [done|].
    intros [= <-]. by apply IH.
Qed.

Lemma mark_edges_errors receiver transfers e :
  mark_edges receiver transfers = Err e -> e = IndexError.
Proof.
  unfold mark_edges. destruct (negb _); [|done].
  unfold setitem_with. destruct (_ || _); by intros [= <-].
Qed.

Lemma getitem_errors (idx : gmap string Z) (a : string) e :
  getitem idx a = Err e -> e = KeyError a.
Proof. unfold getitem. destruct (idx !! a); by intros [= <-]. Qed.

Lemma coords_errors (idx : gmap string Z) (transfers : list TransferStep) :
  forall (acc : result (list Z)) e,
    foldl (fun coords transfer =>
             coords ← coords;
             c1 ← getitem idx (lower (token_owner transfer));
             c2 ← getitem idx (lower (from_address transfer));
             c3 ← getitem idx (lower (to_address transfer));
             mret (coords ++ [c1; c2; c3]))
          acc transfers = Err e ->
    acc = Err e \/ exists k, e = KeyError k.
Proof.
  induction transfers as [|t ts IH]; intros acc e; cbn [foldl]; [eauto|].
  intros [H|H]%IH; [|eauto].
  destruct acc as [acc|]; cbn in H; [|eauto]. right.
  destruct (getitem idx (lower (token_owner t))) eqn:H1; cbn in H;
    [|inversion H; subst; apply getitem_errors in H1; eauto].
  destruct (getitem idx (lower (from_address t))) eqn:H2; cbn in H;
    [|inversion H; subst; apply getitem_errors in H2; eauto].
  destruct (getitem idx (lower (to_address t))) eqn:H3; cbn in H;
    [|inversion H; subst; apply getitem_errors in H3; eauto].
  done.
Qed.

(** The encoder raises nothing but [ValueError], [IndexError] and
    [KeyError]. *)
Lemma create_flow_matrix_errors from_addr to_addr v transfers e :
  create_flow_matrix int16 from_addr to_addr v transfers = Err e ->
  (exists m, e = ValueError m) \/ e = IndexError \/ (exists k, e = KeyError k).
Proof.
  unfold create_flow_matrix.
  destruct (transform_to_flow_vertices _ _ _ _) as [[vs idx]|e0] eqn:Htr;
    cbn [mbind result_bind].
  2:{ intros [= <-]. left. by eapply transform_to_flow_vertices_errors. }
  destruct (mark_edges _ transfers) as [es|e1] eqn:Hes.
  2:{ intros [= <-]. right. left. by eapply mark_edges_errors. }
  destruct (getitem idx (lower from_addr)) as [src|e2] eqn:Hsrc.
  2:{ intros [= <-]. apply getitem_errors in Hsrc. eauto. }
  destruct (foldl _ (Ok []) transfers) as [coords|e3] eqn:Hc.
  2:{ intros [= <-]. apply coords_errors in Hc as [?|?]; [done|eauto]. }
  cbn [mbind result_bind mret result_ret].
  destruct (terminal_sum es =? v); cbn [negb]; intros [= <-]; eauto.
Qed.

End CreateFlowMatrix.

Section TerminalSum.

Lemma sum_cons (x : Z) (l : list Z) : sum (x :: l) = x + sum l.
Proof.
  unfold sum. cbn [foldl].
  assert (H : forall a, foldl Z.add a l = a + foldl Z.add 0 l).
  { induction l as [|y l IH]; intros a; cbn [foldl]; [lia|].
    rewrite (IH (a + y)), (IH (0 + y)). lia. }
  rewrite H. lia.
Qed.

Lemma terminal_sum_total (es : list FlowEdge) :
  terminal_sum es = terminal_total es.
Proof.
  unfold terminal_sum. induction es as [|e es IH]; [done|].
  rewrite filter_cons. cbn [terminal_total].
  destruct (decide (stream_sink_id e = 1)) as [H1|H1].
  - rewrite fmap_cons, sum_cons, IH. by rewrite (proj2 (Z.eqb_eq _ _) H1).
  - rewrite IH. by rewrite (proj2 (Z.eqb_neq _ _) H1).
Qed.

Lemma terminal_total_forced (init : list TransferStep) (last : TransferStep) :
  terminal_total ((intermediate_edge <$> init) ++ [terminal_edge last])
  = value last.
Proof.
  induction init as [|s init IH]; cbn [fmap list_fmap app terminal_total] in *.
  - cbn. lia.
  - rewrite IH. cbn. lia.
Qed.

Lemma filter_terminal_forced (init : list TransferStep) (last : TransferStep) :
  filter (fun e => stream_sink_id e = 1)
         ((intermediate_edge <$> init) ++ [terminal_edge last])
  = [terminal_edge last].
Proof.
  induction init as [|s init IH]; cbn [fmap list_fmap app] in *.
  - done.
  - rewrite filter_cons. cbn. by rewrite decide_False.
Qed.

Lemma term_edge_ids_forced (init : list TransferStep) (last : TransferStep) :
  (fun p : nat * FlowEdge => Z.of_nat p.1)
    <$> filter (fun p => stream_sink_id p.2 = 1)
               (enumerate ((intermediate_edge <$> init) ++ [terminal_edge last]))
  = [Z.of_nat (length init)].
Proof.
  unfold enumerate.
  assert (H : forall start,
    filter (fun p : nat * FlowEdge => stream_sink_id p.2 = 1)
      (zip (seq start (length ((intermediate_edge <$> init) ++ [terminal_edge last])))
           ((intermediate_edge <$> init) ++ [terminal_edge last]))
    = [((start + length init)%nat, terminal_edge last)]).
  { induction init as [|s init IH]; intros start;
      cbn [fmap list_fmap app length seq zip_with].
    - rewrite filter_cons. cbn. rewrite Nat.add_0_r. done.
    - rewrite filter_cons. cbn [snd intermediate_edge stream_sink_id].
      rewrite decide_False by done.
      cbn [fmap list_fmap] in IH. rewrite IH. do 2 f_equal. lia. }
  rewrite H. done.
Qed.

End TerminalSum.

Section EncoderClaims.

Variable int16 : string -> option Z.

(** C1 (as amended): whenever [create_flow_matrix] returns a FlowMatrix, the
    sum of the amounts of its edges with [stream_sink_id = 1] is exactly the
    expected total; when the vertices were sorted and the edges marked and
    that sum differs from the expected total, the call raises [ValueError]
    with a message giving the sum and the expected total; whenever the sum
    differs no FlowMatrix is returned; the call never raises
    [FlowMatrixError]. *)
Theorem create_flow_matrix_terminal_sum
    (from_addr to_addr : string) (expected : Z) (transfers : list TransferStep) :
  (forall fm,
     create_flow_matrix int16 from_addr to_addr expected transfers = Ok fm ->
     terminal_total (flow_edges fm) = expected)
  /\ (forall es,
        is_ok (transform_to_flow_vertices int16 transfers
                 (lower from_addr) (lower to_addr)) = true ->
        mark_edges (lower to_addr) transfers = Ok es ->
        terminal_total es <> expected ->
        create_flow_matrix int16 from_addr to_addr expected transfers
        = Err (ValueError (TerminalSumMismatch (terminal_total es) expected)))
  /\ (forall es,
        mark_edges (lower to_addr) transfers = Ok es ->
        terminal_total es <> expected ->
        forall fm,
          create_flow_matrix int16 from_addr to_addr expected transfers <> Ok fm)
  /\ (forall m,
        create_flow_matrix int16 from_addr to_addr expected transfers
        <> Err (FlowMatrixError m)).
Proof.
  repeat split.
  - intros fm (idx & _ & _ & Hsum & _)%create_flow_matrix_Ok.
    by rewrite <- terminal_sum_total.
  - intros es Hok Hes Hne.
    destruct (transform_to_flow_vertices _ _ _ _) as [[vs idx]|] eqn:Htr; [|done].
    destruct (create_flow_matrix_run int16 from_addr to_addr expected
                transfers vs idx es Htr Hes) as [Hrun _].
    rewrite <- terminal_sum_total in *. by apply Hrun.
  - intros es Hes Hne fm (idx & _ & Hes' & Hsum & _)%create_flow_matrix_Ok.
    rewrite Hes in Hes'. injection Hes' as ->.
    by rewrite terminal_sum_total in Hsum.
  - intros m Hm.
    apply create_flow_matrix_errors in Hm as [[? ?]|[?|[? ?]]]; done.
Qed.

(** C6: every FlowMatrix that [create_flow_matrix] returns has a terminal
    edge; and for a non-empty step list none of whose steps goes to the
    destination, the edge list has exactly one terminal edge, the last of
    the list, the stream lists that edge alone, the terminal sum that is
    compared with the expected total is the amount of that edge, and a
    FlowMatrix is returned exactly when that amount is the expected
    total. *)
Theorem create_flow_matrix_forced_terminal
    (from_addr to_addr : string) (expected : Z) (transfers : list TransferStep) :
  (forall fm,
     create_flow_matrix int16 from_addr to_addr expected transfers = Ok fm ->
     Exists (fun e => stream_sink_id e = 1) (flow_edges fm))
  /\ (forall init last,
        transfers = init ++ [last] ->
        Forall (fun s => lower (to_address s) <> lower to_addr) transfers ->
        let es := (intermediate_edge <$> init) ++ [terminal_edge last] in
        mark_edges (lower to_addr) transfers = Ok es
        /\ filter (fun e => stream_sink_id e = 1) es = [terminal_edge last]
        /\ terminal_total es = value last
        /\ (forall fm,
              create_flow_matrix int16 from_addr to_addr expected transfers = Ok fm ->
              flow_edges fm = es
              /\ flow_edge_ids <$> streams fm = [[Z.of_nat (length init)]]
              /\ value last = expected)
        /\ (is_ok (transform_to_flow_vertices int16 transfers
                     (lower from_addr) (lower to_addr)) = true ->
            (value last = expected ->
             exists fm,
               create_flow_matrix int16 from_addr to_addr expected transfers = Ok fm)
            /\ (value last <> expected ->
                create_flow_matrix int16 from_addr to_addr expected transfers
                = Err (ValueError (TerminalSumMismatch (value last) expected))))).
Proof.
  split.
  - intros fm (idx & _ & Hes & _)%create_flow_matrix_Ok.
    by apply mark_edges_terminal in Hes as [_ ?].
  - intros init last -> Hnone es.
    pose proof (mark_edges_forced _ _ _ Hnone) as Hes. fold es in Hes.
    pose proof (terminal_total_forced init last) as Htot. fold es in Htot.
    split; [done|]. split; [apply filter_terminal_forced|]. split; [done|].
    split.
    + intros fm (idx & _ & Hes' & Hsum & Hids)%create_flow_matrix_Ok.
      rewrite Hes in Hes'. injection Hes' as Heq.
      rewrite <- Heq in *. split; [done|].
      split; [by rewrite Hids; unfold es; rewrite term_edge_ids_forced|].
      by rewrite terminal_sum_total, Htot in Hsum.
    + intros Hok.
      destruct (transform_to_flow_vertices _ _ _ _) as [[vs idx]|] eqn:Htr; [|done].
      destruct (create_flow_matrix_run int16 from_addr to_addr expected
                  _ vs idx es Htr Hes) as [Hne Heq].
      rewrite terminal_sum_total, Htot in *. split.
      * intros Hv. destruct (Heq Hv) as (fm & Hfm & _). by exists fm.
      * done.
Qed.

End EncoderClaims.

(** *** Instances *)

Lemma create_flow_matrix_two_hop :
  create_flow_matrix Examples.int16 Examples.addr_A Examples.addr_C 1000
                     Examples.two_hop
  = Ok Examples.two_hop_matrix.
Proof. vm_compute. reflexivity. Qed.

Lemma create_flow_matrix_terminal_sum_witness :
  terminal_total (flow_edges Examples.two_hop_matrix) = 1000
  /\ create_flow_matrix Examples.int16 Examples.addr_A Examples.addr_C 999
                        Examples.two_hop
     = Err (ValueError (TerminalSumMismatch 1000 999)).
Proof.
  split.
  - destruct (create_flow_matrix_terminal_sum Examples.int16 Examples.addr_A
                Examples.addr_C 1000 Examples.two_hop) as (H & _).
    apply H. vm_compute. reflexivity.
  - destruct (create_flow_matrix_terminal_sum Examples.int16 Examples.addr_A
                Examples.addr_C 999 Examples.two_hop) as (_ & H & _).
    apply (H (flow_edges Examples.two_hop_matrix)).
    + vm_compute. reflexivity.
    + vm_compute. reflexivity.
    + vm_compute. discriminate.
Defined.

(** C1 as the specification states it fails: on the two-hop path the
    terminal edges sum to 1000, the expected total is 999, and what is
    raised is a [ValueError], not a [FlowMatrixError]. *)
Lemma create_flow_matrix_mismatch_is_ValueError :
  mark_edges (lower Examples.addr_C) Examples.two_hop
  = Ok [ {| stream_sink_id := 0; amount := 1000 |};
         {| stream_sink_id := 1; amount := 1000 |} ]
  /\ terminal_total [ {| stream_sink_id := 0; amount := 1000 |};
                      {| stream_sink_id := 1; amount := 1000 |} ] = 1000
  /\ 1000 <> 999
  /\ create_flow_matrix Examples.int16 Examples.addr_A Examples.addr_C 999
                        Examples.two_hop
     = Err (ValueError (TerminalSumMismatch 1000 999))
  /\ ~ (exists m,
          create_flow_matrix Examples.int16 Examples.addr_A Examples.addr_C 999
                             Examples.two_hop
          = Err (FlowMatrixError m)).
Proof.
  assert (H : create_flow_matrix Examples.int16 Examples.addr_A Examples.addr_C
                999 Examples.two_hop
              = Err (ValueError (TerminalSumMismatch 1000 999)))
    by (vm_compute; reflexivity).
  split; [vm_compute; reflexivity|].
  split; [reflexivity|].
  split; [discriminate|].
  split; [exact H|].
  intros [m Hm]. rewrite H in Hm. discriminate.
Qed.

Lemma create_flow_matrix_forced_terminal_witness :
  Forall (fun s => lower (to_address s) <> lower Examples.addr_C) Examples.detour
  /\ mark_edges (lower Examples.addr_C) Examples.detour
     = Ok [ {| stream_sink_id := 0; amount := 1000 |};
            {| stream_sink_id := 1; amount := 700 |} ]
  /\ (exists fm,
        create_flow_matrix Examples.int16 Examples.addr_A Examples.addr_C 700
                           Examples.detour = Ok fm)
  /\ create_flow_matrix Examples.int16 Examples.addr_A Examples.addr_C 1000
                        Examples.detour
     = Err (ValueError (TerminalSumMismatch 700 1000)).
Proof.
  assert (Hnone : Forall (fun s => lower (to_address s) <> lower Examples.addr_C)
                         Examples.detour)
    by (repeat constructor; vm_compute; discriminate).
  split; [exact Hnone|].
  destruct (create_flow_matrix_forced_terminal Examples.int16 Examples.addr_A
              Examples.addr_C 700 Examples.detour) as [_ H].
  destruct (H [Examples.step Examples.addr_A Examples.addr_B Examples.addr_A 1000]
              (Examples.step Examples.addr_B Examples.addr_D Examples.addr_B 700)
              eq_refl Hnone) as (Hes & _ & _ & _ & Hrun).
  split; [exact Hes|].
  destruct (Hrun ltac:(vm_compute; reflexivity)) as [Hok _].
  split; [exact (Hok eq_refl)|].
  destruct (create_flow_matrix_forced_terminal Examples.int16 Examples.addr_A
              Examples.addr_C 1000 Examples.detour) as [_ H'].
  destruct (H' [Examples.step Examples.addr_A Examples.addr_B Examples.addr_A 1000]
               (Examples.step Examples.addr_B Examples.addr_D Examples.addr_B 700)
               eq_refl Hnone) as (_ & _ & _ & _ & Hrun').
  destruct (Hrun' ltac:(vm_compute; reflexivity)) as [_ Herr].
  apply Herr. vm_compute. discriminate.
Defined.

(** ** Coordinates beyond 16 bits *)

Section AddressesByNumber.

Import Examples.

Lemma hex_digit_hex_char (d : Z) :
  0 <= d < 16 ->
  hex_digit (hex_char d) = Some d /\ lower_ascii (hex_char d) = hex_char d.
Proof.
  intros Hd.
  assert (H : d = 0 \/ d = 1 \/ d = 2 \/ d = 3 \/ d = 4 \/ d = 5 \/ d = 6 \/ d = 7
              \/ d = 8 \/ d = 9 \/ d = 10 \/ d = 11 \/ d = 12 \/ d = 13
              \/ d = 14 \/ d = 15) by lia.
  repeat (destruct H as [->|H]; [by vm_compute|]). subst. by vm_compute.
Qed.

Lemma hex_digits_hex_string (digits : nat) :
  forall (n acc : Z) (rest : string),
    hex_digits acc (hex_string digits n rest)
    = hex_digits (acc * 16 ^ Z.of_nat digits + n `mod` 16 ^ Z.of_nat digits) rest.
Proof.
  induction digits as [|d IH]; intros n acc rest.
  - cbn [hex_string]. change (16 ^ Z.of_nat 0) with 1.
    rewrite Z.mod_1_r. f_equal. lia.
  - cbn [hex_string]. rewrite IH. cbn [hex_digits].
    destruct (hex_digit_hex_char (n `mod` 16)) as [-> _];
      [apply Z.mod_pos_bound; lia|].
    f_equal. rewrite Nat2Z.inj_succ, Z.pow_succ_r by lia.
    rewrite (Z.rem_mul_r n 16 (16 ^ Z.of_nat d)) by lia. lia.
Qed.

Lemma hex_string_cons (digits : nat) :
  forall (n : Z) (c : ascii) (rest : string),
    exists c' s', hex_string digits n (String c rest) = String c' s'.
Proof.
  induction digits as [|d IH]; intros n c rest; cbn [hex_string]; eauto.
Qed.

Lemma int16_address_of (n : Z) :
  0 <= n < 16 ^ 40 -> Examples.int16 (address_of n) = Some n.
Proof.
  intros Hn. unfold address_of, Examples.int16.
  change (hex_string 40 n EmptyString)
    with (hex_string 39 (n `div` 16) (String (hex_char (n `mod` 16)) EmptyString)).
  destruct (hex_string_cons 39 (n `div` 16) (hex_char (n `mod` 16)) EmptyString)
    as (c' & s' & Hs).
  rewrite Hs, <- Hs.
  change (hex_string 39 (n `div` 16) (String (hex_char (n `mod` 16)) EmptyString))
    with (hex_string 40 n EmptyString).
  rewrite hex_digits_hex_string. cbn [hex_digits].
  f_equal. rewrite Z.mod_small by (change (Z.of_nat 40) with 40; lia). lia.
Qed.

Lemma lower_hex_string (digits : nat) :
  forall (n : Z) (rest : string),
    lower rest = rest -> lower (hex_string digits n rest) = hex_string digits n rest.
Proof.
  induction digits as [|d IH]; intros n rest Hrest; cbn [hex_string]; [done|].
  apply IH. cbn [lower]. rewrite Hrest.
  by destruct (hex_digit_hex_char (n `mod` 16)) as [_ ->];
    [apply Z.mod_pos_bound; lia|].
Qed.

Lemma lower_address_of (n : Z) : lower (address_of n) = address_of n.
Proof.
  unfold address_of. cbn [lower].
  rewrite lower_hex_string by done. done.
Qed.

Lemma length_hex_string (digits : nat) :
  forall (n : Z) (rest : string),
    String.length (hex_string digits n rest) = (digits + String.length rest)%nat.
Proof.
  induction digits as [|d IH]; intros n rest; cbn [hex_string]; [done|].
  rewrite IH. cbn [String.length]. lia.
Qed.

Lemma valid_address_of (n : Z) :
  validate_address (address_of n) = Ok (address_of n).
Proof.
  unfold validate_address, len_str.
  rewrite lower_address_of.
  unfold address_of at 1 2. cbn [startswith String.prefix String.length].
  rewrite length_hex_string.
  destruct (Ascii.ascii_dec "0" "0"); [|done].
  destruct (Ascii.ascii_dec "x" "x"); [|done].
  done.
Qed.

End AddressesByNumber.

Section MarkEdgesTotal.

Lemma setitem_with_in_range {A} (f : A -> A) (i : Z) (l : list A) :
  0 <= i < Z.of_nat (length l) ->
  setitem_with f i l = Ok (alter f (Z.to_nat i) l).
Proof.
  intros Hi. unfold setitem_with.
  rewrite (proj2 (Z.ltb_ge i 0)) by lia.
  rewrite (proj2 (Z.ltb_ge i 0)) by lia.
  by rewrite (proj2 (Z.leb_gt _ _)) by lia.
Qed.

Lemma last_edge_index_range (receiver : string) (transfers : list TransferStep) :
  forall (start : nat) (acc : Z),
    let r := foldl (fun last_edge_index '(i, transfer) =>
                      if bool_decide (lower (to_address transfer) = receiver)
                      then Z.of_nat i else last_edge_index)
                   acc (zip (seq start (length transfers)) transfers) in
    r = acc \/ Z.of_nat start <= r < Z.of_nat (start + length transfers).
Proof.
  induction transfers as [|s ts IH]; intros start acc; cbn [length seq zip_with foldl].
  - by left.
  - destruct (IH (S start)
                (if bool_decide (lower (to_address s) = receiver)
                 then Z.of_nat start else acc)) as [->|H].
    + destruct (bool_decide _); [right; lia | by left].
    + right. lia.
Qed.

(** On a non-empty step list the edges are always built. *)
Lemma mark_edges_total (receiver : string) (transfers : list TransferStep) :
  transfers <> [] -> exists es, mark_edges receiver transfers = Ok es.
Proof.
  intros Hne. unfold mark_edges.
  set (natural := _ <$> transfers).
  assert (Hlen : length natural = length transfers) by apply length_fmap.
  destruct (existsb _ natural); cbn [negb]; [by eexists|].
  rewrite setitem_with_in_range; [by eexists|].
  rewrite Hlen. unfold enumerate.
  assert (0 < length transfers)%nat by (destruct transfers; [done|cbn; lia]).
  destruct (last_edge_index_range receiver transfers 0 (-1)) as [->|H'].
  - change (-1 =? -1) with true. cbn [negb]. lia.
  - cbn zeta in H'. destruct (_ =? -1); cbn [negb]; lia.
Qed.

Lemma mark_edges_amounts (receiver : string) (transfers : list TransferStep)
    (es : list FlowEdge) :
  mark_edges receiver transfers = Ok es ->
  amount <$> es = value <$> transfers.
Proof.
  unfold mark_edges.
  set (natural := _ <$> transfers).
  assert (Hnat : amount <$> natural = value <$> transfers).
  { unfold natural. rewrite <- list_fmap_compose. done. }
  destruct (existsb _ natural); cbn [negb].
  - by intros [= <-].
  - intros (j & _ & ->)%setitem_with_Ok. rewrite <- Hnat.
    apply list_eq. intros k. rewrite !list_lookup_fmap.
    destruct (decide (j = k)) as [->|Hjk].
    + rewrite list_lookup_alter_eq. by destruct (natural !! k).
    + by rewrite list_lookup_alter_ne.
Qed.

Lemma terminal_total_zero (es : list FlowEdge) :
  Forall (fun a => a = 0) (amount <$> es) -> terminal_total es = 0.
Proof.
  induction es as [|e es IH]; [done|].
  rewrite fmap_cons. intros [He Hes]%Forall_cons. cbn [terminal_total].
  rewrite IH by done. rewrite He. by destruct (_ =? 1).
Qed.

End MarkEdgesTotal.

Section ManyVertices.

Import Examples.

Lemma step_addresses_steps_upto (n : Z) (a : string) :
  a ∈ step_addresses (steps_upto n) <-> exists i, 0 <= i < n /\ a = address_of i.
Proof.
  unfold step_addresses, steps_upto. rewrite list_elem_of_bind. split.
  - intros (t & Ha & Ht).
    apply list_elem_of_fmap in Ht as (i & -> & Hi). apply elem_of_seqZ in Hi.
    unfold step in Ha. cbn [from_address to_address token_owner] in Ha.
    rewrite lower_address_of in Ha.
    exists i. split; [lia|].
    repeat (apply elem_of_cons in Ha as [->|Ha]; [done|]).
    by apply elem_of_nil in Ha.
  - intros (i & Hi & ->).
    exists (step (address_of i) (address_of i) (address_of i) 0). split.
    + unfold step. cbn [from_address to_address token_owner].
      rewrite lower_address_of. by left.
    + apply list_elem_of_fmap. exists i. split; [done|]. apply elem_of_seqZ. lia.
Qed.

Lemma address_set_lower from_addr to_addr transfers :
  address_set (lower from_addr) (lower to_addr) transfers
  = address_set from_addr to_addr transfers.
Proof. unfold address_set. by rewrite !lower_idemp. Qed.

Lemma valid_steps_upto (n : Z) : Forall valid_step (steps_upto n).
Proof.
  unfold steps_upto. apply Forall_fmap, Forall_forall. intros i _.
  unfold valid_step, new_TransferStep, step, compose.
  cbn [from_address to_address token_owner value].
  rewrite valid_address_of. done.
Qed.

(** A path over [n] different addresses is encoded whatever [n] is. *)
Lemma many_vertices_encoded (n : Z) :
  0 < n <= 16 ^ 40 ->
  exists fm,
    create_flow_matrix Examples.int16 (address_of 0) (address_of 0) 0 (steps_upto n)
    = Ok fm
    /\ n <= Z.of_nat (length (flow_vertices fm))
    /\ Z.of_nat (length (packed_coordinates fm)) = 6 * n.
Proof.
  intros Hn.
  assert (Hkeys : forall a,
            a ∈ address_set (lower (address_of 0)) (lower (address_of 0)) (steps_upto n) ->
            is_Some (Examples.int16 a)).
  { intros a. rewrite address_set_lower. unfold address_set.
    rewrite lower_address_of.
    intros [Ha|Ha]%elem_of_union.
    - apply elem_of_union in Ha as [Ha|Ha]; apply elem_of_singleton in Ha as ->;
        rewrite int16_address_of by lia; eauto.
    - apply elem_of_list_to_set, step_addresses_steps_upto in Ha as (i & Hi & ->).
      rewrite int16_address_of by lia. eauto. }
  destruct (transform_to_flow_vertices_total _ _ _ _ Hkeys) as (vs & idx & Htr).
  assert (Hlen : length (steps_upto n) = Z.to_nat n).
  { unfold steps_upto. by rewrite length_fmap, length_seqZ. }
  assert (Hne : steps_upto n <> []).
  { intros H. rewrite H in Hlen. cbn in Hlen. lia. }
  destruct (mark_edges_total (lower (address_of 0)) _ Hne) as [es Hes].
  assert (Hsum : terminal_sum es = 0).
  { rewrite terminal_sum_total. apply terminal_total_zero.
    rewrite (mark_edges_amounts _ _ _ Hes). unfold steps_upto.
    rewrite <- list_fmap_compose. apply Forall_fmap, Forall_forall. done. }
  destruct (create_flow_matrix_run Examples.int16 (address_of 0) (address_of 0) 0
              _ vs idx es Htr Hes) as [_ Hok].
  destruct (Hok Hsum) as (fm & Hfm & Hvs & _ & Hpk).
  exists fm. split; [done|]. split; [|lia].
  rewrite Hvs.
  destruct (transform_to_flow_vertices_Ok _ _ _ _ _ _ Htr) as [Hperm _].
  rewrite Hperm.
  pose proof (subseteq_size
                (list_to_set (address_of <$> seqZ 0 n) : gset string)
                (address_set (lower (address_of 0)) (lower (address_of 0))
                             (steps_upto n))) as Hsz.
  rewrite size_list_to_set in Hsz.
  - rewrite length_fmap, length_seqZ in Hsz.
    unfold size, set_size in Hsz. cbn [compose] in Hsz.
    assert (Hsub : (Z.to_nat n <= length (elements (address_set (lower (address_of 0))
                                    (lower (address_of 0)) (steps_upto n))))%nat).
    { apply Hsz. intros a Ha.
      apply elem_of_list_to_set, list_elem_of_fmap in Ha as (i & -> & Hi%elem_of_seqZ).
      unfold address_set. apply elem_of_union_r, elem_of_list_to_set.
      apply step_addresses_steps_upto. exists i. split; [lia|done]. }
    lia.
  - apply NoDup_fmap_2_strong; [|apply NoDup_seqZ].
    intros i j Hi%elem_of_seqZ Hj%elem_of_seqZ Heq.
    apply (f_equal Examples.int16) in Heq.
    rewrite !int16_address_of in Heq by lia. by injection Heq.
Qed.

End ManyVertices.

(** ** Ordered dictionaries and loops *)

Section OrderedDict.

Context {V : Type}.

Lemma odict_get_set (d : odict V) (k k' : string) (v : V) :
  odict_get (odict_set d k v) k'
  = if decide (k = k') then Some v else odict_get d k'.
Proof.
  induction d as [|[k0 v0] d IH]; cbn [odict_set odict_get].
  - done.
  - destruct (decide (k0 = k)) as [->|Hne]; cbn [odict_get].
    + by destruct (decide (k = k')).
    + rewrite IH. destruct (decide (k0 = k')) as [->|]; [|done].
      by rewrite decide_False.
Qed.

Lemma odict_set_keys (d : odict V) (k : string) (v : V) (x : string) :
  x ∈ (odict_set d k v).*1 <-> x = k \/ x ∈ d.*1.
Proof.
  induction d as [|[k0 v0] d IH]; cbn [odict_set].
  - cbn. rewrite elem_of_cons. naive_solver.
  - destruct (decide (k0 = k)) as [->|Hne]; cbn [fmap list_fmap fst];
      rewrite !elem_of_cons; [naive_solver|].
    change (list_fmap _ _ fst (odict_set d k v)) with ((odict_set d k v).*1).
    rewrite IH. naive_solver.
Qed.

Lemma odict_set_NoDup (d : odict V) (k : string) (v : V) :
  NoDup d.*1 -> NoDup (odict_set d k v).*1.
Proof.
  induction d as [|[k0 v0] d IH]; cbn [odict_set].
  - intros _. cbn. apply NoDup_singleton.
  - cbn [fmap list_fmap fst]. intros [Hk0 Hd]%NoDup_cons.
    destruct (decide (k0 = k)) as [->|Hne]; cbn [fmap list_fmap fst].
    + by apply NoDup_cons.
    + apply NoDup_cons. split; [|by apply IH].
      change (list_fmap _ _ fst (odict_set d k v)) with ((odict_set d k v).*1).
      rewrite odict_set_keys. naive_solver.
Qed.

Lemma odict_get_elem (d : odict V) (a : string) (b : V) :
  odict_get d a = Some b -> (a, b) ∈ d.
Proof.
  induction d as [|[k0 v0] d IH]; cbn [odict_get]; [done|].
  destruct (decide (k0 = a)) as [->|Hne].
  - intros [= ->]. by left.
  - intros H. right. by apply IH.
Qed.

Lemma odict_elem_get (d : odict V) (a : string) (b : V) :
  NoDup d.*1 -> (a, b) ∈ d -> odict_get d a = Some b.
Proof.
  induction d as [|[k0 v0] d IH]; cbn [odict_get fmap list_fmap fst].
  - by intros _ ?%elem_of_nil.
  - intros [Hk0 Hd]%NoDup_cons [[= -> ->]|Hin]%elem_of_cons.
    + by rewrite decide_True.
    + rewrite decide_False; [by apply IH|].
      intros ->. apply Hk0. apply list_elem_of_fmap. by exists (a, b).
Qed.

Lemma odict_get_None (d : odict V) (a : string) :
  odict_get d a = None <-> a ∉ d.*1.
Proof.
  induction d as [|[k0 v0] d IH]; cbn [odict_get fmap list_fmap fst].
  - split; [intros _ ?%elem_of_nil; done | done].
  - rewrite not_elem_of_cons. destruct (decide (k0 = a)) as [->|Hne].
    + split; [done | by intros [? _]].
    + rewrite IH. naive_solver.
Qed.

End OrderedDict.

Section Loops.

Lemma for_each_Ok {A} (l : list A) (body : A -> result unit) :
  for_each l body = Ok tt <-> Forall (fun x => body x = Ok tt) l.
Proof.
  induction l as [|x l IH]; cbn [for_each].
  - split; [by constructor | done].
  - rewrite Forall_cons, <- IH.
    destruct (body x) as [[]|e]; cbn; naive_solver.
Qed.

Lemma for_each_Err {A} (l : list A) (body : A -> result unit) (e : exn) :
  for_each l body = Err e -> exists x, x ∈ l /\ body x = Err e.
Proof.
  induction l as [|x l IH]; cbn [for_each]; [done|].
  destruct (body x) as [[]|e'] eqn:Hx; cbn.
  - intros (y & Hy & He)%IH. exists y. split; [by right | done].
  - intros [= ->]. exists x. split; [by left | done].
Qed.

End Loops.

(** ** The conservation check of the rewriter *)

Section Conservation.

Import PathProcessor.

Lemma inflow_not_receiver (ts : list TransferStep) (a : string) :
  a ∉ Flows.receivers ts -> Flows.inflow ts a = 0.
Proof.
  induction ts as [|t ts IH]; [done|].
  cbn [Flows.receivers Flows.inflow fmap list_fmap].
  intros [Hne Hin]%not_elem_of_cons.
  rewrite bool_decide_eq_false_2 by done. rewrite IH by done. lia.
Qed.

Lemma outflow_not_sender (ts : list TransferStep) (a : string) :
  a ∉ Flows.senders ts -> Flows.outflow ts a = 0.
Proof.
  induction ts as [|t ts IH]; [done|].
  cbn [Flows.senders Flows.outflow fmap list_fmap].
  intros [Hne Hin]%not_elem_of_cons.
  rewrite bool_decide_eq_false_2 by done. rewrite IH by done. lia.
Qed.

Lemma step_get (d : odict Z) (f t' : string) (v : Z) (a : string) :
  let d' := odict_set (odict_set d f (default 0 (odict_get d f) - v)) t'
              (default 0 (odict_get (odict_set d f (default 0 (odict_get d f) - v)) t') + v) in
  default 0 (odict_get d' a)
  = default 0 (odict_get d a)
    + (if bool_decide (t' = a) then v else 0)
    - (if bool_decide (f = a) then v else 0)
  /\ odict_get d' a
     = if decide (f = a \/ t' = a) then Some (default 0 (odict_get d' a))
       else odict_get d a.
Proof.
  cbn zeta. rewrite !odict_get_set.
  repeat case_decide; repeat case_bool_decide; subst; cbn [default];
    try (exfalso; intuition congruence); (split; [unfold id; lia|done]).
Qed.

Lemma net_cons (t : TransferStep) (ts : list TransferStep) (a : string) :
  Flows.net (t :: ts) a
  = (if bool_decide (lower (to_address t) = a) then value t else 0)
    - (if bool_decide (lower (from_address t) = a) then value t else 0)
    + Flows.net ts a.
Proof. unfold Flows.net. cbn [Flows.inflow Flows.outflow]. lia. Qed.

Lemma net_not_vertex (ts : list TransferStep) (a : string) :
  ~ (a ∈ Flows.senders ts \/ a ∈ Flows.receivers ts) -> Flows.net ts a = 0.
Proof.
  intros H. unfold Flows.net.
  rewrite inflow_not_receiver, outflow_not_sender by tauto. done.
Qed.

Lemma netted_flow_fold (ts : list TransferStep) :
  forall (d : odict Z) (a : string),
    odict_get
      (foldl (fun net_flow transfer =>
                let amount := value transfer in
                let from_addr := lower (from_address transfer) in
                let to_addr := lower (to_address transfer) in
                let net_flow :=
                  odict_set net_flow from_addr
                            (default 0 (odict_get net_flow from_addr) - amount) in
                odict_set net_flow to_addr
                          (default 0 (odict_get net_flow to_addr) + amount))
             d ts) a
    = if decide (a ∈ Flows.senders ts \/ a ∈ Flows.receivers ts)
      then Some (default 0 (odict_get d a) + Flows.net ts a)
      else odict_get d a.
Proof.
  induction ts as [|t ts IH]; intros d a.
  - cbn [foldl]. rewrite decide_False; [done|].
    intros [?%elem_of_nil|?%elem_of_nil]; done.
  - cbn [foldl]. rewrite IH. cbn zeta.
    destruct (step_get d (lower (from_address t)) (lower (to_address t))
                (value t) a) as [Hbal Hget].
    cbn zeta in Hbal, Hget. revert Hbal Hget.
    generalize (odict_get
      (odict_set
         (odict_set d (lower (from_address t))
            (default 0 (odict_get d (lower (from_address t))) - value t))
         (lower (to_address t))
         (default 0
            (odict_get
               (odict_set d (lower (from_address t))
                  (default 0 (odict_get d (lower (from_address t))) - value t))
               (lower (to_address t))) +
          value t)) a) as r.
    intros r Hbal Hget. rewrite net_cons.
    assert (Hiff : (a ∈ Flows.senders (t :: ts) \/ a ∈ Flows.receivers (t :: ts))
                   <-> ((lower (from_address t) = a \/ lower (to_address t) = a)
                        \/ (a ∈ Flows.senders ts \/ a ∈ Flows.receivers ts))).
    { unfold Flows.senders, Flows.receivers. rewrite !fmap_cons, !elem_of_cons.
      intuition congruence. }
    rewrite (decide_ext _ _ _ _ Hiff).
    destruct (decide (a ∈ Flows.senders ts \/ a ∈ Flows.receivers ts)) as [Hv|Hv].
    + rewrite decide_True by tauto. rewrite Hbal. f_equal. lia.
    + rewrite (net_not_vertex ts a Hv).
      destruct (decide (lower (from_address t) = a \/ lower (to_address t) = a))
        as [Hft|Hft].
      * rewrite decide_True by tauto. rewrite Hget, Hbal. f_equal. lia.
      * rewrite decide_False by tauto. done.
Qed.

Lemma compute_netted_flow_get (path : PathfindingResult) (a : string) :
  odict_get (_compute_netted_flow path) a
  = if decide (a ∈ Flows.senders (transfers path) \/ a ∈ Flows.receivers (transfers path))
    then Some (Flows.net (transfers path) a)
    else None.
Proof.
  unfold _compute_netted_flow. rewrite netted_flow_fold. cbn [odict_get default].
  destruct (decide _); [f_equal; lia | done].
Qed.

Lemma compute_netted_flow_NoDup (path : PathfindingResult) :
  NoDup (_compute_netted_flow path).*1.
Proof.
  unfold _compute_netted_flow.
  assert (H : forall d : odict Z, NoDup d.*1 ->
            NoDup (foldl (fun net_flow transfer =>
                let amount := value transfer in
                let from_addr := lower (from_address transfer) in
                let to_addr := lower (to_address transfer) in
                let net_flow :=
                  odict_set net_flow from_addr
                            (default 0 (odict_get net_flow from_addr) - amount) in
                odict_set net_flow to_addr
                          (default 0 (odict_get net_flow to_addr) + amount))
             d (transfers path)).*1).
  { induction (transfers path) as [|t ts IH]; intros d Hd; cbn [foldl]; [done|].
    apply IH. cbn zeta. by do 2 apply odict_set_NoDup. }
  apply H. constructor.
Qed.

Lemma singleton_list (l : list string) (x : string) :
  NoDup l -> (forall a, a ∈ l <-> a = x) -> l = [x].
Proof.
  intros Hnd Hl. destruct l as [|y l].
  - exfalso. apply (elem_of_nil x). by apply Hl.
  - assert (y = x) as -> by (apply Hl; by left).
    destruct l as [|z l]; [done|]. exfalso.
    apply NoDup_cons in Hnd as [Hx _]. apply Hx.
    assert (z = x) as -> by (apply Hl; right; by left). by left.
Qed.

Lemma sources_spec (ts : list TransferStep) (a : string) :
  a ∈ filter (fun addr => addr ∉ (list_to_set (Flows.receivers ts) : gset string))
             (elements (list_to_set (Flows.senders ts) : gset string))
  <-> Flows.sends_only ts a.
Proof.
  rewrite list_elem_of_filter, elem_of_elements, !elem_of_list_to_set.
  unfold Flows.sends_only. tauto.
Qed.

Lemma sinks_spec (ts : list TransferStep) (a : string) :
  a ∈ filter (fun addr => addr ∉ (list_to_set (Flows.senders ts) : gset string))
             (elements (list_to_set (Flows.receivers ts) : gset string))
  <-> Flows.receives_only ts a.
Proof.
  rewrite list_elem_of_filter, elem_of_elements, !elem_of_list_to_set.
  unfold Flows.receives_only. tauto.
Qed.

Lemma get_source_and_sink_Ok (path : PathfindingResult) (s k : string) :
  _get_source_and_sink path = Ok (s, k)
  <-> (forall a, Flows.sends_only (transfers path) a <-> a = s)
      /\ (forall a, Flows.receives_only (transfers path) a <-> a = k).
Proof.
  unfold _get_source_and_sink. cbn zeta.
  fold (Flows.senders (transfers path)) (Flows.receivers (transfers path)).
  pose proof (sources_spec (transfers path)) as Hsrc.
  pose proof (sinks_spec (transfers path)) as Hsnk.
  assert (Hnd1 : NoDup (filter (fun addr => addr ∉ (list_to_set (Flows.receivers (transfers path)) : gset string))
             (elements (list_to_set (Flows.senders (transfers path)) : gset string))))
    by apply NoDup_filter, NoDup_elements.
  assert (Hnd2 : NoDup (filter (fun addr => addr ∉ (list_to_set (Flows.senders (transfers path)) : gset string))
             (elements (list_to_set (Flows.receivers (transfers path)) : gset string))))
    by apply NoDup_filter, NoDup_elements.
  revert Hsrc Hsnk Hnd1 Hnd2.
  generalize (filter (fun addr => addr ∉ (list_to_set (Flows.receivers (transfers path)) : gset string))
             (elements (list_to_set (Flows.senders (transfers path)) : gset string))) as sources.
  generalize (filter (fun addr => addr ∉ (list_to_set (Flows.senders (transfers path)) : gset string))
             (elements (list_to_set (Flows.receivers (transfers path)) : gset string))) as sinks.
  intros sinks sources Hsrc Hsnk Hnd1 Hnd2. split.
  - destruct sources as [|s0 [|]]; destruct sinks as [|k0 [|]]; cbn; try done.
    intros [= <- <-]. split; intros a.
    + rewrite <- Hsrc, list_elem_of_singleton. done.
    + rewrite <- Hsnk, list_elem_of_singleton. done.
  - intros [Hs Hk].
    rewrite (singleton_list sources s Hnd1) by (intros a; by rewrite Hsrc).
    rewrite (singleton_list sinks k Hnd2) by (intros a; by rewrite Hsnk).
    done.
Qed.

Lemma get_source_and_sink_Err (path : PathfindingResult) (e : exn) :
  _get_source_and_sink path = Err e -> e = PathfindingError NoUniqueSourceSink.
Proof.
  unfold _get_source_and_sink. cbn zeta.
  destruct (filter _ _) as [|s0 [|]]; destruct (filter _ _) as [|k0 [|]]; cbn;
    by intros [= <-].
Qed.

Lemma check_item (source sink addr : string) (balance : Z) :
  (let is_source := bool_decide (addr = source) in
   let is_sink := bool_decide (addr = sink) in
   if is_source && (balance >=? 0) then
     Err (PathfindingError (SourceNotNegative addr balance))
   else if is_sink && (balance <=? 0) then
     Err (PathfindingError (SinkNotPositive addr balance))
   else
     let is_intermediate := negb is_source && negb is_sink in
     if is_intermediate && negb (balance =? 0) then
       Err (PathfindingError (VertexUnbalanced addr balance))
     else Ok tt) = Ok tt
  <-> (addr = source -> balance < 0)
      /\ (addr = sink -> 0 < balance)
      /\ (addr <> source -> addr <> sink -> balance = 0).
Proof.
  cbn zeta. rewrite Z.geb_leb.
  destruct (Z.leb_spec 0 balance); destruct (Z.leb_spec balance 0);
    destruct (Z.eqb_spec balance 0);
    repeat case_bool_decide; cbn; split; try done; try lia;
    try (intros (Hsrc & Hsnk & Hmid);
         first [specialize (Hsrc ltac:(done)); lia
               | specialize (Hsnk ltac:(done)); lia
               | specialize (Hmid ltac:(done) ltac:(done)); lia]);
    try (intros _; repeat split; intros; first [lia | congruence]).
Qed.

(** What the conservation check accepts and what it raises. *)
Lemma netted_flow_check_cases (path : PathfindingResult) :
  (assert_no_netted_flow_mismatch path = Ok tt
   <-> exists source sink,
         (forall a, Flows.sends_only (transfers path) a <-> a = source)
         /\ (forall a, Flows.receives_only (transfers path) a <-> a = sink)
         /\ Flows.net (transfers path) source < 0
         /\ 0 < Flows.net (transfers path) sink
         /\ (forall a, a <> source -> a <> sink -> Flows.net (transfers path) a = 0))
  /\ (forall e, assert_no_netted_flow_mismatch path = Err e ->
                exists m, e = PathfindingError m).
Proof.
  unfold assert_no_netted_flow_mismatch.
  destruct (_get_source_and_sink path) as [[s k]|e0] eqn:Hss; cbn [mbind result_bind].
  2:{ split.
      - split; [done|]. intros (s & k & Hs & Hk & _).
        assert (H : _get_source_and_sink path = Ok (s, k))
          by (by apply get_source_and_sink_Ok).
        by rewrite Hss in H.
      - intros e [= <-]. apply get_source_and_sink_Err in Hss. eauto. }
  pose proof Hss as [Hs Hk]%get_source_and_sink_Ok.
  assert (Hitem : forall a b, (a, b) ∈ _compute_netted_flow path <->
            (a ∈ Flows.senders (transfers path) \/ a ∈ Flows.receivers (transfers path))
            /\ b = Flows.net (transfers path) a).
  { intros a b. split.
    - intros Hin.
      apply odict_elem_get in Hin; [|apply compute_netted_flow_NoDup].
      rewrite compute_netted_flow_get in Hin.
      destruct (decide _); [|done]. injection Hin as <-. done.
    - intros [Hv ->]. apply odict_get_elem.
      rewrite compute_netted_flow_get. by rewrite decide_True. }
  destruct (proj2 (Hs s) eq_refl) as [Hs_in Hs_out].
  destruct (proj2 (Hk k) eq_refl) as [Hk_in Hk_out].
  split.
  - rewrite for_each_Ok, Forall_forall. split.
    + intros Hall. exists s, k. split; [done|]. split; [done|].
      assert (Hchk : forall a,
                a ∈ Flows.senders (transfers path) \/ a ∈ Flows.receivers (transfers path) ->
                (a = s -> Flows.net (transfers path) a < 0)
                /\ (a = k -> 0 < Flows.net (transfers path) a)
                /\ (a <> s -> a <> k -> Flows.net (transfers path) a = 0)).
      { intros a Hv. apply check_item.
        apply (Hall (a, Flows.net (transfers path) a)). by apply Hitem. }
      split; [apply (Hchk s); [by left | done]|].
      split; [apply (Hchk k); [by right | done]|].
      intros a Has Hak.
      destruct (decide (a ∈ Flows.senders (transfers path)
                        \/ a ∈ Flows.receivers (transfers path))) as [Hv|Hv].
      * by apply (Hchk a).
      * unfold Flows.net.
        rewrite inflow_not_receiver, outflow_not_sender by tauto. done.
    + intros (s' & k' & Hs' & Hk' & Hneg & Hpos & Hzero).
      assert (s' = s) as -> by (symmetry; by apply Hs').
      assert (k' = k) as -> by (symmetry; by apply Hk').
      intros [a b] [Hv ->]%Hitem. apply check_item.
      split; [by intros ->|]. split; [by intros ->|]. apply Hzero.
  - intros e (x & Hx & He)%for_each_Err. destruct x as [a b]. cbn zeta in He.
    destruct (_ && _); [injection He as <-; eauto|].
    destruct (_ && _); [injection He as <-; eauto|].
    destruct (_ && _); [injection He as <-; eauto|done].
Qed.

(** X1: the conservation check succeeds exactly when the path has one
    address that sends and never receives (the source), one that receives
    and never sends (the sink), the net flow (incoming minus outgoing) of
    the source is negative, that of the sink positive, and that of every
    other address zero; and whatever it raises is a [PathfindingError]. *)
Theorem netted_flow_check_iff (path : PathfindingResult) :
  (assert_no_netted_flow_mismatch path = Ok tt
   <-> exists source sink,
         (forall a, Flows.sends_only (transfers path) a <-> a = source)
         /\ (forall a, Flows.receives_only (transfers path) a <-> a = sink)
         /\ Flows.net (transfers path) source < 0
         /\ 0 < Flows.net (transfers path) sink
         /\ (forall a, a <> source -> a <> sink -> Flows.net (transfers path) a = 0))
  /\ (forall e, assert_no_netted_flow_mismatch path = Err e ->
                exists m, e = PathfindingError m).
Proof. exact (netted_flow_check_cases path). Qed.

(** C2: the conservation check passes a path if and only if, over its
    steps, exactly one address sends and never receives (the source),
    exactly one receives and never sends (the sink), the net flow
    (incoming minus outgoing) of the source is negative, that of the sink
    positive, and that of every other address zero.  On every other path
    it raises [PathfindingError]; when there is not exactly one source and
    exactly one sink, the error is the one that says so. *)
Theorem conservation_check_spec (path : PathfindingResult) :
  (assert_no_netted_flow_mismatch path = Ok tt <-> Flows.conserved (transfers path))
  /\ (~ Flows.conserved (transfers path) ->
      exists m, assert_no_netted_flow_mismatch path = Err (PathfindingError m))
  /\ (~ (exists source sink,
           Flows.unique_source_and_sink (transfers path) source sink) ->
      assert_no_netted_flow_mismatch path = Err (PathfindingError NoUniqueSourceSink)).
Proof.
  destruct (netted_flow_check_cases path) as [Hiff Herr].
  assert (Hiff' : assert_no_netted_flow_mismatch path = Ok tt
                  <-> Flows.conserved (transfers path)).
  { rewrite Hiff. unfold Flows.conserved, Flows.unique_source_and_sink.
    split; intros (s & k & H); exists s, k; tauto. }
  split; [exact Hiff'|]. split.
  - intros Hnot.
    destruct (assert_no_netted_flow_mismatch path) as [[]|e] eqn:Hrun.
    + exfalso. by apply Hnot, Hiff'.
    + destruct (Herr e eq_refl) as [m ->]. by exists m.
  - intros Hnot. unfold assert_no_netted_flow_mismatch.
    destruct (_get_source_and_sink path) as [[s k]|e] eqn:Hss.
    + exfalso. apply Hnot. exists s, k. by apply get_source_and_sink_Ok.
    + apply get_source_and_sink_Err in Hss as ->. done.
Qed.

End Conservation.

Lemma netted_flow_check_iff_witness :
  PathProcessor.assert_no_netted_flow_mismatch
    {| max_flow := 1000; transfers := Examples.two_hop |} = Ok tt
  /\ exists source sink,
       (forall a, Flows.sends_only Examples.two_hop a <-> a = source)
       /\ (forall a, Flows.receives_only Examples.two_hop a <-> a = sink)
       /\ Flows.net Examples.two_hop source < 0
       /\ 0 < Flows.net Examples.two_hop sink
       /\ (forall a, a <> source -> a <> sink -> Flows.net Examples.two_hop a = 0).
Proof.
  assert (H : PathProcessor.assert_no_netted_flow_mismatch
                {| max_flow := 1000; transfers := Examples.two_hop |} = Ok tt)
    by (vm_compute; reflexivity).
  split; [exact H|].
  exact (proj1 (proj1 (netted_flow_check_iff
                         {| max_flow := 1000; transfers := Examples.two_hop |})) H).
Defined.

Lemma conservation_check_spec_witness :
  (* a path that passes *)
  (PathProcessor.assert_no_netted_flow_mismatch
     {| max_flow := 1000; transfers := Examples.two_hop |} = Ok tt
   /\ Flows.conserved Examples.two_hop)
  (* a path with an unbalanced intermediate address *)
  /\ (~ Flows.conserved Examples.detour
      /\ exists m,
           PathProcessor.assert_no_netted_flow_mismatch
             {| max_flow := 700; transfers := Examples.detour |}
           = Err (PathfindingError m))
  (* a path with two sinks *)
  /\ (~ (exists source sink,
           Flows.unique_source_and_sink
             [Examples.step Examples.addr_A Examples.addr_B Examples.addr_A 5;
              Examples.step Examples.addr_A Examples.addr_C Examples.addr_A 5]
             source sink)
      /\ PathProcessor.assert_no_netted_flow_mismatch
           {| max_flow := 10;
              transfers :=
                [Examples.step Examples.addr_A Examples.addr_B Examples.addr_A 5;
                 Examples.step Examples.addr_A Examples.addr_C Examples.addr_A 5] |}
         = Err (PathfindingError NoUniqueSourceSink)).
Proof.
  pose (p1 := {| max_flow := 1000; transfers := Examples.two_hop |}).
  pose (p2 := {| max_flow := 700; transfers := Examples.detour |}).
  pose (p3 := {| max_flow := 10;
                 transfers :=
                   [Examples.step Examples.addr_A Examples.addr_B Examples.addr_A 5;
                    Examples.step Examples.addr_A Examples.addr_C Examples.addr_A 5] |}).
  split; [|split].
  - assert (H : PathProcessor.assert_no_netted_flow_mismatch p1 = Ok tt)
      by (vm_compute; reflexivity).
    split; [exact H|]. exact (proj1 (proj1 (conservation_check_spec p1)) H).
  - assert (H : ~ Flows.conserved (transfers p2)).
    { intros Hc. apply (proj1 (conservation_check_spec p2)) in Hc.
      vm_compute in Hc. discriminate. }
    split; [exact H|]. exact (proj1 (proj2 (conservation_check_spec p2)) H).
  - assert (H : ~ (exists source sink,
                     Flows.unique_source_and_sink (transfers p3) source sink)).
    { intros (s & k & _ & Hk).
      assert (HB : Flows.receives_only (transfers p3) Examples.addr_B).
      { split; [by apply (bool_decide_unpack _); vm_compute
               |by apply (bool_decide_unpack _); vm_compute]. }
      assert (HC : Flows.receives_only (transfers p3) Examples.addr_C).
      { split; [by apply (bool_decide_unpack _); vm_compute
               |by apply (bool_decide_unpack _); vm_compute]. }
      apply Hk in HB, HC. rewrite <- HC in HB. discriminate. }
    split; [exact H|]. exact (proj2 (proj2 (conservation_check_spec p3)) H).
Defined.

(** ** Value shrinkage *)

Section ShrinkageImports.

Import PathProcessor.

Section Shrinkage.

Variable retain_bps : Z.

Lemma shrunk_cons (t : TransferStep) (ts : list TransferStep) :
  Flows.shrunk retain_bps (t :: ts)
  = if Flows.scaled_value retain_bps (value t) =? 0 then Flows.shrunk retain_bps ts
    else Flows.rescale retain_bps t :: Flows.shrunk retain_bps ts.
Proof.
  unfold Flows.shrunk. rewrite filter_cons.
  destruct (Z.eqb_spec (Flows.scaled_value retain_bps (value t)) 0) as [H0|H0].
  - by rewrite decide_False by tauto.
  - by rewrite decide_True by done.
Qed.

Lemma scale_fold (ts : list TransferStep) :
  forall (start : nat) (incoming : gmap string Z)
         (scaled : list Indexed._IndexedTransferStep),
  exists incoming',
    foldl (fun '(incoming_to_sink, scaled) '(i, transfer) =>
             let scaled_value := (value transfer * retain_bps) `div` DENOM in
             let is_zero := scaled_value =? 0 in
             if is_zero then (incoming_to_sink, scaled)
             else
               let scaled_transfer :=
                 {| Indexed.from_address := from_address transfer;
                    Indexed.to_address := to_address transfer;
                    Indexed.token_owner := token_owner transfer;
                    Indexed.value := scaled_value;
                    Indexed._idx := Z.of_nat i |} in
               let to_addr := lower (to_address transfer) in
               (<[to_addr := default 0 (incoming_to_sink !! to_addr) + scaled_value]>
                  incoming_to_sink,
                scaled ++ [scaled_transfer]))
          (incoming, scaled) (zip (seq start (length ts)) ts)
    = (incoming', scaled ++ Flows.indexed_from retain_bps start ts)
    /\ forall a,
         incoming' !! a
         = if decide (a ∈ Flows.receivers (Flows.shrunk retain_bps ts))
           then Some (default 0 (incoming !! a)
                      + Flows.inflow (Flows.shrunk retain_bps ts) a)
           else incoming !! a.
Proof.
  match goal with |- context [foldl ?g _ _] => set (f := g) end.
  induction ts as [|t ts IH]; intros start incoming scaled.
  - exists incoming. cbn [length seq zip_with foldl Flows.indexed_from].
    rewrite app_nil_r. split; [done|]. intros a.
    rewrite decide_False; [done|]. unfold Flows.shrunk. cbn. apply not_elem_of_nil.
  - cbn [length seq zip_with foldl Flows.indexed_from].
    assert (Hstep :
      f (incoming, scaled) (start, t)
      = if Flows.scaled_value retain_bps (value t) =? 0 then (incoming, scaled)
        else (<[lower (to_address t) :=
                  default 0 (incoming !! lower (to_address t))
                  + Flows.scaled_value retain_bps (value t)]> incoming,
              scaled ++
                [ {| Indexed.from_address := from_address t;
                     Indexed.to_address := to_address t;
                     Indexed.token_owner := token_owner t;
                     Indexed.value := Flows.scaled_value retain_bps (value t);
                     Indexed._idx := Z.of_nat start |} ])) by reflexivity.
    rewrite Hstep, shrunk_cons. clear Hstep.
    destruct (Z.eqb_spec (Flows.scaled_value retain_bps (value t)) 0) as [H0|H0].
    + destruct (IH (S start) incoming scaled) as (inc' & Hfold & Hinc).
      exists inc'. by rewrite Hfold.
    + destruct (IH (S start)
                  (<[lower (to_address t) :=
                       default 0 (incoming !! lower (to_address t))
                       + Flows.scaled_value retain_bps (value t)]> incoming)
                  (scaled ++
                     [ {| Indexed.from_address := from_address t;
                          Indexed.to_address := to_address t;
                          Indexed.token_owner := token_owner t;
                          Indexed.value := Flows.scaled_value retain_bps (value t);
                          Indexed._idx := Z.of_nat start |} ]))
        as (inc' & Hfold & Hinc).
      exists inc'. rewrite Hfold, <- app_assoc. split; [done|].
      intros a. rewrite Hinc.
      cbn [Flows.receivers Flows.inflow fmap list_fmap Flows.rescale to_address value].
      fold (Flows.receivers (Flows.shrunk retain_bps ts)).
      rewrite lookup_insert.
      destruct (decide (lower (to_address t) = a)) as [Ha|Ha].
      * rewrite (bool_decide_eq_true_2 _ Ha).
        rewrite (decide_True (P := a ∈ _ :: _)) by (rewrite elem_of_cons; auto).
        subst a. cbn [default].
        destruct (decide _) as [Hr|Hr].
        -- f_equal; unfold id; lia.
        -- rewrite (inflow_not_receiver _ _ Hr). f_equal; unfold id; lia.
      * rewrite (bool_decide_eq_false_2 _ Ha).
        destruct (decide (a ∈ Flows.receivers (Flows.shrunk retain_bps ts)))
          as [Hr|Hr].
        -- rewrite decide_True by (rewrite elem_of_cons; auto). f_equal; lia.
        -- rewrite decide_False; [done|]. rewrite elem_of_cons. intros [?|?]; auto.
Qed.

Lemma unindexed_indexed_from (ts : list TransferStep) :
  forall start,
    Flows.unindexed <$> Flows.indexed_from retain_bps start ts
    = Flows.shrunk retain_bps ts.
Proof.
  induction ts as [|t ts IH]; intros start; [done|].
  cbn [Flows.indexed_from]. rewrite shrunk_cons, fmap_app, IH.
  by destruct (_ =? 0).
Qed.

Lemma indexed_from_sorted (ts : list TransferStep) :
  forall start,
    Forall (fun s => Z.of_nat start <= Indexed._idx s)
           (Flows.indexed_from retain_bps start ts)
    /\ StronglySorted (fun x y => Indexed._idx x <= Indexed._idx y)
                      (Flows.indexed_from retain_bps start ts).
Proof.
  induction ts as [|t ts IH]; intros start; cbn [Flows.indexed_from].
  - split; constructor.
  - destruct (IH (S start)) as [Hge Hsorted].
    assert (Hge' : Forall (fun s => Z.of_nat start <= Indexed._idx s)
                          (Flows.indexed_from retain_bps (S start) ts)).
    { eapply Forall_impl; [exact Hge|]. cbn. intros s Hs. lia. }
    destruct (_ =? 0); cbn [app].
    + done.
    + split.
      * constructor; [cbn; lia | done].
      * constructor; [done|]. cbn [Indexed._idx]. done.
Qed.


Lemma validate_address_Ok (v r : string) :
  validate_address v = Ok r ->
  r = lower v /\ startswith "0x" v = true /\ String.length v = 42%nat.
Proof.
  unfold validate_address, len_str.
  destruct (startswith "0x" v); cbn [negb orb]; [|done].
  destruct (Z.eqb_spec (Z.of_nat (String.length v)) 42); cbn [negb]; [|done].
  intros [= <-]. repeat split. lia.
Qed.

Lemma valid_step_addresses (t : TransferStep) :
  valid_step t ->
  validate_address (from_address t) = Ok (from_address t)
  /\ validate_address (to_address t) = Ok (to_address t)
  /\ validate_address (token_owner t) = Ok (token_owner t).
Proof.
  unfold valid_step, new_TransferStep.
  destruct (validate_address (from_address t)) as [f|]; cbn; [|done].
  destruct (validate_address (to_address t)) as [t'|]; cbn; [|done].
  destruct (validate_address (token_owner t)) as [o|]; cbn; [|done].
  destruct t as [f0 t0 o0 v0]. cbn. by intros [= -> -> ->].
Qed.

Lemma new_TransferStep_valid (f t o : string) (v : Z) :
  validate_address f = Ok f -> validate_address t = Ok t ->
  validate_address o = Ok o ->
  new_TransferStep f t o v
  = Ok {| from_address := f; to_address := t; token_owner := o; value := v |}.
Proof. unfold new_TransferStep. by intros -> -> ->. Qed.

Lemma valid_address_lower (a : string) :
  validate_address a = Ok a -> lower a = a /\ a <> "".
Proof.
  intros (Hl & _ & Hlen)%validate_address_Ok. split; [done|].
  intros ->. done.
Qed.

Lemma find_sink_filter (S : gset string) (L : list string)
    (sc : list Indexed._IndexedTransferStep) :
  (forall a, a ∈ S <-> a ∈ L) ->
  (fun t => lower (Indexed.to_address t))
    <$> head (filter (fun t => lower (Indexed.to_address t) ∉ S) sc)
  = (fun t => lower (to_address t))
      <$> head (filter (fun t => lower (to_address t) ∉ L) (Flows.unindexed <$> sc)).
Proof.
  intros HSL. induction sc as [|x sc IH]; [done|].
  rewrite fmap_cons, !filter_cons.
  change (to_address (Flows.unindexed x)) with (Indexed.to_address x).
  destruct (decide (lower (Indexed.to_address x) ∉ S)) as [H1|H1];
    destruct (decide (lower (Indexed.to_address x) ∉ L)) as [H2|H2].
  - done.
  - exfalso. apply H2. by rewrite <- HSL.
  - exfalso. apply H1. by rewrite HSL.
  - done.
Qed.

Lemma find_sink_first_sink (sc : list Indexed._IndexedTransferStep) :
  find_sink sc = Flows.first_sink (Flows.unindexed <$> sc).
Proof.
  unfold find_sink, Flows.first_sink. apply find_sink_filter.
  intros a. rewrite elem_of_list_to_set. unfold Flows.senders.
  by rewrite <- list_fmap_compose.
Qed.

Lemma first_sink_Some (ts : list TransferStep) (s : string) :
  Flows.first_sink ts = Some s ->
  exists t, t ∈ ts /\ s = lower (to_address t) /\ s ∉ Flows.senders ts.
Proof.
  unfold Flows.first_sink.
  destruct (filter _ ts) as [|t l] eqn:Hf; cbn; [done|].
  intros [= <-]. exists t.
  assert (Ht : t ∈ filter (fun t => lower (to_address t) ∉ Flows.senders ts) ts)
    by (rewrite Hf; by left).
  apply list_elem_of_filter in Ht as [? ?]. done.
Qed.

Lemma shrunk_valid (ts : list TransferStep) (t : TransferStep) :
  Forall valid_step ts -> t ∈ Flows.shrunk retain_bps ts ->
  validate_address (from_address t) = Ok (from_address t)
  /\ validate_address (to_address t) = Ok (to_address t)
  /\ validate_address (token_owner t) = Ok (token_owner t).
Proof.
  intros Hvalid (t0 & -> & Ht0)%list_elem_of_fmap.
  apply list_elem_of_filter in Ht0 as [_ Ht0].
  rewrite Forall_forall in Hvalid.
  exact (valid_step_addresses t0 (Hvalid t0 Ht0)).
Qed.

Lemma mapM_new_TransferStep (sc : list Indexed._IndexedTransferStep) :
  (forall x, x ∈ sc ->
     validate_address (Indexed.from_address x) = Ok (Indexed.from_address x)
     /\ validate_address (Indexed.to_address x) = Ok (Indexed.to_address x)
     /\ validate_address (Indexed.token_owner x) = Ok (Indexed.token_owner x)) ->
  mapM (fun scaled_transfer =>
          new_TransferStep (Indexed.from_address scaled_transfer)
                           (Indexed.to_address scaled_transfer)
                           (Indexed.token_owner scaled_transfer)
                           (Indexed.value scaled_transfer)) sc
  = Ok (Flows.unindexed <$> sc).
Proof.
  induction sc as [|x sc IH]; intros Hv; [done|].
  cbn [mapM]. destruct (Hv x ltac:(by left)) as (Hf & Ht & Ho).
  rewrite (new_TransferStep_valid _ _ _ _ Hf Ht Ho). cbn [mbind result_bind].
  rewrite IH by (intros y Hy; apply Hv; by right). done.
Qed.

Lemma scale_transfers_spec (path : PathfindingResult) :
  exists incoming,
    scale_transfers path retain_bps
    = (incoming, Flows.indexed_from retain_bps 0 (transfers path))
    /\ forall a,
         incoming !! a
         = if decide (a ∈ Flows.receivers (Flows.shrunk retain_bps (transfers path)))
           then Some (Flows.inflow (Flows.shrunk retain_bps (transfers path)) a)
           else None.
Proof.
  destruct (scale_fold (transfers path) 0 ∅ []) as (inc & Hfold & Hinc).
  exists inc. split; [exact Hfold|].
  intros a. rewrite Hinc, lookup_empty. cbn [default].
  destruct (decide _); [f_equal; lia | done].
Qed.

Lemma shrink_path_values_run (path : PathfindingResult) :
  Forall valid_step (transfers path) ->
  shrink_path_values path retain_bps
  = Ok {| max_flow :=
            match Flows.first_sink (Flows.shrunk retain_bps (transfers path)) with
            | Some sink => Flows.inflow (Flows.shrunk retain_bps (transfers path)) sink
            | None => 0
            end;
          transfers := Flows.shrunk retain_bps (transfers path) |}.
Proof.
  intros Hvalid. unfold shrink_path_values.
  destruct (scale_transfers_spec path) as (inc & Hfold & Hinc).
  rewrite Hfold.
  rewrite find_sink_first_sink, unindexed_indexed_from.
  rewrite sorted_by_ascending by apply indexed_from_sorted.
  rewrite mapM_new_TransferStep.
  2:{ intros x Hx.
      apply (shrunk_valid (transfers path) (Flows.unindexed x) Hvalid).
      rewrite <- (unindexed_indexed_from (transfers path) 0).
      by apply list_elem_of_fmap_2. }
  rewrite unindexed_indexed_from. cbn [mbind result_bind mret result_ret].
  do 2 f_equal.
  destruct (Flows.first_sink _) as [s|] eqn:Hs; [|done].
  apply first_sink_Some in Hs as (t & Ht & -> & _).
  destruct (shrunk_valid _ _ Hvalid Ht) as (_ & Hto & _).
  apply valid_address_lower in Hto as [Hlow Hne]. rewrite Hlow.
  rewrite bool_decide_eq_false_2 by done.
  rewrite Hinc.
  destruct (decide _) as [Hr|Hr]; cbn [default].
  - done.
  - by rewrite inflow_not_receiver.
Qed.

(** X2: on a path of valid steps [shrink_path_values] raises nothing.  The
    steps it returns are the input steps whose scaled value
    [value * retain_bps // 10^12] is not zero, in their order and with that
    value; the [max_flow] it returns is what arrives, over the returned
    steps, at the receiver of the first of them whose receiver sends
    nothing, and 0 when there is no such step. *)
Theorem shrink_path_values_spec (path : PathfindingResult) :
  Forall valid_step (transfers path) ->
  exists path',
    shrink_path_values path retain_bps = Ok path'
    /\ transfers path'
       = (fun t => {| from_address := from_address t;
                      to_address := to_address t;
                      token_owner := token_owner t;
                      value := (value t * retain_bps) `div` DENOM |})
           <$> filter (fun t => (value t * retain_bps) `div` DENOM <> 0)
                      (transfers path)
    /\ max_flow path'
       = match Flows.first_sink (transfers path') with
         | Some sink => Flows.inflow (transfers path') sink
         | None => 0
         end.
Proof.
  intros Hvalid. eexists. split; [by apply shrink_path_values_run|].
  cbn [transfers max_flow]. split; reflexivity.
Qed.

End Shrinkage.

Section ScaledValues.

Lemma scaled_value_bounds (r v : Z) :
  0 <= r <= DENOM -> 0 <= v ->
  0 <= Flows.scaled_value r v <= v.
Proof.
  unfold Flows.scaled_value, DENOM. intros Hr Hv. split.
  - apply Z.div_pos; nia.
  - apply Z.div_le_upper_bound; nia.
Qed.

Lemma scaled_value_default (v : Z) :
  0 <= v ->
  Flows.scaled_value default_retain_bps v = v - (v + DENOM - 1) `div` DENOM
  /\ (Flows.scaled_value default_retain_bps v <> 0 <-> 2 <= v).
Proof.
  unfold Flows.scaled_value, default_retain_bps, DENOM. intros Hv.
  pose proof (Z.div_mod (v + 1000000000000 - 1) 1000000000000 ltac:(lia)) as Hq.
  pose proof (Z.mod_pos_bound (v + 1000000000000 - 1) 1000000000000 ltac:(lia)) as Hr.
  set (q := (v + 1000000000000 - 1) `div` 1000000000000) in *.
  set (m := (v + 1000000000000 - 1) `mod` 1000000000000) in *.
  assert (H : (v * 999999999999) `div` 1000000000000 = v - q).
  { symmetry. apply (Z.div_unique _ _ _ (1000000000000 - 1 - m)); lia. }
  rewrite H. split; [done|]. lia.
Qed.


End ScaledValues.

(** X3: with a retention between 0 and 10^12 and non-negative values,
    the steps [shrink_path_values] returns are, in order, a sub-list of the
    input steps with unchanged addresses and a value that is positive and
    at most the original one; every input step that is not kept has
    scaled value 0. *)
Theorem shrink_path_values_never_increases
    (path : PathfindingResult) (retain_bps : Z) :
  Forall valid_step (transfers path) ->
  Forall (fun t => 0 <= value t) (transfers path) ->
  0 <= retain_bps <= DENOM ->
  exists path' kept,
    shrink_path_values path retain_bps = Ok path'
    /\ kept `sublist_of` transfers path
    /\ Forall2 (fun t t' =>
                  from_address t' = from_address t
                  /\ to_address t' = to_address t
                  /\ token_owner t' = token_owner t
                  /\ value t' = (value t * retain_bps) `div` DENOM
                  /\ 0 < value t' <= value t)
               kept (transfers path')
    /\ Forall (fun t => t ∈ kept \/ (value t * retain_bps) `div` DENOM = 0)
              (transfers path).
Proof.
  intros Hvalid Hnonneg Hr.
  eexists _, (filter (fun t => Flows.scaled_value retain_bps (value t) <> 0)
                     (transfers path)).
  split; [by apply shrink_path_values_run|]. cbn [transfers].
  split; [apply sublist_filter|]. split.
  - unfold Flows.shrunk. apply Forall2_fmap_r, Forall_Forall2_diag.
    apply Forall_forall. intros t [Hne Ht]%list_elem_of_filter.
    rewrite Forall_forall in Hnonneg.
    pose proof (scaled_value_bounds retain_bps (value t) Hr (Hnonneg t Ht)).
    cbn. repeat split; lia.
  - apply Forall_forall. intros t Ht.
    destruct (decide (Flows.scaled_value retain_bps (value t) = 0)) as [H0|H0].
    + by right.
    + left. by apply list_elem_of_filter.
Qed.

(** X4: with the default retention 999999999999 a non-negative value [v]
    becomes [v - ceil (v / 10^12)]: the steps of value 0 and 1 are dropped
    and every other step is kept. *)
Theorem shrink_path_values_default (path : PathfindingResult) :
  Forall valid_step (transfers path) ->
  Forall (fun t => 0 <= value t) (transfers path) ->
  exists max_flow',
    shrink_path_values path default_retain_bps
    = Ok {| max_flow := max_flow';
            transfers :=
              (fun t => {| from_address := from_address t;
                           to_address := to_address t;
                           token_owner := token_owner t;
                           value := value t - (value t + DENOM - 1) `div` DENOM |})
                <$> filter (fun t => 2 <= value t) (transfers path) |}.
Proof.
  intros Hvalid Hnonneg. rewrite shrink_path_values_run by done.
  eexists. do 2 f_equal. unfold Flows.shrunk.
  induction Hnonneg as [|t ts Ht _ IH]; [done|].
  apply Forall_cons in Hvalid as [_ Hvalid].
  destruct (scaled_value_default (value t) Ht) as [Hval Hne].
  rewrite !filter_cons.
  destruct (decide (2 <= value t)) as [H2|H2].
  - rewrite decide_True by (by apply Hne). rewrite !fmap_cons, IH by done.
    f_equal. unfold Flows.rescale. by rewrite Hval.
  - rewrite decide_False by (by rewrite Hne). by apply IH.
Qed.


(** C10: on a path of valid steps [shrink_path_values] raises nothing,
    whatever the retention.  Among the steps it returns it looks for the
    first, in list order, whose receiver is the sender of none of them:
    when there is one, the [max_flow] it returns is what arrives at that
    receiver over the returned steps, whatever other receivers send
    nothing; when there is none, the [max_flow] is 0. *)
Theorem shrink_path_values_sink (path : PathfindingResult) (retain_bps : Z) :
  Forall valid_step (transfers path) ->
  exists path',
    shrink_path_values path retain_bps = Ok path'
    /\ transfers path'
       = (fun t => {| from_address := from_address t;
                      to_address := to_address t;
                      token_owner := token_owner t;
                      value := (value t * retain_bps) `div` DENOM |})
           <$> filter (fun t => (value t * retain_bps) `div` DENOM <> 0)
                      (transfers path)
    /\ ((exists before t after,
           transfers path' = before ++ t :: after
           /\ Forall (fun t' => lower (to_address t') ∈ Flows.senders (transfers path'))
                     before
           /\ (lower (to_address t) ∉ Flows.senders (transfers path'))
           /\ max_flow path' = Flows.inflow (transfers path') (lower (to_address t)))
        \/ (Forall (fun t' => lower (to_address t') ∈ Flows.senders (transfers path'))
                   (transfers path')
            /\ max_flow path' = 0)).
Proof.
  intros Hvalid. eexists. split; [by apply shrink_path_values_run|].
  cbn [transfers max_flow]. split; [reflexivity|].
  generalize (Flows.shrunk retain_bps (transfers path)) as ts. intros ts.
  unfold Flows.first_sink.
  assert (H : forall l : list TransferStep,
            (exists before t after,
               l = before ++ t :: after
               /\ Forall (fun t' => lower (to_address t') ∈ Flows.senders ts) before
               /\ (lower (to_address t) ∉ Flows.senders ts)
               /\ head (filter (fun t => lower (to_address t) ∉ Flows.senders ts) l)
                  = Some t)
            \/ (Forall (fun t' => lower (to_address t') ∈ Flows.senders ts) l
                /\ head (filter (fun t => lower (to_address t) ∉ Flows.senders ts) l)
                   = None)).
  { induction l as [|t l IH].
    - right. split; [constructor|done].
    - rewrite filter_cons.
      destruct (decide (lower (to_address t) ∉ Flows.senders ts)) as [Ht|Ht].
      + left. exists [], t, l. repeat split; [constructor|done].
      + assert (Ht' : lower (to_address t) ∈ Flows.senders ts).
        { destruct (decide (lower (to_address t) ∈ Flows.senders ts)); tauto. }
        destruct IH as [(before & t0 & after & -> & Hb & Ht0 & Hh)|[Hall Hh]].
        * left. exists (t :: before), t0, after.
          split; [done|]. split; [by constructor|]. done.
        * right. split; [by constructor | done]. }
  destruct (H ts) as [(before & t & after & Hts & Hb & Ht & Hh)|[Hall Hh]];
    rewrite Hh; cbn [fmap option_fmap option_map].
  - left. by exists before, t, after.
  - by right.
Qed.

End ShrinkageImports.

Lemma two_hop_valid : Forall valid_step Examples.two_hop.
Proof. repeat constructor; vm_compute; reflexivity. Qed.



Lemma shrink_path_values_sink_witness :
  let two_sinks :=
    [Examples.step Examples.addr_A Examples.addr_B Examples.addr_A 10;
     Examples.step Examples.addr_A Examples.addr_C Examples.addr_A 20] in
  Forall valid_step two_sinks
  /\ exists path',
       PathProcessor.shrink_path_values {| max_flow := 30; transfers := two_sinks |}
                                        PathProcessor.DENOM = Ok path'
       /\ transfers path' = two_sinks
       /\ max_flow path' = 10.
Proof.
  intros two_sinks.
  assert (Hvalid : Forall valid_step two_sinks)
    by (repeat constructor; vm_compute; reflexivity).
  split; [exact Hvalid|].
  destruct (shrink_path_values_sink {| max_flow := 30; transfers := two_sinks |}
                                    PathProcessor.DENOM Hvalid)
    as (path' & Hrun & Hts & _).
  exists path'. split; [exact Hrun|].
  split; [rewrite Hts; vm_compute; reflexivity|].
  assert (Hrun' : PathProcessor.shrink_path_values
                    {| max_flow := 30; transfers := two_sinks |} PathProcessor.DENOM
                  = Ok {| max_flow := 10; transfers := two_sinks |})
    by (vm_compute; reflexivity).
  rewrite Hrun' in Hrun. injection Hrun as <-. reflexivity.
Defined.

Lemma shrink_path_values_spec_witness :
  exists path',
    PathProcessor.shrink_path_values
      {| max_flow := 1000; transfers := Examples.two_hop |}
      PathProcessor.default_retain_bps = Ok path'
    /\ transfers path'
       = (fun t => {| from_address := from_address t;
                      to_address := to_address t;
                      token_owner := token_owner t;
                      value := (value t * PathProcessor.default_retain_bps)
                                 `div` PathProcessor.DENOM |})
           <$> filter (fun t => (value t * PathProcessor.default_retain_bps)
                                  `div` PathProcessor.DENOM <> 0)
                      Examples.two_hop
    /\ max_flow path'
       = match Flows.first_sink (transfers path') with
         | Some sink => Flows.inflow (transfers path') sink
         | None => 0
         end.
Proof.
  exact (shrink_path_values_spec PathProcessor.default_retain_bps
           {| max_flow := 1000; transfers := Examples.two_hop |} two_hop_valid).
Defined.

Lemma shrink_path_values_never_increases_witness :
  exists path' kept,
    PathProcessor.shrink_path_values
      {| max_flow := 1000; transfers := Examples.two_hop |}
      PathProcessor.default_retain_bps = Ok path'
    /\ kept `sublist_of` Examples.two_hop
    /\ Forall2 (fun t t' =>
                  from_address t' = from_address t
                  /\ to_address t' = to_address t
                  /\ token_owner t' = token_owner t
                  /\ value t' = (value t * PathProcessor.default_retain_bps)
                                  `div` PathProcessor.DENOM
                  /\ 0 < value t' <= value t)
               kept (transfers path')
    /\ Forall (fun t => t ∈ kept
                        \/ (value t * PathProcessor.default_retain_bps)
                             `div` PathProcessor.DENOM = 0)
              Examples.two_hop.
Proof.
  apply (shrink_path_values_never_increases
           {| max_flow := 1000; transfers := Examples.two_hop |}
           PathProcessor.default_retain_bps two_hop_valid).
  - repeat constructor; vm_compute; discriminate.
  - split; vm_compute; discriminate.
Defined.

Lemma shrink_path_values_default_witness :
  exists max_flow',
    PathProcessor.shrink_path_values
      {| max_flow := 1000; transfers := Examples.two_hop |}
      PathProcessor.default_retain_bps
    = Ok {| max_flow := max_flow';
            transfers :=
              (fun t => {| from_address := from_address t;
                           to_address := to_address t;
                           token_owner := token_owner t;
                           value := value t - (value t + PathProcessor.DENOM - 1)
                                                `div` PathProcessor.DENOM |})
                <$> filter (fun t => 2 <= value t) Examples.two_hop |}.
Proof.
  apply (shrink_path_values_default
           {| max_flow := 1000; transfers := Examples.two_hop |} two_hop_valid).
  repeat constructor; vm_compute; discriminate.
Defined.

(** ** Net flow totals, token substitution and the rewriting pipeline *)

Section RewritingImports.

Import PathProcessor.

Section NetFlowTotal.

Lemma sum_odict_set (d : odict Z) (k : string) (x : Z) :
  sum (odict_set d k x).*2 = sum d.*2 - default 0 (odict_get d k) + x.
Proof.
  induction d as [|[k0 v0] d IH]; cbn [odict_set odict_get].
  - cbn. lia.
  - destruct (decide (k0 = k)) as [->|Hne]; cbn [fmap list_fmap snd].
    + rewrite !sum_cons. cbn. lia.
    + change (list_fmap _ _ snd (odict_set d k x)) with ((odict_set d k x).*2).
      change (list_fmap _ _ snd d) with (d.*2).
      rewrite !sum_cons, IH. lia.
Qed.

(** X5: the net flows that [_compute_netted_flow] records, taken over all
    addresses of its dictionary, add up to zero. *)
Theorem netted_flow_sums_to_zero (path : PathfindingResult) :
  sum (_compute_netted_flow path).*2 = 0.
Proof.
  unfold _compute_netted_flow.
  assert (H : forall d : odict Z,
            sum (foldl (fun net_flow transfer =>
                let amount := value transfer in
                let from_addr := lower (from_address transfer) in
                let to_addr := lower (to_address transfer) in
                let net_flow :=
                  odict_set net_flow from_addr
                            (default 0 (odict_get net_flow from_addr) - amount) in
                odict_set net_flow to_addr
                          (default 0 (odict_get net_flow to_addr) + amount))
             d (transfers path)).*2 = sum d.*2).
  { induction (transfers path) as [|t ts IH]; intros d; cbn [foldl]; [done|].
    rewrite IH. cbn zeta. rewrite !sum_odict_set. lia. }
  rewrite H. done.
Qed.

End NetFlowTotal.

Section Replace.

Lemma mapM_Ok_fmap {A B} (f : A -> result B) (g : A -> B) (l : list A) :
  (forall x, x ∈ l -> f x = Ok (g x)) -> mapM f l = Ok (g <$> l).
Proof.
  induction l as [|x l IH]; intros Hf; [done|].
  cbn [mapM]. rewrite (Hf x) by (by left). cbn [mbind result_bind].
  rewrite IH by (intros y Hy; apply Hf; by right). done.
Qed.

Lemma mapM_Ok_inv {A B} (f : A -> result B) (l : list A) (k : list B) :
  mapM f l = Ok k -> Forall2 (fun x y => f x = Ok y) l k.
Proof.
  revert k. induction l as [|x l IH]; intros k; cbn [mapM].
  - intros [= <-]. constructor.
  - destruct (f x) as [y|] eqn:Hx; cbn [mbind result_bind]; [|done].
    destruct (mapM f l) as [k'|]; cbn [mbind result_bind]; [|done].
    intros [= <-]. constructor; [done|]. by apply IH.
Qed.

Lemma mapM_Err_inv {A B} (f : A -> result B) (l : list A) (e : exn) :
  mapM f l = Err e -> exists x, x ∈ l /\ f x = Err e.
Proof.
  induction l as [|x l IH]; cbn [mapM]; [done|].
  destruct (f x) as [y|e'] eqn:Hx; cbn [mbind result_bind].
  - destruct (mapM f l) as [k'|e'']; cbn [mbind result_bind]; [done|].
    intros [= ->]. destruct (IH eq_refl) as (z & Hz & He).
    exists z. split; [by right | done].
  - intros [= ->]. exists x. split; [by left | done].
Qed.

Lemma replace_step (unwrapped_totals : odict (Z * string)) (t : TransferStep) :
  valid_step t ->
  new_TransferStep (from_address t) (to_address t)
    (match odict_get unwrapped_totals (lower (token_owner t)) with
     | Some info => info.2
     | None => token_owner t
     end) (value t)
  = match odict_get unwrapped_totals (lower (token_owner t)) with
    | Some info =>
        match validate_address info.2 with
        | Ok _ => Ok (Flows.substituted unwrapped_totals t)
        | Err e => Err e
        end
    | None => Ok (Flows.substituted unwrapped_totals t)
    end.
Proof.
  intros Hv. pose proof Hv as (Hf & Ht & Ho)%valid_step_addresses.
  unfold new_TransferStep, Flows.substituted. rewrite Hf, Ht.
  cbn [mbind result_bind].
  destruct (odict_get _ _) as [info|].
  - destruct (validate_address info.2) as [o|e] eqn:Hi; cbn; [|done].
    apply validate_address_Ok in Hi as [-> _]. done.
  - rewrite Ho. cbn. by destruct t.
Qed.

Lemma replace_wrapped_tokens_id
    (path : PathfindingResult) (unwrapped_totals : odict (Z * string)) :
  Forall valid_step (transfers path) ->
  (forall t, t ∈ transfers path ->
     odict_get unwrapped_totals (lower (token_owner t)) = None) ->
  replace_wrapped_tokens path unwrapped_totals = Ok path.
Proof.
  intros Hvalid Hnone. rewrite Forall_forall in Hvalid.
  unfold replace_wrapped_tokens. rewrite (mapM_Ok_fmap _ id).
  - cbn [mbind result_bind mret result_ret]. rewrite list_fmap_id. by destruct path.
  - intros t Ht. rewrite replace_step by (by apply Hvalid).
    unfold Flows.substituted. by rewrite (Hnone t Ht).
Qed.

(** X6: on a path of valid steps, what [replace_wrapped_tokens] returns
    has the [max_flow] of the input and, step by step, the input step with
    its token owner replaced by the lower-cased avatar recorded for it
    (unchanged when none is recorded); it fails only when such an avatar
    is no well-formed address, with the validator's error; and it returns
    the path itself when no token owner has an avatar recorded. *)
Theorem replace_wrapped_tokens_spec
    (path : PathfindingResult) (unwrapped_totals : odict (Z * string)) :
  Forall valid_step (transfers path) ->
  (forall path',
     replace_wrapped_tokens path unwrapped_totals = Ok path' ->
     path' = {| max_flow := max_flow path;
                transfers := Flows.substituted unwrapped_totals <$> transfers path |})
  /\ (forall e,
        replace_wrapped_tokens path unwrapped_totals = Err e ->
        exists t info,
          t ∈ transfers path
          /\ odict_get unwrapped_totals (lower (token_owner t)) = Some info
          /\ validate_address info.2 = Err e)
  /\ ((forall t, t ∈ transfers path ->
         odict_get unwrapped_totals (lower (token_owner t)) = None) ->
      replace_wrapped_tokens path unwrapped_totals = Ok path).
Proof.
  intros Hvalid. rewrite Forall_forall in Hvalid.
  unfold replace_wrapped_tokens. split; [|split].
  - intros path' (k & Hk & [= <-])%bind_Ok. f_equal.
    apply mapM_Ok_inv in Hk.
    assert (Hg : forall x, x ∈ transfers path -> True) by done.
    revert Hvalid. clear Hg.
    induction Hk as [|x y l k Hxy _ IH]; intros Hvalid; [done|].
    rewrite fmap_cons. f_equal.
    + rewrite replace_step in Hxy by (apply Hvalid; by left).
      destruct (odict_get _ _) as [info|]; [|by injection Hxy].
      destruct (validate_address info.2); [by injection Hxy | done].
    + apply IH. intros z Hz. apply Hvalid. by right.
  - intros e Herr.
    destruct (mapM _ (transfers path)) as [k|e'] eqn:Hk; cbn in Herr; [done|].
    injection Herr as ->.
    apply mapM_Err_inv in Hk as (t & Ht & He).
    rewrite replace_step in He by (by apply Hvalid).
    destruct (odict_get _ _) as [info|] eqn:Hget; [|done].
    exists t, info. split; [done|]. split; [done|].
    destruct (validate_address info.2); [done | by injection He as ->].
  - intros Hnone. apply replace_wrapped_tokens_id; [|done].
    by apply Forall_forall.
Qed.

End Replace.

Section Pipeline.

Lemma wrapped_totals_none (path : PathfindingResult)
    (m : gmap string TokenInfo.TokenInfoRow) :
  (forall t info,
     t ∈ transfers path ->
     m !! lower (token_owner t) = Some info -> TokenInfo.is_wrapped info = false) ->
  TokenInfo.get_wrapped_token_totals_from_path path m = [].
Proof.
  unfold TokenInfo.get_wrapped_token_totals_from_path.
  induction (transfers path) as [|t ts IH]; intros Hm; cbn [foldl]; [done|].
  destruct (m !! lower (token_owner t)) as [info|] eqn:Hinfo.
  - rewrite (Hm t info) by (done || by left).
    apply IH. intros t' info' Ht'. apply Hm. by right.
  - apply IH. intros t' info' Ht'. apply Hm. by right.
Qed.

Lemma process_path_no_totals
    (path : PathfindingResult) (cache cache' : option TokenInfo.TokenInfoCache)
    (m : gmap string TokenInfo.TokenInfoRow) :
  Forall valid_step (transfers path) ->
  TokenInfo.get_token_info_map_from_path path cache = Ok (m, cache') ->
  TokenInfo.get_wrapped_token_totals_from_path path m = [] ->
  process_path_for_wrapped_tokens path cache = Ok (path, false, cache').
Proof.
  intros Hvalid Hm Htotals. unfold process_path_for_wrapped_tokens.
  rewrite Hm. cbn [mbind result_bind]. rewrite Htotals.
  change (TokenInfo.get_expected_unwrapped_token_totals [] m)
    with (@nil (string * (Z * string))).
  rewrite replace_wrapped_tokens_id by done. done.
Qed.

(** X7: when the token lookup succeeds and classifies no token owner of a
    path of valid steps as a wrapper, [process_path_for_wrapped_tokens]
    returns the path itself, the flag [false], and the cache as the lookup
    left it. *)
Theorem process_path_without_wrappers
    (path : PathfindingResult) (cache cache' : option TokenInfo.TokenInfoCache)
    (m : gmap string TokenInfo.TokenInfoRow) :
  Forall valid_step (transfers path) ->
  TokenInfo.get_token_info_map_from_path path cache = Ok (m, cache') ->
  (forall t info,
     t ∈ transfers path ->
     m !! lower (token_owner t) = Some info -> TokenInfo.is_wrapped info = false) ->
  process_path_for_wrapped_tokens path cache = Ok (path, false, cache').
Proof.
  intros Hvalid Hm Hnone.
  apply (process_path_no_totals path cache cache' m Hvalid Hm).
  by apply wrapped_totals_none.
Qed.

Lemma human_not_wrapped (info : TokenInfo.TokenInfoRow) :
  TokenInfo.type info = TokenInfo.CRC_V2_REGISTER_HUMAN ->
  TokenInfo.is_wrapped info = false.
Proof. unfold TokenInfo.is_wrapped. by intros ->. Qed.

Lemma batch_rows_human (l : list string) (rows : list TokenInfo.TokenInfoRow) :
  TokenInfo.get_token_info_batch l = Ok rows ->
  Forall (fun info => TokenInfo.type info = TokenInfo.CRC_V2_REGISTER_HUMAN) rows.
Proof.
  assert (Hg : forall l' : list string,
            Forall (fun info => TokenInfo.type info = TokenInfo.CRC_V2_REGISTER_HUMAN)
              ((fun addr =>
                  TokenInfo.new_TokenInfoRow 0
                    ("0x" +:+ "0000000000000000000000000000000000000000000000000000000000000000")
                    2 (TokenInfo._infer_token_type addr) addr addr) <$> l'))
    by (intros l'; apply Forall_fmap, Forall_forall; done).
  unfold TokenInfo.get_token_info_batch. destruct l as [|a l].
  - intros [= <-]. constructor.
  - intros [= <-]. apply (Hg (a :: l)).
Qed.

Lemma batch_total (l : list string) :
  exists rows, TokenInfo.get_token_info_batch l = Ok rows.
Proof. unfold TokenInfo.get_token_info_batch. destruct l; by eexists. Qed.

Lemma insert_rows_human (Q : string -> TokenInfo.TokenInfoRow -> Prop)
    (rows : list TokenInfo.TokenInfoRow) :
  Forall (fun info => TokenInfo.type info = TokenInfo.CRC_V2_REGISTER_HUMAN) rows ->
  forall m : gmap string TokenInfo.TokenInfoRow,
    (forall k info, m !! k = Some info ->
       TokenInfo.type info = TokenInfo.CRC_V2_REGISTER_HUMAN \/ Q k info) ->
    forall k info,
      foldl (fun token_info_map info => <[TokenInfo.token info := info]> token_info_map)
            m rows !! k = Some info ->
      TokenInfo.type info = TokenInfo.CRC_V2_REGISTER_HUMAN \/ Q k info.
Proof.
  induction 1 as [|row rows Hrow _ IH]; intros m Hm k info; cbn [foldl].
  - apply Hm.
  - apply IH. intros k' info'. rewrite lookup_insert.
    destruct (decide _); [intros [= <-]; by left | apply Hm].
Qed.

Lemma cache_hits_fold (c : TokenInfo.TokenInfoCache) (l : list string) :
  forall (tim : gmap string TokenInfo.TokenInfoRow) (tf : list string) tim' tf',
    foldl (fun '(token_info_map, addresses_to_fetch) addr =>
             match TokenInfo.cache_get c addr with
             | Some cached_info =>
                 (<[addr := cached_info]> token_info_map, addresses_to_fetch)
             | None => (token_info_map, addresses_to_fetch ++ [addr])
             end)
          (tim, tf) l = (tim', tf') ->
    (forall k info, tim !! k = Some info -> TokenInfo.cache_get c k = Some info) ->
    forall k info, tim' !! k = Some info -> TokenInfo.cache_get c k = Some info.
Proof.
  induction l as [|a l IH]; intros tim tf tim' tf'; cbn [foldl].
  - by intros [= <- <-].
  - destruct (TokenInfo.cache_get c a) as [cached|] eqn:Ha.
    + intros Hfold Hinv. eapply IH; [exact Hfold|].
      intros k info. rewrite lookup_insert.
      destruct (decide (a = k)) as [<-|]; [by intros [= <-] | apply Hinv].
    + intros Hfold Hinv. eapply IH; [exact Hfold | exact Hinv].
Qed.

Lemma coroutine_Ok {A} (body : result A) (a : A) :
  coroutine body = Ok a <-> body = Ok a.
Proof. destruct body as [a'|[]]; cbn; split; congruence. Qed.

Lemma token_map_entries (path : PathfindingResult)
    (cache cache' : option TokenInfo.TokenInfoCache)
    (m : gmap string TokenInfo.TokenInfoRow) :
  TokenInfo.get_token_info_map_from_path path cache = Ok (m, cache') ->
  forall k info,
    m !! k = Some info ->
    TokenInfo.type info = TokenInfo.CRC_V2_REGISTER_HUMAN
    \/ exists c, cache = Some c /\ TokenInfo.cache_get c k = Some info.
Proof.
  unfold TokenInfo.get_token_info_map_from_path. rewrite coroutine_Ok.
  set (unique := foldl _ ∅ (transfers path)).
  destruct cache as [c|].
  - destruct (foldl _ (∅, []) (elements unique)) as [tim tf] eqn:Hfold.
    pose proof (cache_hits_fold c _ _ _ _ _ Hfold) as Hhits.
    assert (Htim : forall k info, tim !! k = Some info ->
              TokenInfo.type info = TokenInfo.CRC_V2_REGISTER_HUMAN
              \/ exists c0, Some c = Some c0 /\ TokenInfo.cache_get c0 k = Some info).
    { intros k info Hk. right. exists c. split; [done|].
      apply Hhits; [|done]. intros k' info'. by rewrite lookup_empty. }
    destruct tf as [|a tf]; [by intros [= <- <-]|].
    destruct (TokenInfo.get_token_info_batch (a :: tf)) as [rows|] eqn:Hrows;
      cbn [mbind result_bind]; [|done].
    destruct (TokenInfo.cache_set_batch c rows); cbn [mbind result_bind]; [|done].
    intros [= <- <-].
    apply (insert_rows_human
             (fun k info => exists c0, Some c = Some c0
                                       /\ TokenInfo.cache_get c0 k = Some info));
      [by eapply batch_rows_human | exact Htim].
  - destruct (elements unique) as [|a l] eqn:Hel.
    + intros [= <- <-] k info. by rewrite lookup_empty.
    + destruct (TokenInfo.get_token_info_batch (a :: l)) as [rows|] eqn:Hrows;
        cbn [mbind result_bind]; [|done].
      intros [= <- <-].
      apply (insert_rows_human
               (fun k info => exists c0, None = Some c0
                                         /\ TokenInfo.cache_get c0 k = Some info));
        [by eapply batch_rows_human|].
      intros k info. by rewrite lookup_empty.
Qed.

Lemma token_map_no_cache (path : PathfindingResult) :
  exists m, TokenInfo.get_token_info_map_from_path path None = Ok (m, None).
Proof.
  unfold TokenInfo.get_token_info_map_from_path.
  set (unique := foldl _ ∅ (transfers path)).
  destruct (elements unique) as [|a l]; [by eexists|].
  destruct (batch_total (a :: l)) as [rows Hrows]. rewrite Hrows.
  cbn [mbind result_bind mret result_ret coroutine]. by eexists.
Qed.

(** X8: the repository's token lookup classifies every address it fetches
    as a registered human, so wrappers are known only from the cache: when
    the cache holds no wrapper row for a token owner of a path of valid
    steps, [process_path_for_wrapped_tokens] returns the path unchanged
    with the flag [false] whenever the lookup succeeds and fails as the
    lookup fails; without a cache it always returns the path unchanged. *)
Theorem process_path_placeholder_metadata
    (path : PathfindingResult) (cache : option TokenInfo.TokenInfoCache) :
  Forall valid_step (transfers path) ->
  (forall c t info,
     cache = Some c -> t ∈ transfers path ->
     TokenInfo.cache_get c (lower (token_owner t)) = Some info ->
     TokenInfo.is_wrapped info = false) ->
  process_path_for_wrapped_tokens path cache
  = match TokenInfo.get_token_info_map_from_path path cache with
    | Ok (_, cache') => Ok (path, false, cache')
    | Err e => Err e
    end
  /\ (cache = None ->
      process_path_for_wrapped_tokens path cache = Ok (path, false, None)).
Proof.
  intros Hvalid Hcache.
  assert (Hmain : process_path_for_wrapped_tokens path cache
                  = match TokenInfo.get_token_info_map_from_path path cache with
                    | Ok (_, cache') => Ok (path, false, cache')
                    | Err e => Err e
                    end).
  { destruct (TokenInfo.get_token_info_map_from_path path cache)
      as [[m cache']|e] eqn:Hm.
    - apply (process_path_no_totals path cache cache' m Hvalid Hm).
      apply wrapped_totals_none. intros t info Ht Hinfo.
      destruct (token_map_entries path cache cache' m Hm _ _ Hinfo)
        as [Hh|(c & -> & Hc)].
      + by apply human_not_wrapped.
      + by apply (Hcache c t info).
    - unfold process_path_for_wrapped_tokens. by rewrite Hm. }
  split; [exact Hmain|]. intros ->. rewrite Hmain.
  destruct (token_map_no_cache path) as [m ->]. done.
Qed.

End Pipeline.

End RewritingImports.

Lemma replace_wrapped_tokens_spec_witness :
  Forall valid_step Examples.two_hop
  /\ PathProcessor.replace_wrapped_tokens
       {| max_flow := 1000; transfers := Examples.two_hop |}
       [(Examples.addr_B, (1000, Examples.addr_D))]
     = Ok {| max_flow := 1000;
             transfers :=
               [ Examples.step Examples.addr_A Examples.addr_B Examples.addr_A 1000;
                 Examples.step Examples.addr_B Examples.addr_C Examples.addr_D 1000 ] |}.
Proof.
  split; [exact two_hop_valid|].
  destruct (PathProcessor.replace_wrapped_tokens
              {| max_flow := 1000; transfers := Examples.two_hop |}
              [(Examples.addr_B, (1000, Examples.addr_D))]) as [path'|e] eqn:Hr.
  - destruct (replace_wrapped_tokens_spec
                {| max_flow := 1000; transfers := Examples.two_hop |}
                [(Examples.addr_B, (1000, Examples.addr_D))] two_hop_valid)
      as (H & _ & _).
    rewrite (H path' Hr). vm_compute. reflexivity.
  - vm_compute in Hr. discriminate.
Defined.

Lemma process_path_without_wrappers_witness :
  PathProcessor.process_path_for_wrapped_tokens
    {| max_flow := 1000; transfers := Examples.two_hop |} None
  = Ok ({| max_flow := 1000; transfers := Examples.two_hop |}, false, None).
Proof.
  destruct (token_map_no_cache {| max_flow := 1000; transfers := Examples.two_hop |})
    as [m Hm].
  apply (process_path_without_wrappers
           {| max_flow := 1000; transfers := Examples.two_hop |} None None m
           two_hop_valid Hm).
  intros t info Ht Hinfo.
  destruct (token_map_entries _ _ _ _ Hm _ _ Hinfo) as [Hh|(c & Hc & _)];
    [by apply human_not_wrapped | discriminate].
Defined.

Lemma process_path_placeholder_metadata_witness :
  PathProcessor.process_path_for_wrapped_tokens
    {| max_flow := 1000; transfers := Examples.two_hop |} None
  = Ok ({| max_flow := 1000; transfers := Examples.two_hop |}, false, None).
Proof.
  destruct (process_path_placeholder_metadata
              {| max_flow := 1000; transfers := Examples.two_hop |} None
              two_hop_valid) as [_ H]; [discriminate|].
  exact (H eq_refl).
Defined.

(** ** The token cache *)

Section Cache.

Import TokenInfo.

Lemma length_odict_set {V} (d : odict V) (k : string) (v : V) :
  (length d <= length (odict_set d k v) <= length d + 1)%nat.
Proof.
  induction d as [|[k0 v0] d IH]; cbn [odict_set length]; [lia|].
  destruct (decide (k0 = k)); cbn [length]; lia.
Qed.

Lemma cache_set_Ok (c c' : TokenInfoCache) (a : string) (info : TokenInfoRow) :
  cache_set c a info = Ok c' ->
  exists entries,
    c' = {| _cache := odict_set entries (lower a) info; _max_size := _max_size c |}
    /\ ((Z.of_nat (length (_cache c)) < _max_size c /\ entries = _cache c)
        \/ (_max_size c <= Z.of_nat (length (_cache c))
            /\ exists oldest, _cache c = oldest :: entries)).
Proof.
  unfold cache_set. rewrite Z.geb_leb.
  destruct (Z.leb_spec (_max_size c) (Z.of_nat (length (_cache c)))) as [Hfull|Hfree].
  - destruct (_cache c) as [|oldest rest] eqn:Hc; cbn [mbind result_bind]; [done|].
    intros [= <-]. exists rest. split; [done|]. right. split; [done|]. by exists oldest.
  - cbn [mbind result_bind]. intros [= <-]. exists (_cache c). split; [done|].
    left. done.
Qed.

(** X9: [TokenInfoCache.set] on a cache with distinct keys, when it
    returns: the new row is found under the address in any letter case, the
    capacity is unchanged, keys stay distinct and a cache within its
    capacity stays within it; below capacity every other key keeps its
    row; at capacity exactly the oldest entry is evicted, even when the
    address set is already cached. *)
Theorem cache_set_spec (c c' : TokenInfoCache) (a : string) (info : TokenInfoRow) :
  NoDup (_cache c).*1 ->
  cache_set c a info = Ok c' ->
  cache_get c' a = Some info
  /\ _max_size c' = _max_size c
  /\ NoDup (_cache c').*1
  /\ (Z.of_nat (length (_cache c)) <= _max_size c ->
      Z.of_nat (length (_cache c')) <= _max_size c)
  /\ (Z.of_nat (length (_cache c)) < _max_size c ->
      forall k, lower k <> lower a -> cache_get c' k = cache_get c k)
  /\ (_max_size c <= Z.of_nat (length (_cache c)) ->
      exists oldest rest,
        _cache c = oldest :: rest
        /\ (lower a <> oldest.1 -> odict_get (_cache c') oldest.1 = None)
        /\ forall k, lower k <> lower a -> lower k <> oldest.1 ->
                     cache_get c' k = cache_get c k).
Proof.
  intros Hnd (entries & -> & Hcase)%cache_set_Ok.
  unfold cache_get. cbn [_cache _max_size].
  split; [by rewrite odict_get_set, decide_True|]. split; [done|].
  assert (Hnd' : NoDup entries.*1).
  { destruct Hcase as [[_ ->]|[_ [oldest Hc]]]; [done|].
    rewrite Hc in Hnd. cbn in Hnd. by apply NoDup_cons in Hnd as [_ ?]. }
  split; [by apply odict_set_NoDup|].
  pose proof (length_odict_set entries (lower a) info) as Hlen.
  split; [|split].
  - intros Hcap. destruct Hcase as [[Hfree ->]|[Hfull [oldest Hc]]]; [lia|].
    rewrite Hc in Hcap, Hfull. cbn [length] in Hcap, Hfull. lia.
  - intros Hfree k Hk. destruct Hcase as [[_ ->]|[Hfull _]]; [|lia].
    by rewrite odict_get_set, decide_False.
  - intros Hfull. destruct Hcase as [[Hfree _]|[_ [oldest Hc]]]; [lia|].
    exists oldest, entries. split; [done|]. split.
    + intros Hne. rewrite odict_get_set, decide_False by done.
      apply odict_get_None. rewrite Hc in Hnd. cbn in Hnd.
      by apply NoDup_cons in Hnd as [? _].
    + intros k Hk Hko. rewrite odict_get_set, decide_False by done.
      rewrite Hc. destruct oldest as [ko vo]. cbn [odict_get].
      by rewrite decide_False.
Qed.

Lemma unique_addresses_elem (ts : list TransferStep) :
  forall (s0 : gset string) (a : string),
    a ∈ s0 \/ (exists t, t ∈ ts /\ a = lower (Types.token_owner t)) ->
    a ∈ foldl (fun unique transfer => unique ∪ {[ lower (Types.token_owner transfer) ]})
              s0 ts.
Proof.
  induction ts as [|t ts IH]; intros s0 a Ha; cbn [foldl].
  - destruct Ha as [?|(t & ?%elem_of_nil & _)]; done.
  - apply IH. destruct Ha as [Ha|(t' & [->|Ht']%elem_of_cons & ->)].
    + left. by apply elem_of_union_l.
    + left. by apply elem_of_union_r, elem_of_singleton.
    + right. by exists t'.
Qed.

Lemma cache_misses_fold (c : TokenInfoCache) (l : list string) :
  _cache c = [] ->
  forall (tim : gmap string TokenInfoRow) (tf : list string),
    foldl (fun '(token_info_map, addresses_to_fetch) addr =>
             match cache_get c addr with
             | Some cached_info =>
                 (<[addr := cached_info]> token_info_map, addresses_to_fetch)
             | None => (token_info_map, addresses_to_fetch ++ [addr])
             end)
          (tim, tf) l = (tim, tf ++ l).
Proof.
  intros Hc.
  assert (Hmiss : forall a, cache_get c a = None).
  { intros a. unfold cache_get. by rewrite Hc. }
  induction l as [|a l IH]; intros tim tf; cbn [foldl].
  - by rewrite app_nil_r.
  - rewrite (Hmiss a), IH, <- app_assoc. done.
Qed.

Lemma cache_set_batch_Err (rows : list TokenInfoRow) (e : exn) :
  foldl (fun self info => self ← self; cache_set self (token info) info)
        (Err e) rows = Err e.
Proof. induction rows as [|r rows IH]; [done|]. cbn [foldl]. exact IH. Qed.

(** X10: [TokenInfoCache.set] can only fail with [StopIteration], and it
    does so exactly on an empty cache whose capacity is zero or negative;
    in particular a non-empty cache never fails. *)
Theorem cache_set_fails (c : TokenInfoCache) (a : string) (info : TokenInfoRow) :
  (forall e, cache_set c a info = Err e -> e = StopIteration)
  /\ (cache_set c a info = Err StopIteration
      <-> _cache c = [] /\ _max_size c <= 0).
Proof.
  unfold cache_set. rewrite Z.geb_leb.
  destruct (Z.leb_spec (_max_size c) (Z.of_nat (length (_cache c))))
    as [Hfull|Hfree].
  - destruct (_cache c) as [|oldest rest] eqn:Hc; cbn [mbind result_bind].
    + split; [by intros e [= <-]|]. split; [|done].
      intros _. cbn in Hfull. split; [done|lia].
    + split; [done|]. split; [done|]. by intros [? _].
  - cbn [mbind result_bind]. split; [done|]. split; [done|].
    intros [Hc Hm]. rewrite Hc in Hfree. cbn in Hfree. lia.
Qed.

(** X11: with an empty cache of capacity zero or less, the token lookup of
    a path that has a transfer raises [RuntimeError] (the [StopIteration]
    of [TokenInfoCache.set] leaving the coroutine), and so does everything
    [transitive_transfer] does after the pathfinder's answer. *)
Theorem zero_capacity_cache_breaks_lookup
    (int16 : string -> option Z) (self : Advanced.AdvancedTransfer)
    (from_addr to_addr : string) (tx_data : option (list Z))
    (path : PathfindingResult) :
  _cache (Advanced.cache self) = [] ->
  _max_size (Advanced.cache self) <= 0 ->
  transfers path <> [] ->
  get_token_info_map_from_path path (Some (Advanced.cache self))
  = Err (RuntimeError CoroutineRaisedStopIteration)
  /\ Advanced.after_find_path int16 self from_addr to_addr tx_data path
     = Err (RuntimeError CoroutineRaisedStopIteration).
Proof.
  set (c := Advanced.cache self). intros Hc Hm Hne.
  assert (Hlookup : get_token_info_map_from_path path (Some c)
                    = Err (RuntimeError CoroutineRaisedStopIteration)).
  { unfold get_token_info_map_from_path.
    set (unique := foldl _ ∅ (transfers path)).
    destruct (foldl _ (∅, []) (elements unique)) as [tim tf] eqn:Hfold.
    rewrite (cache_misses_fold c (elements unique) Hc) in Hfold.
    injection Hfold as <- <-. cbn [app].
    destruct (elements unique) as [|x l] eqn:Hel.
    - exfalso. destruct (transfers path) as [|t ts] eqn:Hts; [done|].
      assert (Hin : lower (Types.token_owner t) ∈ unique).
      { apply unique_addresses_elem. right. exists t. split; [by left | done]. }
      apply elem_of_elements in Hin. rewrite Hel in Hin.
      by apply elem_of_nil in Hin.
    - destruct (batch_total (x :: l)) as [rows Hrows].
      pose proof Hrows as Hrows'. unfold get_token_info_batch in Hrows'.
      rewrite fmap_cons in Hrows'. rewrite Hrows. cbn [mbind result_bind].
      destruct rows as [|r rows]; [discriminate Hrows'|].
      unfold cache_set_batch. cbn [foldl mbind result_bind].
      assert (Hfail : forall a' info', cache_set c a' info' = Err StopIteration).
      { intros a' info'. unfold cache_set. rewrite Z.geb_leb, Hc. cbn [length].
        by rewrite (proj2 (Z.leb_le _ _)) by (cbn; lia). }
      rewrite Hfail, cache_set_batch_Err. done. }
  split; [exact Hlookup|].
  unfold Advanced.after_find_path. fold c. rewrite Hlookup. done.
Qed.

End Cache.

(** C8: the two-hop path has no wrapped token.  Without a cache, and with
    an empty cache of the default capacity, [process_path_for_wrapped_tokens]
    returns it unchanged with the flag [false]; with an empty cache of
    capacity 0 the same call raises [RuntimeError], the [StopIteration] of
    [TokenInfoCache.set] leaving the coroutine of the token lookup. *)
Theorem process_path_zero_capacity_cache :
  let path := {| max_flow := 1000; transfers := Examples.two_hop |} in
  let empty_cache capacity :=
    {| TokenInfo._cache := []; TokenInfo._max_size := capacity |} in
  Forall valid_step (transfers path)
  /\ PathProcessor.process_path_for_wrapped_tokens path None = Ok (path, false, None)
  /\ (exists cache',
        PathProcessor.process_path_for_wrapped_tokens path (Some (empty_cache 1000))
        = Ok (path, false, Some cache'))
  /\ PathProcessor.process_path_for_wrapped_tokens path (Some (empty_cache 0))
     = Err (RuntimeError CoroutineRaisedStopIteration).
Proof.
  intros path empty_cache.
  split; [exact two_hop_valid|].
  split; [vm_compute; reflexivity|].
  split; [eexists; vm_compute; reflexivity|].
  vm_compute. reflexivity.
Qed.

Lemma cache_set_spec_witness :
  let row := TokenInfo.new_TokenInfoRow 0 "0x" 2 TokenInfo.CRC_V2_REGISTER_HUMAN in
  let c := {| TokenInfo._cache := [(Examples.addr_A, row Examples.addr_A Examples.addr_A)];
              TokenInfo._max_size := 1 |} in
  let c' := {| TokenInfo._cache := [(Examples.addr_B, row Examples.addr_B Examples.addr_B)];
               TokenInfo._max_size := 1 |} in
  NoDup (TokenInfo._cache c).*1
  /\ TokenInfo.cache_set c Examples.addr_B (row Examples.addr_B Examples.addr_B) = Ok c'
  /\ TokenInfo.cache_get c' Examples.addr_B = Some (row Examples.addr_B Examples.addr_B)
  /\ TokenInfo.cache_get c' Examples.addr_A = None.
Proof.
  intros row c c'.
  assert (Hnd : NoDup (TokenInfo._cache c).*1).
  { cbn. apply NoDup_singleton. }
  assert (Hset : TokenInfo.cache_set c Examples.addr_B
                   (row Examples.addr_B Examples.addr_B) = Ok c').
  { vm_compute. reflexivity. }
  destruct (cache_set_spec c c' Examples.addr_B _ Hnd Hset)
    as (Hget & _ & _ & _ & _ & Hevict).
  split; [exact Hnd|]. split; [exact Hset|]. split; [exact Hget|].
  vm_compute. reflexivity.
Defined.

Lemma zero_capacity_cache_breaks_lookup_witness :
  TokenInfo.get_token_info_map_from_path
    {| max_flow := 1000; transfers := Examples.two_hop |}
    (Some {| TokenInfo._cache := []; TokenInfo._max_size := 0 |})
  = Err (RuntimeError CoroutineRaisedStopIteration).
Proof.
  refine (proj1 (zero_capacity_cache_breaks_lookup
                   Examples.int16
                   {| Advanced.v2_hub_address := Examples.addr_D;
                      Advanced.cache := {| TokenInfo._cache := [];
                                           TokenInfo._max_size := 0 |};
                      Advanced._pathfinder_client := true |}
                   Examples.addr_A Examples.addr_C None
                   {| max_flow := 1000; transfers := Examples.two_hop |}
                   eq_refl _ _)).
  - cbn. lia.
  - discriminate.
Defined.

(** ** Vertices, coordinates and terminal edges of the flow matrix *)

Section Sorting.

Context {A : Type} (key : A -> Z).

Lemma insert_by_sorted (x : A) (l : list A) :
  StronglySorted (fun a b => key a <= key b) l ->
  StronglySorted (fun a b => key a <= key b) (insert_by key x l).
Proof.
  induction 1 as [|y l Hl IH Hy]; cbn [insert_by].
  - repeat constructor.
  - destruct (Z.ltb_spec (key x) (key y)) as [Hlt|Hge].
    + constructor; [by constructor|].
      constructor; [lia|]. eapply Forall_impl; [exact Hy|].
      intros z Hz. cbn in Hz. lia.
    + constructor; [exact IH|].
      rewrite insert_by_Permutation. constructor; [done|exact Hy].
Qed.

Lemma sorted_by_sorted (l : list A) :
  StronglySorted (fun a b => key a <= key b) (sorted_by key l).
Proof.
  unfold sorted_by.
  assert (H : forall acc,
             StronglySorted (fun a b => key a <= key b) acc ->
             StronglySorted (fun a b => key a <= key b)
               (foldl (fun acc x => insert_by key x acc) acc l)).
  { induction l as [|x l IH]; intros acc Hacc; cbn [foldl]; [done|].
    apply IH. by apply insert_by_sorted. }
  apply H. constructor.
Qed.

End Sorting.

Lemma StronglySorted_strengthen {A} (R : A -> A -> Prop) (P : A -> Prop) (l : list A) :
  StronglySorted R l -> Forall P l ->
  StronglySorted (fun a b => P a /\ P b /\ R a b) l.
Proof.
  induction 1 as [|x l Hl IH Hx]; intros HP; [constructor|].
  apply Forall_cons in HP as [Px HP]. constructor; [by apply IH|].
  apply Forall_forall. intros y Hy. split; [done|].
  split; [by eapply Forall_forall in HP | by eapply Forall_forall in Hx].
Qed.

Lemma StronglySorted_impl {A} (R1 R2 : A -> A -> Prop) (l : list A) :
  (forall a b, R1 a b -> R2 a b) -> StronglySorted R1 l -> StronglySorted R2 l.
Proof.
  intros HR. induction 1 as [|x l Hl IH Hx]; constructor; [done|].
  eapply Forall_impl; [exact Hx|]. intros y. apply HR.
Qed.

Lemma StronglySorted_NoDup_ne {A} (R : A -> A -> Prop) (l : list A) :
  StronglySorted R l -> NoDup l ->
  StronglySorted (fun a b => R a b /\ a <> b /\ a ∈ l /\ b ∈ l) l.
Proof.
  intros HS Hnd.
  assert (H : forall l', l' ⊆ l -> StronglySorted R l' -> NoDup l' ->
               StronglySorted (fun a b => R a b /\ a <> b /\ a ∈ l /\ b ∈ l) l').
  { clear. induction l' as [|x l' IH]; intros Hsub HS Hnd; [constructor|].
    apply StronglySorted_inv in HS as [HS Hx].
    apply NoDup_cons in Hnd as [Hnx Hnd].
    constructor.
    - apply IH; [|done..]. intros y Hy. apply Hsub. by right.
    - apply Forall_forall. intros y Hy. split; [by eapply Forall_forall in Hx|].
      split; [intros ->; done|]. split; apply Hsub; [by left | by right]. }
  by apply H.
Qed.

Section Vertices.

Variable int16 : string -> option Z.

Lemma mapM_key_keys (l : list string) (keyed : list (Z * string)) :
  mapM (fun addr =>
          match int16 addr with
          | Some k => Ok (k, addr)
          | None => Err (ValueError (InvalidLiteral addr))
          end) l = Ok keyed ->
  Forall (fun p => int16 p.2 = Some p.1) keyed.
Proof.
  revert keyed. induction l as [|a l IH]; intros keyed; cbn.
  - intros [= <-]. constructor.
  - destruct (int16 a) as [k|] eqn:Hk; cbn; [|done].
    destruct (mapM _ l) as [keyed'|]; cbn; [|done].
    intros [= <-]. constructor; [done|]. by apply IH.
Qed.

Lemma sorted_by_int16_sorted (l vs : list string) :
  sorted_by_int16 int16 l = Ok vs -> StronglySorted (Flows.key_le int16) vs.
Proof.
  unfold sorted_by_int16. intros (keyed & Hk & [= <-])%bind_Ok.
  apply mapM_key_keys in Hk.
  assert (Hk' : Forall (fun p => int16 p.2 = Some p.1) (sorted_by fst keyed)).
  { by rewrite sorted_by_Permutation. }
  pose proof (StronglySorted_strengthen _ _ _ (sorted_by_sorted fst keyed) Hk') as HS.
  eapply (StronglySorted_fmap snd _ (Flows.key_le int16)); [|exact HS].
  intros [ka a] [kb b] (Ha & Hb & Hle). cbn in *. by exists ka, kb.
Qed.

Lemma transform_to_flow_vertices_sorted transfers from_addr to_addr vs idx :
  transform_to_flow_vertices int16 transfers from_addr to_addr = Ok (vs, idx) ->
  StronglySorted (Flows.key_le int16) vs /\ NoDup vs.
Proof.
  intros Htr. pose proof (transform_to_flow_vertices_Ok _ _ _ _ _ _ Htr) as [Hperm _].
  split.
  - revert Htr. unfold transform_to_flow_vertices.
    intros (vs' & Hvs & [= <- _])%bind_Ok. by eapply sorted_by_int16_sorted.
  - rewrite Hperm. apply NoDup_elements.
Qed.

End Vertices.

Section Index.

Lemma idx_fold_spec (l : list string) :
  NoDup l ->
  forall (start : nat) (m : gmap string Z) (a : string) (c : Z),
    foldl (fun idx '(i, addr) => <[addr := Z.of_nat i]> idx)
          m (zip (seq start (length l)) l) !! a = Some c
    <-> ((a ∉ l) /\ m !! a = Some c)
        \/ (exists i, c = Z.of_nat (start + i) /\ l !! i = Some a).
Proof.
  induction 1 as [|b l Hb Hnd IH]; intros start m a c;
    cbn [length seq zip_with foldl].
  - split.
    + intros Hm. left. split; [apply not_elem_of_nil | done].
    + intros [[_ Hm]|(i & _ & Hi)]; [done|]. by rewrite lookup_nil in Hi.
  - rewrite IH. split.
    + intros [[Ha Hm]|(i & -> & Hi)].
      * destruct (decide (b = a)) as [->|Hne].
        -- rewrite lookup_insert_eq in Hm. injection Hm as <-.
           right. exists 0%nat. split; [f_equal; lia | done].
        -- rewrite lookup_insert_ne in Hm by done. left. split; [|done].
           by intros [->|?]%elem_of_cons.
      * right. exists (S i). split; [f_equal; lia | done].
    + intros [[Ha Hm]|(i & -> & Hi)].
      * left. apply not_elem_of_cons in Ha as [Hne Ha]. split; [done|].
        by rewrite lookup_insert_ne.
      * destruct i as [|i]; cbn in Hi.
        -- injection Hi as ->. left. split; [done|].
           rewrite lookup_insert_eq. f_equal. f_equal. lia.
        -- right. exists i. split; [f_equal; lia | done].
Qed.

Lemma idx_enumerate_spec (l : list string) (a : string) (c : Z) :
  NoDup l ->
  foldl (fun idx '(i, addr) => <[addr := Z.of_nat i]> idx)
        (∅ : gmap string Z) (enumerate l) !! a = Some c
  <-> 0 <= c /\ l !! Z.to_nat c = Some a.
Proof.
  intros Hnd. unfold enumerate. rewrite (idx_fold_spec l Hnd 0 ∅ a c). split.
  - intros [[_ Hm]|(i & -> & Hi)]; [by rewrite lookup_empty in Hm|].
    split; [lia|]. by rewrite Nat.add_0_l, Nat2Z.id.
  - intros [Hc Hl]. right. exists (Z.to_nat c). split; [lia | done].
Qed.

End Index.

Section VertexList.

Variable int16 : string -> option Z.

Lemma transform_to_flow_vertices_idx transfers from_addr to_addr vs idx :
  transform_to_flow_vertices int16 transfers from_addr to_addr = Ok (vs, idx) ->
  forall a c, idx !! a = Some c <-> 0 <= c /\ vs !! Z.to_nat c = Some a.
Proof.
  intros Htr a c.
  destruct (transform_to_flow_vertices_sorted _ _ _ _ _ _ Htr) as [_ Hnd].
  revert Htr. unfold transform_to_flow_vertices.
  intros (vs' & Hvs & [= <- <-])%bind_Ok. by apply idx_enumerate_spec.
Qed.

Lemma sorted_by_int16_keys (l vs : list string) :
  sorted_by_int16 int16 l = Ok vs -> Forall (fun a => is_Some (int16 a)) l.
Proof.
  unfold sorted_by_int16. intros (keyed & Hk & _)%bind_Ok.
  pose proof (mapM_key_keys _ _ _ Hk) as Hkeys.
  apply mapM_key_Ok in Hk. rewrite <- Hk.
  apply Forall_fmap. eapply Forall_impl; [exact Hkeys|].
  intros [k a] Hka. cbn in *. by exists k.
Qed.

Lemma transform_to_flow_vertices_keys transfers from_addr to_addr vs idx :
  transform_to_flow_vertices int16 transfers from_addr to_addr = Ok (vs, idx) ->
  forall a, a ∈ address_set from_addr to_addr transfers -> is_Some (int16 a).
Proof.
  unfold transform_to_flow_vertices. rewrite address_set_fold.
  fold (address_set from_addr to_addr transfers).
  intros (vs' & Hvs & _)%bind_Ok a Ha.
  apply sorted_by_int16_keys in Hvs.
  eapply Forall_forall in Hvs; [exact Hvs|]. by apply elem_of_elements.
Qed.

Lemma sorted_by_int16_Err (l : list string) (e : exn) :
  sorted_by_int16 int16 l = Err e ->
  exists a, a ∈ l /\ int16 a = None /\ e = ValueError (InvalidLiteral a).
Proof.
  unfold sorted_by_int16.
  destruct (mapM _ l) as [keyed|e0] eqn:Hk; cbn [mbind result_bind]; [done|].
  intros [= <-]. revert e0 Hk. induction l as [|a l IH]; intros e0; cbn; [done|].
  destruct (int16 a) as [k|] eqn:Ha; cbn.
  - destruct (mapM _ l) as [keyed|e1]; cbn; [done|].
    intros [= <-]. destruct (IH e1 eq_refl) as (b & Hb & Hnone & ->).
    exists b. split; [by right | done].
  - intros [= <-]. exists a. split; [by left | done].
Qed.

Lemma transform_to_flow_vertices_Err transfers from_addr to_addr e :
  transform_to_flow_vertices int16 transfers from_addr to_addr = Err e ->
  exists a, a ∈ address_set from_addr to_addr transfers
            /\ int16 a = None /\ e = ValueError (InvalidLiteral a).
Proof.
  unfold transform_to_flow_vertices. rewrite address_set_fold.
  fold (address_set from_addr to_addr transfers).
  destruct (sorted_by_int16 _ _) as [vs|e0] eqn:Hvs; cbn [mbind result_bind]; [done|].
  intros [= <-]. apply sorted_by_int16_Err in Hvs as (a & Ha & Hnone & ->).
  exists a. split; [by apply elem_of_elements | done].
Qed.

(** X12: [transform_to_flow_vertices] succeeds exactly when every address
    of the vertex set has a base-16 value, and otherwise raises the
    [ValueError] of an address that has none.  The vertex list it returns
    holds each address of the set once, in ascending order of value, and
    the index map sends an address to its position in the list and nothing
    else.  When different addresses have different values the order is
    strict and the list is the only ascending arrangement of the set, so it
    does not depend on the order in which the set is iterated. *)
Theorem transform_to_flow_vertices_spec
    (transfers : list TransferStep) (from_addr to_addr : string) :
  (is_ok (transform_to_flow_vertices int16 transfers from_addr to_addr) = true
   <-> forall a, a ∈ address_set from_addr to_addr transfers -> is_Some (int16 a))
  /\ (forall vs idx,
        transform_to_flow_vertices int16 transfers from_addr to_addr = Ok (vs, idx) ->
        (forall a, a ∈ vs <-> a ∈ address_set from_addr to_addr transfers)
        /\ NoDup vs
        /\ StronglySorted (Flows.key_le int16) vs
        /\ (forall a c, idx !! a = Some c <-> 0 <= c /\ vs !! Z.to_nat c = Some a)
        /\ ((forall a b, a ∈ vs -> b ∈ vs -> int16 a = int16 b -> a = b) ->
            StronglySorted (Flows.key_lt int16) vs
            /\ forall l, l ≡ₚ vs -> StronglySorted (Flows.key_le int16) l -> l = vs))
  /\ (forall e,
        transform_to_flow_vertices int16 transfers from_addr to_addr = Err e ->
        exists a, a ∈ address_set from_addr to_addr transfers
                  /\ int16 a = None /\ e = ValueError (InvalidLiteral a)).
Proof.
  split; [|split].
  - split.
    + destruct (transform_to_flow_vertices _ _ _ _) as [[vs idx]|] eqn:Htr; [|done].
      intros _. by eapply transform_to_flow_vertices_keys.
    + intros [vs [idx ->]]%transform_to_flow_vertices_total. done.
  - intros vs idx Htr.
    destruct (transform_to_flow_vertices_sorted _ _ _ _ _ _ Htr) as [HS Hnd].
    destruct (transform_to_flow_vertices_Ok _ _ _ _ _ _ Htr) as [Hperm _].
    split; [intros a; by rewrite Hperm, elem_of_elements|].
    split; [done|]. split; [done|].
    split; [by eapply transform_to_flow_vertices_idx|].
    intros Hinj. split.
    + pose proof (StronglySorted_NoDup_ne _ _ HS Hnd) as HS'.
      eapply StronglySorted_impl; [|exact HS'].
      intros a b ((ka & kb & Ha & Hb & Hle) & Hne & Hina & Hinb).
      exists ka, kb. split; [done|]. split; [done|].
      destruct (decide (ka = kb)) as [->|]; [|lia].
      exfalso. apply Hne, Hinj; [done..|]. by rewrite Ha, Hb.
    + intros l Hl HSl.
      apply (StronglySorted_unique_strong (Flows.key_le int16)); [|done..].
      intros a b Ha Hb (ka & kb & Hka & Hkb & Hle) (kb' & ka' & Hkb' & Hka' & Hle').
      apply Hinj; [by rewrite <- Hl | done |].
      rewrite Hka, Hkb in *. injection Hkb' as <-. injection Hka' as <-.
      f_equal. lia.
  - apply transform_to_flow_vertices_Err.
Qed.

End VertexList.

Section Coordinates.

Variable int16 : string -> option Z.

Lemma coords_fold_Err (idx : gmap string Z) (transfers : list TransferStep) (e : exn) :
  foldl (fun coords transfer =>
           coords ← coords;
           c1 ← getitem idx (lower (token_owner transfer));
           c2 ← getitem idx (lower (from_address transfer));
           c3 ← getitem idx (lower (to_address transfer));
           mret (coords ++ [c1; c2; c3]))
        (Err e) transfers = Err e.
Proof. induction transfers as [|t ts IH]; [done|]. cbn [foldl]. exact IH. Qed.

Lemma getitem_Ok (idx : gmap string Z) (a : string) (c : Z) :
  getitem idx a = Ok c <-> idx !! a = Some c.
Proof. unfold getitem. destruct (idx !! a); split; congruence. Qed.

Lemma coords_fold_Ok (idx : gmap string Z) (transfers : list TransferStep) :
  forall acc coords : list Z,
    foldl (fun coords transfer =>
             coords ← coords;
             c1 ← getitem idx (lower (token_owner transfer));
             c2 ← getitem idx (lower (from_address transfer));
             c3 ← getitem idx (lower (to_address transfer));
             mret (coords ++ [c1; c2; c3]))
          (Ok acc) transfers = Ok coords ->
    exists cs,
      coords = acc ++ cs
      /\ Forall2 (fun c a => idx !! a = Some c) cs (Flows.coordinate_addresses transfers).
Proof.
  induction transfers as [|t ts IH]; intros acc coords; cbn [foldl].
  - intros [= <-]. exists []. split; [by rewrite app_nil_r | constructor].
  - cbn [mbind result_bind].
    destruct (getitem idx (lower (token_owner t))) as [c1|e] eqn:H1;
      cbn [mbind result_bind]; [|by rewrite coords_fold_Err].
    destruct (getitem idx (lower (from_address t))) as [c2|e] eqn:H2;
      cbn [mbind result_bind]; [|by rewrite coords_fold_Err].
    destruct (getitem idx (lower (to_address t))) as [c3|e] eqn:H3;
      cbn [mbind result_bind mret result_ret]; [|by rewrite coords_fold_Err].
    intros (cs & -> & Hcs)%IH. exists ([c1; c2; c3] ++ cs).
    split; [by rewrite <- app_assoc|].
    change (Flows.coordinate_addresses (t :: ts))
      with ([lower (token_owner t); lower (from_address t); lower (to_address t)]
              ++ Flows.coordinate_addresses ts).
    apply Forall2_app; [|done].
    apply getitem_Ok in H1, H2, H3. by repeat constructor.
Qed.

Lemma create_flow_matrix_inv from_addr to_addr v transfers fm :
  create_flow_matrix int16 from_addr to_addr v transfers = Ok fm ->
  exists idx src coords,
    transform_to_flow_vertices int16 transfers (lower from_addr) (lower to_addr)
      = Ok (flow_vertices fm, idx)
    /\ idx !! lower from_addr = Some src
    /\ Forall2 (fun c a => idx !! a = Some c) coords (Flows.coordinate_addresses transfers)
    /\ packed_coordinates fm = pack_coordinates coords
    /\ fm_source_coordinate fm = src
    /\ source_coordinate <$> streams fm = [src].
Proof.
  unfold create_flow_matrix.
  intros ([vs idx] & Htr & H)%bind_Ok.
  apply bind_Ok in H as (es & Hes & H).
  apply bind_Ok in H as (src & Hsrc & H).
  apply bind_Ok in H as (coords & Hc & H).
  destruct (Z.eqb_spec (terminal_sum es) v) as [Hsum|]; cbn [negb] in H; [|done].
  apply bind_Ok in H as (src' & Hsrc' & [= <-]). cbn.
  rewrite Hsrc in Hsrc'. injection Hsrc' as <-.
  apply coords_fold_Ok in Hc as (cs & -> & Hcs). apply getitem_Ok in Hsrc.
  exists idx, src, cs. done.
Qed.

(** X13: in a FlowMatrix that [create_flow_matrix] returns, the source
    coordinate is a position of the vertex list, the position of the
    lower-cased sender, the single stream carries the same coordinate, and
    there are six coordinate bytes per step, each of them in 0..255; when
    the vertex list has at most 65536 entries, the bytes read back two at
    a time as big-endian unsigned 16-bit integers are positions of the
    vertex list, and looking them up there gives, step by step, the
    lower-cased token owner, sender and receiver. *)
Theorem packed_coordinates_decode
    (from_addr to_addr : string) (expected : Z) (transfers : list TransferStep)
    (fm : FlowMatrix) :
  create_flow_matrix int16 from_addr to_addr expected transfers = Ok fm ->
  0 <= fm_source_coordinate fm < Z.of_nat (length (flow_vertices fm))
  /\ flow_vertices fm !! Z.to_nat (fm_source_coordinate fm) = Some (lower from_addr)
  /\ source_coordinate <$> streams fm = [fm_source_coordinate fm]
  /\ length (packed_coordinates fm) = (6 * length transfers)%nat
  /\ Forall (fun b => 0 <= b <= 255) (packed_coordinates fm)
  /\ (Z.of_nat (length (flow_vertices fm)) <= 65536 ->
      exists coords,
        unpack_coordinates (packed_coordinates fm) = Some coords
        /\ Forall (fun c => 0 <= c < Z.of_nat (length (flow_vertices fm))) coords
        /\ (fun c => flow_vertices fm !! Z.to_nat c) <$> coords
           = Some <$> Flows.coordinate_addresses transfers).
Proof.
  intros (idx & src & coords & Htr & Hsrc & Hcs & Hpk & Hfs & Hss)%create_flow_matrix_inv.
  pose proof (transform_to_flow_vertices_idx _ _ _ _ _ _ Htr) as Hidx.
  rewrite Hfs, Hss, Hpk, length_pack_coordinates.
  apply Hidx in Hsrc as [Hsrc0 Hsrc].
  pose proof (lookup_lt_Some _ _ _ Hsrc) as Hsrclt.
  split; [lia|]. split; [done|]. split; [done|].
  assert (Hlen : length coords = (3 * length transfers)%nat).
  { rewrite (Forall2_length _ _ _ Hcs). unfold Flows.coordinate_addresses.
    clear. induction transfers as [|t ts IH]; [done|].
    change ((t :: ts) ≫= ?f) with (f t ++ (ts ≫= f)).
    rewrite length_app, IH. cbn. lia. }
  split; [lia|]. split; [apply pack_coordinates_bytes|]. intros Hfit.
  assert (Hrange : Forall (fun c => 0 <= c < Z.of_nat (length (flow_vertices fm)))
                          coords).
  { clear Hlen Hpk. induction Hcs as [|c a cs addrs Hc Hcs IH]; constructor; [|done].
    apply Hidx in Hc as [Hc0 Hc]. pose proof (lookup_lt_Some _ _ _ Hc). lia. }
  exists coords. split; [|split; [done|]].
  - rewrite unpack_pack_coordinates. f_equal.
    clear Hlen Hpk Hcs. induction Hrange as [|c cs Hc _ IH]; [done|].
    cbn [fmap list_fmap]. rewrite Z.mod_small by lia. f_equal. exact IH.
  - clear Hlen Hpk Hrange. induction Hcs as [|c a cs addrs Hc Hcs IH]; [done|].
    cbn [fmap list_fmap]. rewrite IH. f_equal. by apply Hidx in Hc as [_ Hc].
Qed.

End Coordinates.

(** ** The empty step list *)

Section EmptySteps.

Variable int16 : string -> option Z.

Lemma address_set_nil (from_addr to_addr a : string) :
  a ∈ address_set from_addr to_addr [] <-> a = lower from_addr \/ a = lower to_addr.
Proof.
  unfold address_set, step_addresses. cbn [mbind list_bind foldr].
  rewrite !elem_of_union, !elem_of_singleton, elem_of_list_to_set, elem_of_nil.
  tauto.
Qed.

(** C9 (as amended): with an empty step list [create_flow_matrix] returns
    no FlowMatrix and raises no [FlowMatrixError].  When the two
    lower-cased addresses both have a base-16 value, what it raises is the
    [IndexError] of the forced-terminal fallback indexing the empty edge
    list; when one of them has none, it raises the [ValueError] of
    [int(addr, 16)] for such an address, before the fallback is reached. *)
Theorem create_flow_matrix_empty_steps
    (from_addr to_addr : string) (expected : Z) :
  (forall fm, create_flow_matrix int16 from_addr to_addr expected [] <> Ok fm)
  /\ (forall m,
        create_flow_matrix int16 from_addr to_addr expected []
        <> Err (FlowMatrixError m))
  /\ (is_Some (int16 (lower from_addr)) ->
      is_Some (int16 (lower to_addr)) ->
      create_flow_matrix int16 from_addr to_addr expected [] = Err IndexError)
  /\ (int16 (lower from_addr) = None \/ int16 (lower to_addr) = None ->
      exists a,
        (a = lower from_addr \/ a = lower to_addr)
        /\ int16 a = None
        /\ create_flow_matrix int16 from_addr to_addr expected []
           = Err (ValueError (InvalidLiteral a))).
Proof.
  split; [|split; [|split]].
  - intros fm (idx & _ & Hes & _)%create_flow_matrix_Ok.
    by rewrite mark_edges_nil in Hes.
  - intros m Hm.
    apply create_flow_matrix_errors in Hm as [[? ?]|[?|[? ?]]]; done.
  - intros Hf Ht.
    destruct (transform_to_flow_vertices_total int16 [] (lower from_addr)
                (lower to_addr)) as (vs & idx & Htr).
    { intros a [-> | ->]%address_set_nil; by rewrite lower_idemp. }
    unfold create_flow_matrix. rewrite Htr. cbn [mbind result_bind].
    by rewrite mark_edges_nil.
  - intros Hnone. unfold create_flow_matrix.
    destruct (transform_to_flow_vertices int16 [] (lower from_addr) (lower to_addr))
      as [[vs idx]|e] eqn:Htr.
    + exfalso.
      pose proof (transform_to_flow_vertices_keys _ _ _ _ _ _ Htr) as Hkeys.
      destruct Hnone as [Hn|Hn].
      * destruct (Hkeys (lower from_addr)) as [k Hk]; [|congruence].
        apply address_set_nil. left. by rewrite lower_idemp.
      * destruct (Hkeys (lower to_addr)) as [k Hk]; [|congruence].
        apply address_set_nil. right. by rewrite lower_idemp.
    + apply transform_to_flow_vertices_Err in Htr as (a & Ha & Ha' & ->).
      apply address_set_nil in Ha. rewrite !lower_idemp in Ha.
      exists a. done.
Qed.

End EmptySteps.

Lemma create_flow_matrix_empty_steps_witness :
  (is_Some (Examples.int16 (lower Examples.addr_A))
   /\ is_Some (Examples.int16 (lower Examples.addr_C))
   /\ create_flow_matrix Examples.int16 Examples.addr_A Examples.addr_C 1000 []
      = Err IndexError)
  /\ (Examples.int16 (lower "0xzz") = None
      /\ exists a,
           (a = lower "0xzz" \/ a = lower Examples.addr_C)
           /\ Examples.int16 a = None
           /\ create_flow_matrix Examples.int16 "0xzz" Examples.addr_C 0 []
              = Err (ValueError (InvalidLiteral a))).
Proof.
  assert (HA : is_Some (Examples.int16 (lower Examples.addr_A)))
    by (vm_compute; eauto).
  assert (HC : is_Some (Examples.int16 (lower Examples.addr_C)))
    by (vm_compute; eauto).
  assert (HZ : Examples.int16 (lower "0xzz") = None)
    by (vm_compute; reflexivity).
  split.
  - split; [exact HA|]. split; [exact HC|].
    destruct (create_flow_matrix_empty_steps Examples.int16 Examples.addr_A
                Examples.addr_C 1000) as (_ & _ & H & _).
    exact (H HA HC).
  - split; [exact HZ|].
    destruct (create_flow_matrix_empty_steps Examples.int16 "0xzz"
                Examples.addr_C 0) as (_ & _ & _ & H).
    exact (H (or_introl HZ)).
Defined.

(** C9 as the claim states it fails: with an empty step list and a sender
    that is no base-16 literal, what is raised is the [ValueError] of
    [int(addr, 16)], not an [IndexError]. *)
Lemma create_flow_matrix_empty_steps_ValueError :
  create_flow_matrix Examples.int16 "0xzz" Examples.addr_C 0 []
  = Err (ValueError (InvalidLiteral "0xzz"))
  /\ create_flow_matrix Examples.int16 "0xzz" Examples.addr_C 0 [] <> Err IndexError.
Proof.
  assert (H : create_flow_matrix Examples.int16 "0xzz" Examples.addr_C 0 []
              = Err (ValueError (InvalidLiteral "0xzz")))
    by (vm_compute; reflexivity).
  split; [exact H|]. rewrite H. discriminate.
Qed.

(** ** More than 65536 vertices *)

Section ManyVertexList.

Import Examples.

Lemma address_of_inj (i j : Z) :
  0 <= i < 16 ^ 40 -> 0 <= j < 16 ^ 40 -> address_of i = address_of j -> i = j.
Proof.
  intros Hi Hj Heq. apply (f_equal Examples.int16) in Heq.
  rewrite !int16_address_of in Heq by lia. by injection Heq.
Qed.

Lemma address_set_steps_upto (n : Z) :
  0 < n ->
  address_set (address_of 0) (address_of 0) (steps_upto n)
  = list_to_set (address_of <$> seqZ 0 n).
Proof.
  intros Hn. apply set_eq. intros a. unfold address_set.
  rewrite lower_address_of, !elem_of_union, !elem_of_singleton, !elem_of_list_to_set.
  rewrite step_addresses_steps_upto, list_elem_of_fmap.
  split.
  - intros [[->| ->]|(i & Hi & ->)].
    + exists 0. split; [done|]. apply elem_of_seqZ. lia.
    + exists 0. split; [done|]. apply elem_of_seqZ. lia.
    + exists i. split; [done|]. apply elem_of_seqZ. lia.
  - intros (i & -> & Hi%elem_of_seqZ). right. exists i. split; [lia|done].
Qed.

Lemma NoDup_addresses (n : Z) : n <= 16 ^ 40 -> NoDup (address_of <$> seqZ 0 n).
Proof.
  intros Hn. apply NoDup_fmap_2_strong; [|apply NoDup_seqZ].
  intros i j Hi%elem_of_seqZ Hj%elem_of_seqZ. apply address_of_inj; lia.
Qed.

Lemma addresses_sorted_from (k : nat) :
  forall m, 0 <= m -> m + Z.of_nat k <= 16 ^ 40 ->
    StronglySorted (Flows.key_le Examples.int16)
                   (address_of <$> seqZ m (Z.of_nat k)).
Proof.
  induction k as [|k IH]; intros m Hm Hk.
  - constructor.
  - rewrite seqZ_cons by lia. rewrite fmap_cons.
    replace (Z.pred (Z.of_nat (S k))) with (Z.of_nat k) by lia.
    constructor; [apply IH; lia|].
    apply Forall_fmap, Forall_forall. intros j Hj%elem_of_seqZ.
    exists m, j. rewrite !int16_address_of by lia.
    split; [done|]. split; [done|]. lia.
Qed.

Lemma addresses_sorted (n : Z) :
  n <= 16 ^ 40 ->
  StronglySorted (Flows.key_le Examples.int16) (address_of <$> seqZ 0 n).
Proof.
  intros Hn. destruct (decide (0 <= n)) as [H0|H0].
  - rewrite <- (Z2Nat.id n) by done. apply addresses_sorted_from; lia.
  - rewrite seqZ_nil by lia. constructor.
Qed.

(** The vertex list of a path over the addresses numbered below [n]. *)
Lemma many_vertices_list (n : Z) (vs : list string) (idx : gmap string Z) :
  0 < n <= 16 ^ 40 ->
  transform_to_flow_vertices Examples.int16 (steps_upto n)
    (lower (address_of 0)) (lower (address_of 0)) = Ok (vs, idx) ->
  vs = address_of <$> seqZ 0 n.
Proof.
  intros Hn Htr.
  destruct (transform_to_flow_vertices_Ok _ _ _ _ _ _ Htr) as [Hperm _].
  destruct (transform_to_flow_vertices_sorted _ _ _ _ _ _ Htr) as [HS _].
  rewrite address_set_lower, address_set_steps_upto in Hperm by lia.
  rewrite elements_list_to_set in Hperm by (apply NoDup_addresses; lia).
  apply (StronglySorted_unique_strong (Flows.key_le Examples.int16));
    [|done|apply addresses_sorted; lia|done].
  intros a b Ha Hb (ka & kb & Hka & Hkb & Hle) (kb' & ka' & Hkb' & Hka' & Hle').
  rewrite Hperm in Ha.
  apply list_elem_of_fmap in Ha as (i & -> & Hi%elem_of_seqZ).
  apply list_elem_of_fmap in Hb as (j & -> & Hj%elem_of_seqZ).
  rewrite int16_address_of in Hka, Hka', Hkb, Hkb' by lia.
  f_equal. simplify_eq. lia.
Qed.

(** The coordinates of that path: step [i] has three times the coordinate
    [i]. *)
Lemma many_vertices_coordinates (n : Z) (idx : gmap string Z) (coords : list Z) :
  0 < n <= 16 ^ 40 ->
  (forall a c, idx !! a = Some c
               <-> 0 <= c /\ (address_of <$> seqZ 0 n) !! Z.to_nat c = Some a) ->
  Forall2 (fun c a => idx !! a = Some c) coords
          (Flows.coordinate_addresses (steps_upto n)) ->
  coords = seqZ 0 n ≫= (fun i => [i; i; i]).
Proof.
  intros Hn Hidx. unfold steps_upto.
  assert (Hall : Forall (fun i => 0 <= i < n) (seqZ 0 n)).
  { apply Forall_forall. intros i Hi%elem_of_seqZ. lia. }
  revert coords Hall. generalize (seqZ 0 n) as l.
  induction l as [|i l IH]; intros coords Hall.
  - by intros ->%Forall2_nil_inv_r.
  - apply Forall_cons in Hall as [Hi Hall].
    rewrite fmap_cons.
    change (Flows.coordinate_addresses (?t :: ?ts))
      with ([lower (token_owner t); lower (from_address t); lower (to_address t)]
              ++ Flows.coordinate_addresses ts).
    unfold step at 1 2 3. cbn [token_owner from_address to_address].
    rewrite lower_address_of. cbn [app].
    intros H.
    apply Forall2_cons_inv_r in H as (c1 & cs & H1 & H & ->).
    apply Forall2_cons_inv_r in H as (c2 & cs' & H2 & H & ->).
    apply Forall2_cons_inv_r in H as (c3 & cs'' & H3 & H & ->).
    assert (Hc : forall c, idx !! address_of i = Some c -> c = i).
    { intros c [Hc0 Hc]%Hidx. rewrite list_lookup_fmap in Hc.
      destruct (seqZ 0 n !! Z.to_nat c) as [j|] eqn:Hj; [|done].
      apply lookup_seqZ in Hj as [-> Hlt]. cbn [fmap option_fmap option_map] in Hc.
      apply (inj Some) in Hc.
      apply address_of_inj in Hc; lia. }
    rewrite (Hc _ H1), (Hc _ H2), (Hc _ H3).
    change ((i :: l) ≫= ?f) with (f i ++ (l ≫= f)). cbn [app].
    do 3 f_equal. by apply IH.
Qed.

(** What [create_flow_matrix] returns on the path over the addresses
    numbered below [n]. *)
Lemma many_vertices_matrix (n : Z) :
  0 < n <= 16 ^ 40 ->
  exists fm,
    create_flow_matrix Examples.int16 (address_of 0) (address_of 0) 0 (steps_upto n)
    = Ok fm
    /\ flow_vertices fm = address_of <$> seqZ 0 n
    /\ packed_coordinates fm = pack_coordinates (seqZ 0 n ≫= (fun i => [i; i; i])).
Proof.
  intros Hn. destruct (many_vertices_encoded n Hn) as (fm & Hfm & _).
  exists fm. split; [done|].
  destruct (create_flow_matrix_inv _ _ _ _ _ _ Hfm)
    as (idx & src & coords & Htr & _ & Hcs & Hpk & _).
  pose proof (many_vertices_list _ _ _ Hn Htr) as Hvs.
  split; [done|]. rewrite Hpk. f_equal.
  apply (many_vertices_coordinates n idx); [done| |done].
  rewrite <- Hvs. by eapply transform_to_flow_vertices_idx.
Qed.

End ManyVertexList.

(** C3: the path [Examples.many_steps] has 65537 valid steps over 65537
    different addresses.  [create_flow_matrix] does not refuse it: it
    returns a FlowMatrix of 65537 vertices, the addresses in ascending
    order.  The last step goes to the vertex at position 65536, but the
    six bytes packed for it are all zero: read back they give three times
    the coordinate 0, the position of another address. *)
Theorem create_flow_matrix_wraps_coordinate_65536 :
  Forall valid_step Examples.many_steps
  /\ to_address <$> last Examples.many_steps = Some (Examples.address_of 65536)
  /\ Examples.address_of 65536 <> Examples.address_of 0
  /\ exists fm,
       create_flow_matrix Examples.int16 (Examples.address_of 0)
                          (Examples.address_of 0) 0 Examples.many_steps = Ok fm
       /\ Z.of_nat (length (flow_vertices fm)) = 65537
       /\ flow_vertices fm !! Z.to_nat 0 = Some (Examples.address_of 0)
       /\ flow_vertices fm !! Z.to_nat 65536 = Some (Examples.address_of 65536)
       /\ Z.of_nat (length (packed_coordinates fm)) = 6 * 65537
       /\ (exists front, packed_coordinates fm = front ++ [0; 0; 0; 0; 0; 0])
       /\ (exists coords,
             unpack_coordinates (packed_coordinates fm) = Some (coords ++ [0; 0; 0])).
Proof.
  split; [apply valid_steps_upto|].
  assert (Hseq : seqZ 0 65537 = seqZ 0 65536 ++ [65536]).
  { change 65537 with (65536 + 1). rewrite seqZ_app by lia. done. }
  split.
  { unfold Examples.many_steps, Examples.steps_upto.
    rewrite fmap_last, Hseq, last_snoc. done. }
  split.
  { intros H. apply (f_equal Examples.int16) in H. vm_compute in H. discriminate. }
  destruct (many_vertices_matrix 65537) as (fm & Hfm & Hvs & Hpk).
  { split; [lia|]. vm_compute. discriminate. }
  exists fm. split; [exact Hfm|].
  rewrite Hvs, length_fmap, length_seqZ, !list_lookup_fmap.
  rewrite !lookup_seqZ_lt by lia.
  split; [lia|]. split; [done|]. split; [done|].
  split.
  { destruct (many_vertices_encoded 65537) as (fm' & Hfm' & _ & Hlen).
    { split; [lia|]. vm_compute. discriminate. }
    rewrite Hfm in Hfm'. injection Hfm' as <-. exact Hlen. }
  rewrite Hpk, Hseq, bind_app.
  change ([65536] ≫= (fun i => [i; i; i])) with [65536; 65536; 65536].
  split.
  - rewrite pack_coordinates_bind, bind_app. eexists. f_equal.
  - rewrite unpack_pack_coordinates, fmap_app. eexists. f_equal.
Qed.

Section NaturalTerminal.

Variable int16 : string -> option Z.

Lemma natural_edges_fmap (receiver : string) (ts : list TransferStep) :
  (fun transfer =>
     let is_terminal := bool_decide (lower (to_address transfer) = receiver) in
     {| stream_sink_id := if is_terminal then 1 else 0;
        amount := value transfer |}) <$> ts
  = Flows.natural_edges receiver ts.
Proof.
  unfold Flows.natural_edges. apply list_fmap_ext. intros _ t _. cbn zeta.
  destruct (decide (lower (to_address t) = receiver)) as [Ht|Ht].
  - by rewrite bool_decide_eq_true_2.
  - by rewrite bool_decide_eq_false_2.
Qed.

Lemma existsb_natural_edges (receiver : string) (ts : list TransferStep) :
  Exists (fun s => lower (to_address s) = receiver) ts ->
  existsb (fun edge => stream_sink_id edge =? 1) (Flows.natural_edges receiver ts) = true.
Proof.
  unfold Flows.natural_edges.
  induction 1 as [t ts Ht|t ts _ IH]; cbn [fmap list_fmap existsb].
  - destruct (decide _); [done|done].
  - rewrite IH. apply orb_true_r.
Qed.

Lemma mark_edges_natural (receiver : string) (ts : list TransferStep) :
  Exists (fun s => lower (to_address s) = receiver) ts ->
  mark_edges receiver ts = Ok (Flows.natural_edges receiver ts).
Proof.
  intros Hex. unfold mark_edges. rewrite natural_edges_fmap.
  by rewrite existsb_natural_edges.
Qed.

Lemma terminal_total_natural (receiver : string) (ts : list TransferStep) :
  terminal_total (Flows.natural_edges receiver ts) = Flows.inflow ts receiver.
Proof.
  unfold Flows.natural_edges. induction ts as [|t ts IH]; [done|].
  cbn [fmap list_fmap terminal_total Flows.inflow].
  rewrite IH.
  destruct (decide (lower (to_address t) = receiver)) as [Ht|Ht].
  - by rewrite bool_decide_eq_true_2.
  - by rewrite bool_decide_eq_false_2.
Qed.

Lemma term_edge_ids_natural (receiver : string) (ts : list TransferStep) :
  (fun p : nat * FlowEdge => Z.of_nat p.1)
    <$> filter (fun p => stream_sink_id p.2 = 1) (enumerate (Flows.natural_edges receiver ts))
  = Flows.positions_to receiver ts.
Proof.
  unfold Flows.positions_to, enumerate, Flows.natural_edges. rewrite length_fmap.
  generalize 0%nat as start.
  induction ts as [|t ts IH]; intros start; [done|].
  cbn [length seq fmap list_fmap zip_with]. rewrite !filter_cons.
  cbn [snd]. destruct (decide (lower (to_address t) = receiver)) as [Ht|Ht].
  - cbn [terminal_edge stream_sink_id]. rewrite decide_True by done.
    cbn [fmap list_fmap fst]. f_equal. apply IH.
  - cbn [intermediate_edge stream_sink_id]. rewrite decide_False by done.
    apply IH.
Qed.

(** X14: when a step goes to the destination, the terminal edges are
    exactly the edges of the steps that go there, the terminal sum is what
    arrives at the destination, the stream lists the positions of those
    steps, and (once the vertices are sorted) a FlowMatrix is returned
    exactly when what arrives is the expected total; otherwise the call
    raises [ValueError] with the two amounts. *)
Theorem create_flow_matrix_natural_terminal
    (from_addr to_addr : string) (expected : Z) (transfers : list TransferStep) :
  Exists (fun s => lower (to_address s) = lower to_addr) transfers ->
  let es := Flows.natural_edges (lower to_addr) transfers in
  let arriving := Flows.inflow transfers (lower to_addr) in
  mark_edges (lower to_addr) transfers = Ok es
  /\ terminal_total es = arriving
  /\ (forall fm,
        create_flow_matrix int16 from_addr to_addr expected transfers = Ok fm ->
        flow_edges fm = es
        /\ flow_edge_ids <$> streams fm = [Flows.positions_to (lower to_addr) transfers]
        /\ arriving = expected)
  /\ (is_ok (transform_to_flow_vertices int16 transfers
               (lower from_addr) (lower to_addr)) = true ->
      (arriving = expected ->
       exists fm,
         create_flow_matrix int16 from_addr to_addr expected transfers = Ok fm)
      /\ (arriving <> expected ->
          create_flow_matrix int16 from_addr to_addr expected transfers
          = Err (ValueError (TerminalSumMismatch arriving expected)))).
Proof.
  intros Hex es arriving.
  pose proof (mark_edges_natural _ _ Hex) as Hes. fold es in Hes.
  pose proof (terminal_total_natural (lower to_addr) transfers) as Htot.
  fold es arriving in Htot.
  split; [done|]. split; [done|]. split.
  - intros fm (idx & _ & Hes' & Hsum & Hids)%create_flow_matrix_Ok.
    rewrite Hes in Hes'. injection Hes' as Heq. rewrite <- Heq in *.
    split; [done|].
    split; [by rewrite Hids; unfold es; rewrite term_edge_ids_natural|].
    by rewrite terminal_sum_total, Htot in Hsum.
  - intros Hok.
    destruct (transform_to_flow_vertices _ _ _ _) as [[vs idx]|] eqn:Htr; [|done].
    destruct (create_flow_matrix_run int16 from_addr to_addr expected
                _ vs idx es Htr Hes) as [Hne Heq].
    rewrite terminal_sum_total, Htot in *. split.
    + intros Hv. destruct (Heq Hv) as (fm & Hfm & _). by exists fm.
    + done.
Qed.

End NaturalTerminal.

Lemma packed_coordinates_decode_witness :
  create_flow_matrix Examples.int16 Examples.addr_A Examples.addr_C 1000
                     Examples.two_hop = Ok Examples.two_hop_matrix
  /\ Forall (fun b => 0 <= b <= 255) (packed_coordinates Examples.two_hop_matrix)
  /\ exists coords,
       unpack_coordinates (packed_coordinates Examples.two_hop_matrix) = Some coords
       /\ Forall (fun c => 0 <= c < 3) coords
       /\ (fun c => flow_vertices Examples.two_hop_matrix !! Z.to_nat c) <$> coords
          = Some <$> Flows.coordinate_addresses Examples.two_hop.
Proof.
  split; [exact create_flow_matrix_two_hop|].
  destruct (packed_coordinates_decode Examples.int16 Examples.addr_A Examples.addr_C
              1000 Examples.two_hop Examples.two_hop_matrix
              create_flow_matrix_two_hop) as (_ & _ & _ & _ & Hb & H).
  split; [exact Hb|]. apply H. cbn. lia.
Defined.

Lemma create_flow_matrix_natural_terminal_witness :
  Exists (fun s => lower (to_address s) = lower Examples.addr_C) Examples.two_hop
  /\ mark_edges (lower Examples.addr_C) Examples.two_hop
     = Ok (Flows.natural_edges (lower Examples.addr_C) Examples.two_hop)
  /\ terminal_total (Flows.natural_edges (lower Examples.addr_C) Examples.two_hop)
     = Flows.inflow Examples.two_hop (lower Examples.addr_C).
Proof.
  assert (Hex : Exists (fun s => lower (to_address s) = lower Examples.addr_C)
                       Examples.two_hop).
  { apply Exists_cons_tl, Exists_cons_hd. vm_compute. reflexivity. }
  split; [exact Hex|].
  destruct (create_flow_matrix_natural_terminal Examples.int16 Examples.addr_A
              Examples.addr_C 1000 Examples.two_hop Hex) as (H1 & H2 & _).
  split; [exact H1 | exact H2].
Defined.

(** ** The token lookup *)

Section Lookup.

Import TokenInfo.

Lemma cache_set_total (c : TokenInfoCache) (a : string) (info : TokenInfoRow) :
  0 < _max_size c ->
  exists c', cache_set c a info = Ok c' /\ _max_size c' = _max_size c.
Proof.
  intros Hpos. unfold cache_set. rewrite Z.geb_leb.
  destruct (Z.leb_spec (_max_size c) (Z.of_nat (length (_cache c)))) as [Hfull|Hfree].
  - destruct (_cache c) as [|oldest rest]; [cbn in Hfull; lia|].
    cbn [mbind result_bind mret result_ret]. by eexists.
  - cbn [mbind result_bind mret result_ret]. by eexists.
Qed.

Lemma cache_set_batch_total (rows : list TokenInfoRow) :
  forall c : TokenInfoCache,
    0 < _max_size c ->
    exists c', cache_set_batch c rows = Ok c' /\ _max_size c' = _max_size c.
Proof.
  unfold cache_set_batch.
  induction rows as [|r rows IH]; intros c Hpos; cbn [foldl].
  - by exists c.
  - cbn [mbind result_bind].
    destruct (cache_set_total c (token r) r Hpos) as (c1 & -> & Hc1).
    destruct (IH c1) as (c' & Hc' & Hsize); [lia|].
    exists c'. split; [done | lia].
Qed.

Lemma unique_addresses_spec (ts : list TransferStep) (a : string) :
  a ∈ foldl (fun unique transfer => unique ∪ {[ lower (Types.token_owner transfer) ]})
            (∅ : gset string) ts
  <-> exists t, t ∈ ts /\ a = lower (Types.token_owner t).
Proof.
  assert (H : forall s0 : gset string,
    a ∈ foldl (fun unique transfer => unique ∪ {[ lower (Types.token_owner transfer) ]})
              s0 ts
    <-> a ∈ s0 \/ exists t, t ∈ ts /\ a = lower (Types.token_owner t)).
  { induction ts as [|t ts IH]; intros s0; cbn [foldl].
    - split; [by left|]. intros [?|(t & ?%elem_of_nil & _)]; done.
    - rewrite IH, elem_of_union, elem_of_singleton. split.
      + intros [[?| ->]|(t' & Ht' & ->)]; [by left| |].
        * right. exists t. split; [by left | done].
        * right. exists t'. split; [by right | done].
      + intros [?|(t' & [-> |Ht']%elem_of_cons & ->)].
        * by left; left.
        * by left; right.
        * right. by exists t'. }
  rewrite H. split; [|by right]. intros [?%not_elem_of_empty|?]; done.
Qed.

Lemma cache_fold_cover (c : TokenInfoCache) (l : list string) :
  forall (tim : gmap string TokenInfoRow) (tf : list string) tim' tf',
    foldl (fun '(token_info_map, addresses_to_fetch) addr =>
             match cache_get c addr with
             | Some cached_info =>
                 (<[addr := cached_info]> token_info_map, addresses_to_fetch)
             | None => (token_info_map, addresses_to_fetch ++ [addr])
             end)
          (tim, tf) l = (tim', tf') ->
    (forall a, is_Some (tim' !! a) \/ a ∈ tf'
               <-> is_Some (tim !! a) \/ a ∈ tf \/ a ∈ l).
Proof.
  induction l as [|b l IH]; intros tim tf tim' tf'; cbn [foldl].
  - intros [= <- <-] a. split; [intros [?|?]; eauto|].
    intros [?|[?|?%elem_of_nil]]; eauto; done.
  - destruct (cache_get c b) as [cached|] eqn:Hb; intros Hfold a;
      rewrite (IH _ _ _ _ Hfold a), elem_of_cons.
    + rewrite lookup_insert. destruct (decide (b = a)) as [-> |Hne].
      * split; [eauto|]. intros _. left. by eexists.
      * split; [intros [?|[?|?]]; eauto|].
        intros [?|[?|[-> |?]]]; eauto; done.
    + rewrite elem_of_app, list_elem_of_singleton.
      split; [intros [?|[[?| ->]|?]]; eauto|].
      intros [?|[?|[-> |?]]]; eauto.
Qed.

Lemma insert_rows_cover (rows : list TokenInfoRow) :
  forall (m : gmap string TokenInfoRow) (a : string),
    is_Some (foldl (fun token_info_map info => <[token info := info]> token_info_map)
                   m rows !! a)
    <-> is_Some (m !! a) \/ a ∈ token <$> rows.
Proof.
  induction rows as [|r rows IH]; intros m a; cbn [foldl].
  - split; [by left|]. intros [?|?%elem_of_nil]; done.
  - rewrite IH, fmap_cons, elem_of_cons, lookup_insert.
    destruct (decide (token r = a)) as [-> |Hne].
    + split; [eauto|]. intros _. left. by eexists.
    + split; [intros [?|?]; eauto|]. intros [?|[-> |?]]; eauto; done.
Qed.

Lemma batch_tokens (l : list string) (rows : list TokenInfoRow) :
  get_token_info_batch l = Ok rows -> token <$> rows = lower <$> l.
Proof.
  unfold get_token_info_batch. destruct l as [|a l]; [by intros [= <-]|].
  intros [= <-].
  assert (H : forall l' : list string,
    token <$> ((fun addr =>
                  new_TokenInfoRow 0
                    ("0x" +:+ "0000000000000000000000000000000000000000000000000000000000000000")
                    2 (_infer_token_type addr) addr addr) <$> l')
    = lower <$> l').
  { induction l' as [|b l' IH]; [done|]. cbn [fmap list_fmap] in *. by rewrite IH. }
  exact (H (a :: l)).
Qed.

Lemma token_map_total (path : PathfindingResult) (cache : option TokenInfoCache) :
  (forall c, cache = Some c -> 0 < _max_size c) ->
  exists m cache',
    get_token_info_map_from_path path cache = Ok (m, cache')
    /\ (forall a, is_Some (m !! a)
                  <-> exists t, t ∈ transfers path /\ a = lower (Types.token_owner t))
    /\ (cache = None <-> cache' = None)
    /\ (forall c c', cache = Some c -> cache' = Some c' -> _max_size c' = _max_size c).
Proof.
  intros Hpos. unfold get_token_info_map_from_path.
  set (unique := foldl _ ∅ (transfers path)).
  assert (Hunique : forall a, a ∈ elements unique
            <-> exists t, t ∈ transfers path /\ a = lower (Types.token_owner t)).
  { intros a. rewrite elem_of_elements. apply unique_addresses_spec. }
  assert (Hlow : forall l : list string,
            (forall a, a ∈ l -> a ∈ elements unique) -> lower <$> l = l).
  { intros l Hl. rewrite <- (list_fmap_id l) at 2. apply list_fmap_ext.
    intros _ a Ha%list_elem_of_lookup_2. apply Hl, Hunique in Ha as (t & _ & ->).
    apply lower_idemp. }
  destruct cache as [c|].
  - destruct (foldl _ (∅, []) (elements unique)) as [tim tf] eqn:Hfold.
    pose proof (cache_fold_cover c _ _ _ _ _ Hfold) as Hcover.
    assert (Htf : forall a, a ∈ tf -> a ∈ elements unique).
    { intros a Ha. destruct (proj1 (Hcover a) (or_intror Ha)) as [H|[H|H]].
      - rewrite lookup_empty in H. by destruct H.
      - by apply elem_of_nil in H.
      - done. }
    destruct tf as [|a0 tf].
    + exists tim, (Some c). cbn [coroutine]. split; [done|]. split.
      * intros a. rewrite <- Hunique. specialize (Hcover a).
        rewrite lookup_empty in Hcover. split.
        -- intros H. destruct (proj1 Hcover (or_introl H)) as [[? ?]|[?%elem_of_nil|?]];
             done.
        -- intros H. destruct (proj2 Hcover (or_intror (or_intror H)))
             as [?|?%elem_of_nil]; done.
      * split; [done|]. by intros ? ? [= <-] [= <-].
    + destruct (batch_total (a0 :: tf)) as [rows Hrows]. rewrite Hrows.
      cbn [mbind result_bind].
      destruct (cache_set_batch_total rows c (Hpos c eq_refl)) as (c' & -> & Hsize).
      cbn [mbind result_bind mret result_ret coroutine].
      eexists _, (Some c'). split; [done|]. split.
      * intros a. rewrite insert_rows_cover, (batch_tokens _ _ Hrows), (Hlow _ Htf).
        rewrite <- Hunique. specialize (Hcover a).
        rewrite lookup_empty in Hcover. split.
        -- intros H. destruct (proj1 Hcover H) as [[? ?]|[?%elem_of_nil|?]]; done.
        -- intros H. apply Hcover. eauto.
      * split; [done|]. by intros ? ? [= <-] [= <-].
  - destruct (elements unique) as [|a0 l] eqn:Hel.
    + exists ∅, None. cbn [coroutine]. split; [done|]. split; [|done].
      intros a. rewrite lookup_empty, <- Hunique. split; [by intros [? ?]|].
      by intros ?%elem_of_nil.
    + destruct (batch_total (a0 :: l)) as [rows Hrows]. rewrite Hrows.
      cbn [mbind result_bind mret result_ret coroutine].
      eexists _, None. split; [done|]. split; [|done].
      intros a. rewrite insert_rows_cover, (batch_tokens _ _ Hrows), (Hlow _ (fun _ H => H)).
      rewrite lookup_empty, <- Hunique. split; [|eauto]. by intros [[? ?]|?].
Qed.

Lemma cache_fold_misses (c : TokenInfoCache) (l : list string) :
  forall (tim : gmap string TokenInfoRow) (tf : list string) tim' tf',
    foldl (fun '(token_info_map, addresses_to_fetch) addr =>
             match cache_get c addr with
             | Some cached_info =>
                 (<[addr := cached_info]> token_info_map, addresses_to_fetch)
             | None => (token_info_map, addresses_to_fetch ++ [addr])
             end)
          (tim, tf) l = (tim', tf') ->
    (forall a, a ∈ tf -> cache_get c a = None) ->
    forall a, a ∈ tf' -> cache_get c a = None.
Proof.
  induction l as [|b l IH]; intros tim tf tim' tf'; cbn [foldl].
  - by intros [= <- <-].
  - destruct (cache_get c b) as [cached|] eqn:Hb; intros Hfold Htf.
    + by eapply IH.
    + eapply IH; [exact Hfold|]. intros a [Ha| ->%list_elem_of_singleton]%elem_of_app;
        [by apply Htf | done].
Qed.

Lemma insert_rows_other (rows : list TokenInfoRow) :
  forall (m : gmap string TokenInfoRow) (a : string),
    a ∉ token <$> rows ->
    foldl (fun token_info_map info => <[token info := info]> token_info_map)
          m rows !! a = m !! a.
Proof.
  induction rows as [|r rows IH]; intros m a Ha; cbn [foldl]; [done|].
  rewrite fmap_cons in Ha. apply not_elem_of_cons in Ha as [Hne Ha].
  rewrite IH by done. by rewrite lookup_insert_ne.
Qed.

Lemma insert_rows_in (rows : list TokenInfoRow) :
  forall (m : gmap string TokenInfoRow) (a : string),
    a ∈ token <$> rows ->
    exists info,
      info ∈ rows /\ token info = a
      /\ foldl (fun token_info_map info => <[token info := info]> token_info_map)
               m rows !! a = Some info.
Proof.
  induction rows as [|r rows IH]; intros m a Ha; cbn [foldl].
  - by apply elem_of_nil in Ha.
  - destruct (decide (a ∈ token <$> rows)) as [Hin|Hout].
    + destruct (IH (<[token r := r]> m) a Hin) as (info & Hi & Ht & Hl).
      exists info. split; [by right | done].
    + rewrite fmap_cons in Ha. apply elem_of_cons in Ha as [->|Ha]; [|done].
      exists r. split; [by left|]. split; [done|].
      rewrite insert_rows_other by done. by rewrite lookup_insert_eq.
Qed.

Lemma batch_rows (l : list string) (rows : list TokenInfoRow) (info : TokenInfoRow) :
  get_token_info_batch l = Ok rows -> info ∈ rows ->
  exists b, b ∈ l /\ token info = lower b /\ token_owner info = lower b
            /\ type info = CRC_V2_REGISTER_HUMAN.
Proof.
  unfold get_token_info_batch. destruct l as [|a l]; [intros [= <-] ?%elem_of_nil; done|].
  intros [= <-].
  change (info ∈ (fun addr =>
                    new_TokenInfoRow 0
                      ("0x" +:+ "0000000000000000000000000000000000000000000000000000000000000000")
                      2 (_infer_token_type addr) addr addr) <$> (a :: l)
          -> exists b, b ∈ a :: l /\ token info = lower b /\ token_owner info = lower b
                       /\ type info = CRC_V2_REGISTER_HUMAN).
  intros (b & -> & Hb)%list_elem_of_fmap. by exists b.
Qed.

Lemma token_map_lookup
    (path : PathfindingResult) (cache cache' : option TokenInfoCache)
    (m : gmap string TokenInfoRow) :
  get_token_info_map_from_path path cache = Ok (m, cache') ->
  forall t,
    t ∈ transfers path ->
    let a := lower (Types.token_owner t) in
    match cache ≫= (fun c => cache_get c a) with
    | Some cached => m !! a = Some cached
    | None =>
        exists info,
          m !! a = Some info /\ token info = a /\ token_owner info = a
          /\ type info = CRC_V2_REGISTER_HUMAN
    end.
Proof.
  intros Hm t Ht a.
  revert Hm. unfold get_token_info_map_from_path. rewrite coroutine_Ok.
  set (unique := foldl _ ∅ (transfers path)).
  assert (Hunique : forall b, b ∈ elements unique -> lower b = b).
  { intros b Hb%elem_of_elements. apply unique_addresses_spec in Hb as (t' & _ & ->).
    apply lower_idemp. }
  assert (Hfetched : forall (l : list string) rows (tim : gmap string TokenInfoRow),
            (forall b, b ∈ l -> b ∈ elements unique) ->
            get_token_info_batch l = Ok rows ->
            a ∈ l ->
            exists info,
              foldl (fun token_info_map info => <[token info := info]> token_info_map)
                    tim rows !! a = Some info
              /\ token info = a /\ token_owner info = a
              /\ type info = CRC_V2_REGISTER_HUMAN).
  { intros l rows tim Hl Hrows Hal.
    assert (Hlow : lower <$> l = l).
    { rewrite <- (list_fmap_id l) at 2. apply list_fmap_ext.
      intros _ b Hb%list_elem_of_lookup_2. by apply Hunique, Hl. }
    destruct (insert_rows_in rows tim a) as (info & Hi & Htok & Hlook).
    { by rewrite (batch_tokens _ _ Hrows), Hlow. }
    exists info. split; [done|]. split; [done|].
    destruct (batch_rows _ _ _ Hrows Hi) as (b & Hb & Htb & Hob & Hty).
    split; [|done]. by rewrite Hob, <- Htb. }
  destruct cache as [c|]; cbn [mbind option_bind].
  - destruct (foldl _ (∅, []) (elements unique)) as [tim tf] eqn:Hfold.
    pose proof (cache_hits_fold c _ _ _ _ _ Hfold) as Hhits.
    pose proof (cache_fold_misses c _ _ _ _ _ Hfold) as Hmiss.
    pose proof (cache_fold_cover c _ _ _ _ _ Hfold) as Hcover.
    assert (Hhits' : forall k info, tim !! k = Some info -> cache_get c k = Some info).
    { apply Hhits. intros k info. by rewrite lookup_empty. }
    assert (Hmiss' : forall b, b ∈ tf -> cache_get c b = None).
    { apply Hmiss. by intros b ?%elem_of_nil. }
    assert (Htf : forall b, b ∈ tf -> b ∈ elements unique).
    { intros b Hb. destruct (proj1 (Hcover b) (or_intror Hb)) as [H|[H|H]].
      - rewrite lookup_empty in H. by destruct H.
      - by apply elem_of_nil in H.
      - done. }
    assert (Hin : a ∈ elements unique).
    { apply elem_of_elements, unique_addresses_spec. by exists t. }
    assert (Hcases : is_Some (tim !! a) \/ a ∈ tf).
    { apply Hcover. by right; right. }
    destruct tf as [|a0 tf].
    + intros [= <- _]. destruct Hcases as [[info Hinfo]|?%elem_of_nil]; [|done].
      by rewrite (Hhits' _ _ Hinfo).
    + destruct (get_token_info_batch (a0 :: tf)) as [rows|] eqn:Hrows;
        cbn [mbind result_bind]; [|done].
      destruct (cache_set_batch c rows); cbn [mbind result_bind]; [|done].
      intros [= <- _].
      destruct (cache_get c a) as [cached|] eqn:Hca.
      * assert (Hout : a ∉ a0 :: tf).
        { intros Hal. apply Hmiss' in Hal. congruence. }
        destruct Hcases as [[info Hinfo]|?]; [|done].
        rewrite insert_rows_other.
        -- rewrite Hinfo. f_equal. apply Hhits' in Hinfo. congruence.
        -- rewrite (batch_tokens _ _ Hrows).
           assert (Hlow : lower <$> (a0 :: tf) = a0 :: tf).
           { rewrite <- (list_fmap_id (a0 :: tf)) at 2. apply list_fmap_ext.
             intros _ b Hb%list_elem_of_lookup_2. by apply Hunique, Htf. }
           by rewrite Hlow.
      * destruct Hcases as [[info Hinfo]|Hal].
        { apply Hhits' in Hinfo. congruence. }
        by apply (Hfetched (a0 :: tf) rows tim Htf Hrows).
  - assert (Hin : a ∈ elements unique).
    { apply elem_of_elements, unique_addresses_spec. by exists t. }
    destruct (elements unique) as [|a0 l] eqn:Hel; [by apply elem_of_nil in Hin|].
    destruct (get_token_info_batch (a0 :: l)) as [rows|] eqn:Hrows;
      cbn [mbind result_bind]; [|done].
    intros [= <- _]. by apply (Hfetched (a0 :: l) rows ∅).
Qed.


(** X17: with no cache, or a cache of positive capacity, the token lookup
    returns.  Its map has an entry for exactly the lower-cased token
    owners of the path; the entry of a cached owner is the cached row, and
    the entry of any other owner is a row for that address classified
    [CrcV2_RegisterHuman].  A cache is handed back exactly when one was
    given, with its capacity unchanged. *)
Theorem get_token_info_map_total
    (path : PathfindingResult) (cache : option TokenInfoCache) :
  (forall c, cache = Some c -> 0 < _max_size c) ->
  exists m cache',
    get_token_info_map_from_path path cache = Ok (m, cache')
    /\ (forall a, is_Some (m !! a)
                  <-> exists t, t ∈ transfers path /\ a = lower (Types.token_owner t))
    /\ (forall t,
          t ∈ transfers path ->
          let a := lower (Types.token_owner t) in
          match cache ≫= (fun c => cache_get c a) with
          | Some cached => m !! a = Some cached
          | None =>
              exists info,
                m !! a = Some info /\ token info = a /\ token_owner info = a
                /\ type info = CRC_V2_REGISTER_HUMAN
          end)
    /\ (cache = None <-> cache' = None)
    /\ (forall c c', cache = Some c -> cache' = Some c' -> _max_size c' = _max_size c).
Proof.
  intros Hpos.
  destruct (token_map_total path cache Hpos) as (m & cache' & Hm & Hkeys & Hnone & Hsize).
  exists m, cache'. split; [done|]. split; [done|]. split; [|done].
  by apply (token_map_lookup path cache cache' m).
Qed.

End Lookup.

(** ** The transfer orchestrator *)

Section Orchestration.

Import Advanced.

Variable int16 : string -> option Z.
Variable find_path : FindPathParams -> result PathfindingResult.

Lemma validate_address_Err (v : string) (e : exn) :
  validate_address v = Err e -> e = PydanticValidationError (InvalidEthereumAddress v).
Proof. unfold validate_address. destruct (_ || _); by intros [= <-]. Qed.

Lemma validate_address_lower (a : string) :
  startswith "0x" (lower a) = true -> String.length a = 42%nat ->
  validate_address (lower a) = Ok (lower a).
Proof.
  intros Hp Hl. unfold validate_address, len_str.
  rewrite Hp, length_lower, Hl, lower_idemp. done.
Qed.

Lemma validate_token_lists_Err (v : option (list string)) (e : exn) :
  validate_token_lists v = Err e -> exists m, e = PydanticValidationError m.
Proof.
  destruct v as [l|]; cbn [validate_token_lists]; [|done].
  destruct (for_each l _) as [[]|e'] eqn:Hl; cbn [mbind result_bind]; [done|].
  intros [= <-]. apply for_each_Err in Hl as (x & _ & Hx).
  destruct (_ || _); [|done]. injection Hx as <-. eauto.
Qed.

Lemma new_FindPathParams_Err f t a u ft tt eft ett (e : exn) :
  new_FindPathParams f t a u ft tt eft ett = Err e ->
  exists m, e = PydanticValidationError m.
Proof.
  unfold new_FindPathParams.
  destruct (validate_address f) as [f'|e1] eqn:Hf; cbn [mbind result_bind];
    [|intros [= <-]; apply validate_address_Err in Hf; eauto].
  destruct (validate_address t) as [t'|e2] eqn:Ht; cbn [mbind result_bind];
    [|intros [= <-]; apply validate_address_Err in Ht; eauto].
  destruct (validate_token_lists ft) as [ft'|e3] eqn:H3; cbn [mbind result_bind];
    [|intros [= <-]; by eapply validate_token_lists_Err].
  destruct (validate_token_lists tt) as [tt'|e4] eqn:H4; cbn [mbind result_bind];
    [|intros [= <-]; by eapply validate_token_lists_Err].
  destruct (validate_token_lists eft) as [eft'|e5] eqn:H5; cbn [mbind result_bind];
    [|intros [= <-]; by eapply validate_token_lists_Err].
  destruct (validate_token_lists ett) as [ett'|e6] eqn:H6; cbn [mbind result_bind];
    [|intros [= <-]; by eapply validate_token_lists_Err].
  done.
Qed.

Lemma new_FindPathParams_Ok f t a u ft tt eft ett (p : FindPathParams) :
  new_FindPathParams f t a u ft tt eft ett = Ok p ->
  from_addr p = lower f /\ to_addr p = lower t /\ target_flow p = a
  /\ use_wrapped_balances p = u.
Proof.
  unfold new_FindPathParams.
  intros (f' & (-> & _)%validate_address_Ok & H)%bind_Ok.
  apply bind_Ok in H as (t' & (-> & _)%validate_address_Ok & H).
  apply bind_Ok in H as (? & _ & H). apply bind_Ok in H as (? & _ & H).
  apply bind_Ok in H as (? & _ & H). apply bind_Ok in H as (? & _ & [= <-]).
  done.
Qed.

(** X15: the pathfinder calls of [transitive_transfer].  Without a
    pathfinder client it raises [CirclesSDKError] and makes no call.  With
    one, when [FindPathParams] rejects the arguments it raises pydantic's
    validation error and makes no call; otherwise it makes exactly one
    call, for the lower-cased addresses and the amount as given, and what
    the pathfinder raises is raised unchanged.  For two well-formed
    addresses and no token lists the call is made whatever the amount is
    and whether or not the two addresses differ: neither is checked. *)
Theorem transitive_transfer_calls
    (self : AdvancedTransfer) (from_addr to_addr : string) (amount : Z)
    (use_wrapped_balances : bool)
    (from_tokens to_tokens exclude_from_tokens exclude_to_tokens : option (list string))
    (tx_data : option (list Z)) :
  let run tokens1 tokens2 tokens3 tokens4 :=
    transitive_transfer int16 find_path self from_addr to_addr amount
      use_wrapped_balances tokens1 tokens2 tokens3 tokens4 tx_data in
  let outcome :=
    run from_tokens to_tokens exclude_from_tokens exclude_to_tokens in
  (_pathfinder_client self = false ->
   outcome = ([], Err (CirclesSDKError NotContextManager)))
  /\ (_pathfinder_client self = true ->
      match new_FindPathParams (lower from_addr) (lower to_addr) amount
              use_wrapped_balances from_tokens to_tokens
              exclude_from_tokens exclude_to_tokens with
      | Err e => outcome = ([], Err e) /\ exists m, e = PydanticValidationError m
      | Ok params =>
          outcome.1 = [CallFindPath params]
          /\ Types.from_addr params = lower from_addr
          /\ Types.to_addr params = lower to_addr
          /\ target_flow params = amount
          /\ forall e, find_path params = Err e -> outcome.2 = Err e
      end)
  /\ (_pathfinder_client self = true ->
      startswith "0x" (lower from_addr) = true -> String.length from_addr = 42%nat ->
      startswith "0x" (lower to_addr) = true -> String.length to_addr = 42%nat ->
      (run None None None None).1
      = [CallFindPath {| Types.from_addr := lower from_addr;
                         Types.to_addr := lower to_addr;
                         target_flow := amount;
                         Types.use_wrapped_balances := use_wrapped_balances;
                         Types.from_tokens := None;
                         Types.to_tokens := None;
                         Types.exclude_from_tokens := None;
                         Types.exclude_to_tokens := None |}]).
Proof.
  intros run outcome. unfold outcome, run, transitive_transfer,
    _truncate_to_six_decimals.
  split; [by intros ->|]. split.
  - intros ->. cbn [negb].
    destruct (new_FindPathParams _ _ _ _ _ _ _ _) as [params|e] eqn:Hp.
    + cbn [fst snd]. split; [done|].
      apply new_FindPathParams_Ok in Hp as (Hf & Ht & Ha & _).
      rewrite !lower_idemp in *. repeat (split; [done|]).
      intros e He. by rewrite He.
    + split; [done|]. by eapply new_FindPathParams_Err.
  - intros -> Hf Hfl Ht Htl. cbn [negb]. unfold new_FindPathParams.
    rewrite !validate_address_lower by done.
    cbn [mbind result_bind validate_token_lists mret result_ret]. done.
Qed.

End Orchestration.

Section AfterFindPath.

Import Advanced.

Variable int16 : string -> option Z.

Lemma after_find_path_no_totals
    (self : AdvancedTransfer) (from_addr to_addr : string)
    (tx_data : option (list Z)) (path : PathfindingResult)
    (m : gmap string TokenInfo.TokenInfoRow)
    (cache' : option TokenInfo.TokenInfoCache) :
  Forall valid_step (transfers path) ->
  TokenInfo.get_token_info_map_from_path path (Some (cache self)) = Ok (m, cache') ->
  TokenInfo.get_wrapped_token_totals_from_path path m = [] ->
  after_find_path int16 self from_addr to_addr tx_data path
  = (_ ← PathProcessor.assert_no_netted_flow_mismatch path;
     flow_matrix ← create_flow_matrix int16 from_addr to_addr
                      (max_flow path) (transfers path);
     mret (Flows.with_data tx_data flow_matrix,
           _build_approval_calls self from_addr from_addr
             ++ [ {| Builder.to := v2_hub_address self;
                     Builder.data :=
                       _encode_flow_matrix_call (Flows.with_data tx_data flow_matrix);
                     Builder.value := 0 |} ],
           default (cache self) cache')).
Proof.
  intros Hvalid Hm Htotals. unfold after_find_path.
  rewrite Hm. cbn [mbind result_bind]. rewrite Htotals.
  change (TokenInfo.get_expected_unwrapped_token_totals [] m)
    with (@nil (string * (Z * string))).
  rewrite replace_wrapped_tokens_id by done.
  cbn [mbind result_bind PathProcessor.has_inflationary existsb
       _check_approval_status negb app].
  destruct (PathProcessor.assert_no_netted_flow_mismatch path) as [[]|e];
    cbn [mbind result_bind]; [|done].
  destruct (create_flow_matrix _ _ _ _ _) as [fm|e]; cbn [mbind result_bind]; [|done].
  unfold Flows.with_data. by destruct tx_data as [[|b bs]|].
Qed.

Lemma flow_edges_with_data (tx_data : option (list Z)) (fm : FlowMatrix) :
  flow_edges (Flows.with_data tx_data fm) = flow_edges fm.
Proof. by destruct tx_data as [[|b bs]|]. Qed.

(** X16: what [transitive_transfer] does with the pathfinder's answer when
    the token lookup classifies no token owner of the (valid) path as a
    wrapper.  It returns exactly when the conservation check passes and
    [create_flow_matrix] encodes the path as it is for its [max_flow]; the
    FlowMatrix is the encoded one, with the transaction data on its stream
    when data was given; the batch is the approval call followed by the
    transfer call, both to the hub with value 0; the terminal edges sum to
    [max_flow]; and it fails with the error of the check or else of the
    encoder. *)
Theorem after_find_path_without_wrappers
    (self : AdvancedTransfer) (from_addr to_addr : string)
    (tx_data : option (list Z)) (path : PathfindingResult)
    (m : gmap string TokenInfo.TokenInfoRow)
    (cache' : option TokenInfo.TokenInfoCache) :
  Forall valid_step (transfers path) ->
  TokenInfo.get_token_info_map_from_path path (Some (cache self)) = Ok (m, cache') ->
  (forall t info,
     t ∈ transfers path ->
     m !! lower (token_owner t) = Some info -> TokenInfo.is_wrapped info = false) ->
  let after := after_find_path int16 self from_addr to_addr tx_data path in
  let check := PathProcessor.assert_no_netted_flow_mismatch path in
  let encoded :=
    create_flow_matrix int16 from_addr to_addr (max_flow path) (transfers path) in
  (forall fm batch c,
     after = Ok (fm, batch, c)
     <-> check = Ok tt
         /\ (exists fm0, encoded = Ok fm0 /\ fm = Flows.with_data tx_data fm0)
         /\ batch = [ {| Builder.to := v2_hub_address self;
                         Builder.data := _encode_approval_call from_addr true;
                         Builder.value := 0 |};
                      {| Builder.to := v2_hub_address self;
                         Builder.data := _encode_flow_matrix_call fm;
                         Builder.value := 0 |} ]
         /\ c = default (cache self) cache')
  /\ (forall fm batch c,
        after = Ok (fm, batch, c) ->
        terminal_total (flow_edges fm) = max_flow path)
  /\ (forall e,
        after = Err e <-> check = Err e \/ (check = Ok tt /\ encoded = Err e)).
Proof.
  intros Hvalid Hm Hnone after check encoded.
  assert (Hrun : after
                 = (_ ← check; flow_matrix ← encoded;
                    mret (Flows.with_data tx_data flow_matrix,
                          _build_approval_calls self from_addr from_addr
                            ++ [ {| Builder.to := v2_hub_address self;
                                    Builder.data :=
                                      _encode_flow_matrix_call
                                        (Flows.with_data tx_data flow_matrix);
                                    Builder.value := 0 |} ],
                          default (cache self) cache'))).
  { apply (after_find_path_no_totals self from_addr to_addr tx_data path m cache');
      [done..|]. by apply wrapped_totals_none. }
  assert (Hiff : forall fm batch c,
     after = Ok (fm, batch, c)
     <-> check = Ok tt
         /\ (exists fm0, encoded = Ok fm0 /\ fm = Flows.with_data tx_data fm0)
         /\ batch = [ {| Builder.to := v2_hub_address self;
                         Builder.data := _encode_approval_call from_addr true;
                         Builder.value := 0 |};
                      {| Builder.to := v2_hub_address self;
                         Builder.data := _encode_flow_matrix_call fm;
                         Builder.value := 0 |} ]
         /\ c = default (cache self) cache').
  { intros fm batch c. rewrite Hrun. split.
    - destruct check as [[]|e]; cbn [mbind result_bind]; [|done].
      destruct encoded as [fm0|e]; cbn [mbind result_bind mret result_ret]; [|done].
      intros [= <- <- <-]. split; [done|]. split; [by exists fm0|]. done.
    - intros (-> & (fm0 & -> & ->) & -> & ->). done. }
  split; [exact Hiff|]. split.
  - intros fm batch c (_ & (fm0 & Hfm0 & ->) & _)%Hiff.
    rewrite flow_edges_with_data.
    apply create_flow_matrix_Ok in Hfm0 as (idx & _ & _ & Hsum & _).
    by rewrite <- terminal_sum_total.
  - intros e. rewrite Hrun.
    destruct check as [[]|e1]; cbn [mbind result_bind].
    + destruct encoded as [fm0|e2]; cbn [mbind result_bind mret result_ret].
      * split; [done|]. by intros [?|[_ ?]].
      * split; [intros [= <-]; by right|]. by intros [?|[_ [= <-]]].
    + split; [intros [= <-]; by left|]. by intros [[= <-]|[? _]].
Qed.

End AfterFindPath.

Lemma get_token_info_map_total_witness :
  exists m cache',
    TokenInfo.get_token_info_map_from_path
      {| max_flow := 1000; transfers := Examples.two_hop |}
      (Some {| TokenInfo._cache := []; TokenInfo._max_size := 1000 |})
    = Ok (m, cache')
    /\ is_Some (m !! Examples.addr_A).
Proof.
  destruct (get_token_info_map_total
              {| max_flow := 1000; transfers := Examples.two_hop |}
              (Some {| TokenInfo._cache := []; TokenInfo._max_size := 1000 |}))
    as (m & cache' & Hm & Hkeys & _).
  { intros c [= <-]. cbn. lia. }
  exists m, cache'. split; [exact Hm|].
  apply Hkeys. exists (Examples.step Examples.addr_A Examples.addr_B Examples.addr_A 1000).
  split; [by left | vm_compute; reflexivity].
Defined.

Lemma transitive_transfer_calls_witness :
  (Advanced.transitive_transfer Examples.int16
     (fun _ => Err (NoPathFoundError (OtherMessage "no path")))
     {| Advanced.v2_hub_address := Examples.addr_D;
        Advanced.cache := {| TokenInfo._cache := []; TokenInfo._max_size := 1000 |};
        Advanced._pathfinder_client := true |}
     Examples.addr_A Examples.addr_A 0 false None None None None None).1
  = [Advanced.CallFindPath
       {| from_addr := Examples.addr_A; to_addr := Examples.addr_A;
          target_flow := 0; use_wrapped_balances := false;
          from_tokens := None; to_tokens := None;
          exclude_from_tokens := None; exclude_to_tokens := None |}].
Proof.
  destruct (transitive_transfer_calls Examples.int16
              (fun _ => Err (NoPathFoundError (OtherMessage "no path")))
              {| Advanced.v2_hub_address := Examples.addr_D;
                 Advanced.cache := {| TokenInfo._cache := [];
                                      TokenInfo._max_size := 1000 |};
                 Advanced._pathfinder_client := true |}
              Examples.addr_A Examples.addr_A 0 false None None None None None)
    as (_ & _ & H).
  apply H; reflexivity.
Defined.

Lemma after_find_path_without_wrappers_witness :
  exists fm batch c,
    Advanced.after_find_path Examples.int16
      {| Advanced.v2_hub_address := Examples.addr_D;
         Advanced.cache := {| TokenInfo._cache := []; TokenInfo._max_size := 1000 |};
         Advanced._pathfinder_client := true |}
      Examples.addr_A Examples.addr_C None
      {| max_flow := 1000; transfers := Examples.two_hop |}
    = Ok (fm, batch, c)
    /\ fm = Examples.two_hop_matrix /\ length batch = 2%nat.
Proof.
  set (self := {| Advanced.v2_hub_address := Examples.addr_D;
                  Advanced.cache := {| TokenInfo._cache := [];
                                       TokenInfo._max_size := 1000 |};
                  Advanced._pathfinder_client := true |}).
  set (path := {| max_flow := 1000; transfers := Examples.two_hop |}).
  destruct (token_map_total path (Some (Advanced.cache self)))
    as (m & cache' & Hm & _).
  { intros c [= <-]. cbn. lia. }
  assert (Hnone : forall t info,
            t ∈ transfers path ->
            m !! lower (token_owner t) = Some info ->
            TokenInfo.is_wrapped info = false).
  { intros t info _ Hinfo.
    destruct (token_map_entries _ _ _ _ Hm _ _ Hinfo) as [Hh|(c & [= <-] & Hc)];
      [by apply human_not_wrapped | done]. }
  destruct (after_find_path_without_wrappers Examples.int16 self
              Examples.addr_A Examples.addr_C None path m cache'
              two_hop_valid Hm Hnone) as (Hiff & _).
  exists Examples.two_hop_matrix,
    [ {| Builder.to := Advanced.v2_hub_address self;
         Builder.data := Advanced._encode_approval_call Examples.addr_A true;
         Builder.value := 0 |};
      {| Builder.to := Advanced.v2_hub_address self;
         Builder.data := Advanced._encode_flow_matrix_call Examples.two_hop_matrix;
         Builder.value := 0 |} ],
    (default (Advanced.cache self) cache').
  split; [|split; reflexivity].
  apply Hiff. split; [vm_compute; reflexivity|].
  split; [exists Examples.two_hop_matrix; split;
            [exact create_flow_matrix_two_hop | reflexivity]|].
  split; reflexivity.
Defined.

(** ** Wrapper totals and the rewriting pipeline *)

Section Totals.

Import TokenInfo.

Variable m : gmap string TokenInfoRow.

Lemma totals_step_get (acc : odict (Z * string)) (t : TransferStep) (a : string) :
  odict_get (Flows.totals_step m acc t) a
  = match Flows.wrapper_of m (lower (Types.token_owner t)) with
    | Some info =>
        if decide (lower (Types.token_owner t) = a)
        then Some (match odict_get acc a with
                   | Some (cur, wt) => (cur + value t, wt)
                   | None => (0 + value t, type info)
                   end)
        else odict_get acc a
    | None => odict_get acc a
    end.
Proof.
  unfold Flows.totals_step, Flows.wrapper_of.
  destruct (m !! lower (Types.token_owner t)) as [info|]; [|done].
  destruct (is_wrapped info); [|done]. cbv zeta.
  destruct (odict_get acc (lower (Types.token_owner t))) as [[cur wt]|] eqn:Hacc.
  - rewrite Hacc. cbn [default id]. rewrite odict_get_set.
    destruct (decide _) as [<-|]; [|done]. by rewrite Hacc.
  - rewrite odict_get_set, decide_True by done. cbn [default id].
    rewrite !odict_get_set.
    destruct (decide _) as [<-|]; [|done]. by rewrite Hacc.
Qed.

Lemma totals_step_NoDup (acc : odict (Z * string)) (t : TransferStep) :
  NoDup acc.*1 -> NoDup (Flows.totals_step m acc t).*1.
Proof.
  intros Hnd. unfold Flows.totals_step.
  destruct (m !! lower (Types.token_owner t)) as [info|]; [|done].
  destruct (is_wrapped info); [|done]. cbv zeta.
  destruct (odict_get acc _) as [[cur wt]|].
  - destruct (default _ _). by apply odict_set_NoDup.
  - destruct (default _ _). by do 2 apply odict_set_NoDup.
Qed.

Lemma totals_fold_get (ts : list TransferStep) (a : string) :
  forall acc : odict (Z * string),
    odict_get (foldl (Flows.totals_step m) acc ts) a
    = match Flows.wrapper_of m a with
      | Some info =>
          match odict_get acc a with
          | Some (cur, wt) => Some (cur + Flows.token_flow ts a, wt)
          | None =>
              if bool_decide (a ∈ Flows.token_owners ts)
              then Some (Flows.token_flow ts a, type info) else None
          end
      | None => odict_get acc a
      end.
Proof.
  induction ts as [|t ts IH]; intros acc; cbn [foldl Flows.token_flow].
  - destruct (Flows.wrapper_of m a) as [info|]; [|done].
    destruct (odict_get acc a) as [[cur wt]|]; [by rewrite Z.add_0_r|].
    rewrite bool_decide_eq_false_2; [done|]. apply not_elem_of_nil.
  - rewrite IH. unfold Flows.token_owners. rewrite fmap_cons.
    fold (Flows.token_owners ts).
    destruct (decide (lower (Types.token_owner t) = a)) as [Heq|Hne].
    + rewrite totals_step_get, Heq. rewrite (bool_decide_eq_true_2 (a = a)) by done.
      destruct (Flows.wrapper_of m a) as [info|]; [|done].
      rewrite decide_True by done.
      destruct (odict_get acc a) as [[cur wt]|].
      * f_equal; f_equal; lia.
      * rewrite (bool_decide_eq_true_2 (a ∈ _)) by (by left). f_equal; f_equal; lia.
    + rewrite (bool_decide_eq_false_2 _ Hne).
      assert (Hacc : odict_get (Flows.totals_step m acc t) a = odict_get acc a).
      { rewrite totals_step_get.
        destruct (Flows.wrapper_of m (lower (Types.token_owner t))); [|done].
        destruct (decide (lower (Types.token_owner t) = a)); done. }
      rewrite Hacc.
      destruct (Flows.wrapper_of m a) as [info|]; [|done].
      destruct (odict_get acc a) as [[cur wt]|]; [done|].
      destruct (decide (a ∈ Flows.token_owners ts)) as [Hin|Hout].
      * rewrite !bool_decide_eq_true_2; [done | by right | done].
      * rewrite !bool_decide_eq_false_2; [done | | done].
        by intros [->|?]%elem_of_cons.
Qed.

End Totals.

Section OrderedDictKeys.

Context {V : Type}.

Lemma odict_set_fst (d : odict V) (k : string) (v : V) :
  (odict_set d k v).*1 = if decide (k ∈ d.*1) then d.*1 else d.*1 ++ [k].
Proof.
  induction d as [|[k0 v0] d IH]; cbn [odict_set].
  - rewrite decide_False by apply not_elem_of_nil. done.
  - cbn [fmap list_fmap fst]. destruct (decide (k0 = k)) as [->|Hne].
    + rewrite decide_True by (by left). done.
    + cbn [fmap list_fmap fst].
      change (list_fmap _ _ fst (odict_set d k v)) with ((odict_set d k v).*1).
      change (list_fmap _ _ fst d) with (d.*1).
      rewrite IH. destruct (decide (k ∈ d.*1)) as [Hin|Hout].
      * rewrite decide_True by (by right). done.
      * rewrite decide_False; [done|]. by intros [->|?]%elem_of_cons.
Qed.

Lemma odict_get_is_Some (d : odict V) (a : string) :
  is_Some (odict_get d a) <-> a ∈ d.*1.
Proof.
  destruct (odict_get d a) as [v|] eqn:Hget.
  - split; [|by eexists]. intros _. apply odict_get_elem in Hget.
    apply list_elem_of_fmap. by exists (a, v).
  - split; [by intros [? ?]|]. by intros ?%odict_get_None.
Qed.

End OrderedDictKeys.

Section Totals2.

Import TokenInfo.

Variable m : gmap string TokenInfoRow.

Lemma totals_step_fst (acc : odict (Z * string)) (t : TransferStep) :
  (Flows.totals_step m acc t).*1
  = match Flows.wrapper_of m (lower (Types.token_owner t)) with
    | Some _ =>
        if decide (lower (Types.token_owner t) ∈ acc.*1) then acc.*1
        else acc.*1 ++ [lower (Types.token_owner t)]
    | None => acc.*1
    end.
Proof.
  unfold Flows.totals_step, Flows.wrapper_of.
  destruct (m !! lower (Types.token_owner t)) as [info|]; [|done].
  destruct (is_wrapped info); [|done]. cbv zeta.
  destruct (odict_get acc (lower (Types.token_owner t))) as [[cur wt]|] eqn:Hacc.
  - rewrite Hacc. cbn [default id]. rewrite odict_set_fst.
    assert (Hin : lower (Types.token_owner t) ∈ acc.*1).
    { apply odict_get_is_Some. by rewrite Hacc. }
    by rewrite !decide_True by done.
  - assert (Hout : lower (Types.token_owner t) ∉ acc.*1).
    { by apply odict_get_None. }
    rewrite odict_get_set, decide_True by done. cbn [default id].
    rewrite !odict_set_fst. rewrite (decide_False _ _ Hout).
    rewrite decide_True; [done|]. apply elem_of_app. right. by left.
Qed.

Lemma totals_fold_fst (ts : list TransferStep) :
  forall acc : odict (Z * string),
    (foldl (Flows.totals_step m) acc ts).*1
    = foldl (fun seen x => if decide (x ∈ seen) then seen else seen ++ [x])
            acc.*1
            (filter (fun a => is_Some (Flows.wrapper_of m a)) (Flows.token_owners ts)).
Proof.
  induction ts as [|t ts IH]; intros acc; cbn [foldl]; [done|].
  rewrite IH, totals_step_fst. unfold Flows.token_owners. rewrite fmap_cons, filter_cons.
  fold (Flows.token_owners ts).
  destruct (decide (is_Some (Flows.wrapper_of m (lower (Types.token_owner t)))))
    as [[info Hw]|Hn].
  - by rewrite Hw.
  - apply eq_None_not_Some in Hn. by rewrite Hn.
Qed.

Lemma unwrapped_fold_get (totals : odict (Z * string)) :
  NoDup totals.*1 ->
  forall (acc : odict (Z * string)) (a : string),
    odict_get
      (foldl (fun unwrapped '(wrapper_addr, (total, token_type)) =>
                match m !! lower wrapper_addr with
                | None => unwrapped
                | Some info =>
                    let is_demurraged :=
                      bool_decide (token_type = CRC_V2_ERC20_WRAPPER_DEMURRAGED) in
                    let is_inflationary :=
                      bool_decide (token_type = CRC_V2_ERC20_WRAPPER_INFLATIONARY) in
                    let unwrap_amount :=
                      if is_demurraged then total
                      else if is_inflationary
                           then _atto_circles_to_atto_static_circles total
                           else total in
                    let available_after_unwrap :=
                      if is_demurraged then unwrap_amount
                      else _atto_static_circles_to_atto_circles unwrap_amount in
                    odict_set unwrapped wrapper_addr
                              (available_after_unwrap, token_owner info)
                end)
             acc totals) a
    = match odict_get totals a with
      | Some (total, _) =>
          match m !! lower a with
          | Some info => Some (total, token_owner info)
          | None => odict_get acc a
          end
      | None => odict_get acc a
      end.
Proof.
  induction totals as [|[k [total ty]] totals IH]; intros Hnd acc a;
    cbn [foldl odict_get]; [done|].
  cbn [fmap list_fmap fst] in Hnd. apply NoDup_cons in Hnd as [Hk Hnd].
  rewrite IH by done.
  destruct (decide (k = a)) as [->|Hne].
  - assert (Hnone : odict_get totals a = None) by (by apply odict_get_None).
    rewrite Hnone. destruct (m !! lower a) as [info|]; [|done].
    cbv zeta. rewrite odict_get_set, decide_True by done.
    unfold _atto_static_circles_to_atto_circles, _atto_circles_to_atto_static_circles.
    by repeat case_bool_decide.
  - destruct (odict_get totals a) as [[total' ty']|].
    + destruct (m !! lower a) as [info|]; [done|].
      destruct (m !! lower k) as [info'|]; [|done].
      cbv zeta. by rewrite odict_get_set, decide_False.
    + destruct (m !! lower k) as [info'|]; [|done].
      cbv zeta. by rewrite odict_get_set, decide_False.
Qed.

Lemma build_unwrap_calls_to (totals : odict (Z * string)) :
  Builder.unwrap_to <$> Builder.build_unwrap_calls totals = totals.*1
  /\ Forall (fun call => Builder.unwrap_value call = 0)
            (Builder.build_unwrap_calls totals).
Proof.
  unfold Builder.build_unwrap_calls.
  assert (H : forall acc : list Builder.UnwrapCall,
    let r := foldl (fun unwrap_calls '(wrapper_addr, (total_value, wrapper_type)) =>
                      unwrap_calls ++
                        [ {| Builder.unwrap_to := wrapper_addr;
                             Builder.unwrap_data := Builder.bytes_of "unwrap_placeholder";
                             Builder.unwrap_value := 0 |} ])
                   acc totals in
    Builder.unwrap_to <$> r = (Builder.unwrap_to <$> acc) ++ totals.*1
    /\ (Forall (fun call => Builder.unwrap_value call = 0) acc ->
        Forall (fun call => Builder.unwrap_value call = 0) r)).
  { induction totals as [|[k [total ty]] totals IH]; intros acc; cbn [foldl].
    - cbn zeta. split; [by rewrite app_nil_r | done].
    - cbn zeta in *. destruct (IH (acc ++ [ {| Builder.unwrap_to := k;
                 Builder.unwrap_data := Builder.bytes_of "unwrap_placeholder";
                 Builder.unwrap_value := 0 |} ])) as [Hto Hval].
      split.
      + rewrite Hto, fmap_app, <- app_assoc. done.
      + intros Hacc. apply Hval, Forall_app. split; [done|]. by repeat constructor. }
  destruct (H []) as [Hto Hval]. split; [exact Hto | by apply Hval].
Qed.

Lemma has_inflationary_spec (totals : odict (Z * string)) :
  PathProcessor.has_inflationary totals = true
  <-> exists a total,
        (a, (total, "CrcV2_ERC20WrapperDeployed_Inflationary")) ∈ totals.
Proof.
  unfold PathProcessor.has_inflationary. induction totals as [|[k [total ty]] totals IH];
    cbn [existsb].
  - split; [done|]. by intros (? & ? & ?%elem_of_nil).
  - rewrite orb_true_iff, IH, bool_decide_eq_true. split.
    + intros [->|(a & tot & Hin)]; [exists k, total; by left|].
      exists a, tot. by right.
    + intros (a & tot & [[= -> -> ->]|Hin]%elem_of_cons); [by left|].
      right. by exists a, tot.
Qed.

End Totals2.

Section TotalsTheorem.

Import TokenInfo.

Lemma token_owners_elem (ts : list TransferStep) (a : string) :
  a ∈ Flows.token_owners ts <-> exists t, t ∈ ts /\ lower (Types.token_owner t) = a.
Proof.
  unfold Flows.token_owners. rewrite list_elem_of_fmap. split.
  - intros (t & -> & Ht). by exists t.
  - intros (t & Ht & <-). by exists t.
Qed.

Lemma wrapper_of_Some (m : gmap string TokenInfoRow) (a : string) (info : TokenInfoRow) :
  Flows.wrapper_of m a = Some info <-> m !! a = Some info /\ is_wrapped info = true.
Proof.
  unfold Flows.wrapper_of. destruct (m !! a) as [info'|]; [|by split; [|intros [? _]]].
  destruct (is_wrapped info') eqn:Hw.
  - split; [by intros [= <-] | by intros [[= <-] _]].
  - split; [done|]. intros [[= <-] ?]. congruence.
Qed.

Lemma totals_fold_NoDup (m : gmap string TokenInfoRow) (ts : list TransferStep) :
  forall acc : odict (Z * string),
    NoDup acc.*1 -> NoDup (foldl (Flows.totals_step m) acc ts).*1.
Proof.
  induction ts as [|t ts IH]; intros acc Hacc; cbn [foldl]; [done|].
  by apply IH, totals_step_NoDup.
Qed.

Lemma wrapped_totals_get (path : PathfindingResult) (m : gmap string TokenInfoRow)
    (a : string) :
  odict_get (get_wrapped_token_totals_from_path path m) a
  = if bool_decide (a ∈ Flows.token_owners (transfers path))
    then (fun info => (Flows.token_flow (transfers path) a, type info)) <$> Flows.wrapper_of m a
    else None.
Proof.
  change (get_wrapped_token_totals_from_path path m)
    with (foldl (Flows.totals_step m) [] (transfers path)).
  rewrite totals_fold_get. cbn [odict_get].
  destruct (Flows.wrapper_of m a) as [info|]; [done|]. by case_bool_decide.
Qed.

Lemma unwrapped_totals_get (path : PathfindingResult) (m : gmap string TokenInfoRow)
    (a : string) :
  odict_get (get_expected_unwrapped_token_totals
               (get_wrapped_token_totals_from_path path m) m) a
  = if bool_decide (a ∈ Flows.token_owners (transfers path))
    then (fun info => (Flows.token_flow (transfers path) a, token_owner info))
           <$> Flows.wrapper_of m a
    else None.
Proof.
  assert (Hnd : NoDup (get_wrapped_token_totals_from_path path m).*1).
  { apply totals_fold_NoDup. constructor. }
  etrans; [exact (unwrapped_fold_get m _ Hnd [] a)|].
  rewrite wrapped_totals_get. cbn [odict_get].
  destruct (decide (a ∈ Flows.token_owners (transfers path))) as [Hin|Hout].
  - rewrite bool_decide_eq_true_2 by done.
    destruct (Flows.wrapper_of m a) as [info|] eqn:Hw; [|done].
    cbn [fmap option_fmap option_map].
    apply wrapper_of_Some in Hw as [Hm _].
    apply token_owners_elem in Hin as (t & _ & <-).
    rewrite lower_idemp, Hm. done.
  - by rewrite bool_decide_eq_false_2.
Qed.

(** X18: the wrapper totals of a path, for a given token map.
    [get_wrapped_token_totals_from_path] has one entry per token owner of
    the path that the map classifies as a wrapper, in the order in which
    these owners first occur; the entry holds the sum of the values of the
    steps in that token and the wrapper's type.
    [get_expected_unwrapped_token_totals] gives each of them the same
    amount and the avatar recorded in the map; [build_unwrap_calls] makes
    one call per entry, to the wrapper, in the same order; and an
    inflationary wrapper is reported exactly when a step uses one. *)
Theorem wrapped_token_totals_spec
    (path : PathfindingResult) (m : gmap string TokenInfoRow) :
  let ts := transfers path in
  let totals := get_wrapped_token_totals_from_path path m in
  let unwrapped := get_expected_unwrapped_token_totals totals m in
  totals.*1
  = Flows.first_occurrences (filter (fun a => is_Some (Flows.wrapper_of m a)) (Flows.token_owners ts))
  /\ NoDup totals.*1
  /\ (forall a,
        odict_get totals a
        = if bool_decide (a ∈ Flows.token_owners ts)
          then (fun info => (Flows.token_flow ts a, type info)) <$> Flows.wrapper_of m a
          else None)
  /\ (forall a,
        odict_get unwrapped a
        = if bool_decide (a ∈ Flows.token_owners ts)
          then (fun info => (Flows.token_flow ts a, token_owner info)) <$> Flows.wrapper_of m a
          else None)
  /\ Builder.unwrap_to <$> Builder.build_unwrap_calls totals = totals.*1
  /\ (PathProcessor.has_inflationary totals = true
      <-> exists t info,
            t ∈ ts /\ Flows.wrapper_of m (lower (Types.token_owner t)) = Some info
            /\ type info = "CrcV2_ERC20WrapperDeployed_Inflationary").
Proof.
  intros ts totals unwrapped.
  assert (Hfold : totals = foldl (Flows.totals_step m) [] ts) by reflexivity.
  assert (Hnd : NoDup totals.*1).
  { rewrite Hfold. apply totals_fold_NoDup. constructor. }
  pose proof (wrapped_totals_get path m) as Hget. fold totals ts in Hget.
  split; [by rewrite Hfold, totals_fold_fst|].
  split; [done|]. split; [done|]. split; [|split].
  - apply unwrapped_totals_get.
  - apply build_unwrap_calls_to.
  - rewrite has_inflationary_spec. split.
    + intros (a & total & Hin). apply odict_elem_get in Hin; [|done].
      rewrite Hget in Hin.
      destruct (decide (a ∈ Flows.token_owners ts)) as [Ha|Ha];
        [rewrite bool_decide_eq_true_2 in Hin by done
        |by rewrite bool_decide_eq_false_2 in Hin].
      destruct (Flows.wrapper_of m a) as [info|] eqn:Hw; [|done].
      injection Hin as _ Hty.
      apply token_owners_elem in Ha as (t & Ht & <-). by exists t, info.
    + intros (t & info & Ht & Hw & Hty).
      exists (lower (Types.token_owner t)), (Flows.token_flow ts (lower (Types.token_owner t))).
      apply odict_get_elem. rewrite Hget, Hw, bool_decide_eq_true_2.
      * cbn. by rewrite Hty.
      * apply token_owners_elem. by exists t.
Qed.

End TotalsTheorem.

Section WrapperPipeline.

Import TokenInfo PathProcessor.

Lemma has_inflationary_uses (path : PathfindingResult) (m : gmap string TokenInfoRow) :
  has_inflationary (get_wrapped_token_totals_from_path path m) = true
  <-> Flows.uses_inflationary m (transfers path).
Proof.
  assert (Hnd : NoDup (get_wrapped_token_totals_from_path path m).*1).
  { apply totals_fold_NoDup. constructor. }
  rewrite has_inflationary_spec. unfold Flows.uses_inflationary. split.
  - intros (a & total & Hin). apply odict_elem_get in Hin; [|done].
    rewrite wrapped_totals_get in Hin.
    destruct (decide (a ∈ Flows.token_owners (transfers path))) as [Ha|Ha];
      [rewrite bool_decide_eq_true_2 in Hin by done
      |by rewrite bool_decide_eq_false_2 in Hin].
    destruct (Flows.wrapper_of m a) as [info|] eqn:Hw; [|done].
    injection Hin as _ Hty.
    apply token_owners_elem in Ha as (t & Ht & <-). by exists t, info.
  - intros (t & info & Ht & Hw & Hty).
    exists (lower (Types.token_owner t)),
      (Flows.token_flow (transfers path) (lower (Types.token_owner t))).
    apply odict_get_elem. rewrite wrapped_totals_get, Hw, bool_decide_eq_true_2.
    + cbn. by rewrite Hty.
    + apply token_owners_elem. by exists t.
Qed.

Lemma substituted_unwrapped_step (path : PathfindingResult)
    (m : gmap string TokenInfoRow) (t : TransferStep) :
  t ∈ transfers path ->
  Flows.substituted
    (get_expected_unwrapped_token_totals
       (get_wrapped_token_totals_from_path path m) m) t
  = Flows.unwrapped_step m t.
Proof.
  intros Ht. unfold Flows.substituted, Flows.unwrapped_step.
  rewrite unwrapped_totals_get, bool_decide_eq_true_2
    by (apply token_owners_elem; by exists t).
  by destruct (Flows.wrapper_of m _).
Qed.

Lemma prefix_lower (p s : string) :
  String.prefix p s = true -> String.prefix (lower p) (lower s) = true.
Proof.
  revert s. induction p as [|a p IH]; intros s; [intros _; by destruct s|].
  destruct s as [|b s]; [done|]. cbn [String.prefix lower].
  destruct (ascii_dec a b) as [->|]; [|done]. intros Hp.
  destruct (ascii_dec (lower_ascii b) (lower_ascii b)); [by apply IH | done].
Qed.

Lemma validate_address_lower_Ok (a : string) :
  is_ok (validate_address a) = true -> validate_address (lower a) = Ok (lower a).
Proof.
  destruct (validate_address a) as [r|] eqn:Ha; [|done]. intros _.
  apply validate_address_Ok in Ha as (_ & Hp & Hl).
  unfold validate_address, len_str. rewrite length_lower, Hl, lower_idemp.
  assert (Hpl : startswith "0x" (lower a) = true).
  { unfold startswith in *. by apply (prefix_lower "0x" a). }
  rewrite Hpl. done.
Qed.

Lemma replace_wrapped_tokens_cases
    (path : PathfindingResult) (unwrapped_totals : odict (Z * string)) :
  Forall valid_step (transfers path) ->
  match replace_wrapped_tokens path unwrapped_totals with
  | Ok path' =>
      path' = {| max_flow := max_flow path;
                 transfers := Flows.substituted unwrapped_totals <$> transfers path |}
      /\ forall t info,
           t ∈ transfers path ->
           odict_get unwrapped_totals (lower (Types.token_owner t)) = Some info ->
           is_ok (validate_address info.2) = true
  | Err e =>
      exists t info,
        t ∈ transfers path
        /\ odict_get unwrapped_totals (lower (Types.token_owner t)) = Some info
        /\ validate_address info.2 = Err e
  end.
Proof.
  intros Hvalid. rewrite Forall_forall in Hvalid. unfold replace_wrapped_tokens.
  destruct (mapM _ (transfers path)) as [k|e] eqn:Hk; cbn [mbind result_bind mret result_ret].
  - apply mapM_Ok_inv in Hk.
    assert (H : k = Flows.substituted unwrapped_totals <$> transfers path
                /\ forall t info,
                     t ∈ transfers path ->
                     odict_get unwrapped_totals (lower (Types.token_owner t)) = Some info ->
                     is_ok (validate_address info.2) = true).
    { induction Hk as [|x y l k Hxy _ IH]; [split; [done|by intros ? ? ?%elem_of_nil]|].
      destruct IH as [-> Hok]; [intros z Hz; apply Hvalid; by right|].
      rewrite replace_step in Hxy by (apply Hvalid; by left).
      split.
      - rewrite fmap_cons. f_equal.
        destruct (odict_get _ _) as [info|]; [|by injection Hxy].
        destruct (validate_address info.2); [by injection Hxy | done].
      - intros t info [->|Ht]%elem_of_cons Hget; [|by eapply Hok].
        rewrite Hget in Hxy. by destruct (validate_address info.2). }
    destruct H as [-> Hok]. done.
  - apply mapM_Err_inv in Hk as (t & Ht & He).
    rewrite replace_step in He by (by apply Hvalid).
    destruct (odict_get _ _) as [info|] eqn:Hget; [|done].
    exists t, info. split; [done|]. split; [done|].
    destruct (validate_address info.2); [done | by injection He as ->].
Qed.

Lemma unwrapped_step_valid (m : gmap string TokenInfoRow) (t : TransferStep) :
  valid_step t ->
  (forall info, Flows.wrapper_of m (lower (Types.token_owner t)) = Some info ->
                is_ok (validate_address (token_owner info)) = true) ->
  valid_step (Flows.unwrapped_step m t).
Proof.
  intros Hv Hok. unfold Flows.unwrapped_step.
  destruct (Flows.wrapper_of m _) as [info|]; [|done].
  apply valid_step_addresses in Hv as (Hf & Ht & _).
  unfold valid_step, new_TransferStep. cbn [from_address to_address Types.token_owner value].
  rewrite Hf, Ht, (validate_address_lower_Ok _ (Hok info eq_refl)).
  cbn [mbind result_bind mret result_ret]. done.
Qed.

(** X19: [process_path_for_wrapped_tokens] on a path of valid steps, once
    the token lookup has returned its map.  It returns exactly when the
    avatar of every wrapper used by a step is a well-formed address, and
    otherwise raises the validator's error for such an avatar.  The flag
    it returns tells whether a step uses an inflationary wrapper.  Without
    one the path returned has the [max_flow] of the input and, step by
    step, the input step with a wrapper replaced by its lower-cased
    avatar; with one, these steps are shrunk by the default retention and
    [max_flow] is what then arrives at the first sink.  The cache is the
    one the lookup left. *)
Theorem process_path_with_wrappers
    (path : PathfindingResult) (cache cache' : option TokenInfoCache)
    (m : gmap string TokenInfoRow) :
  Forall valid_step (transfers path) ->
  get_token_info_map_from_path path cache = Ok (m, cache') ->
  let rewritten := Flows.unwrapped_step m <$> transfers path in
  let shrunk := Flows.shrunk default_retain_bps rewritten in
  (is_ok (process_path_for_wrapped_tokens path cache) = true
   <-> forall t info,
         t ∈ transfers path ->
         Flows.wrapper_of m (lower (Types.token_owner t)) = Some info ->
         is_ok (validate_address (token_owner info)) = true)
  /\ (forall result flag c,
        process_path_for_wrapped_tokens path cache = Ok (result, flag, c) ->
        c = cache'
        /\ (flag = true <-> Flows.uses_inflationary m (transfers path))
        /\ result
           = if flag
             then {| max_flow :=
                       match Flows.first_sink shrunk with
                       | Some sink => Flows.inflow shrunk sink
                       | None => 0
                       end;
                     transfers := shrunk |}
             else {| max_flow := max_flow path; transfers := rewritten |})
  /\ (forall e,
        process_path_for_wrapped_tokens path cache = Err e ->
        exists t info,
          t ∈ transfers path
          /\ Flows.wrapper_of m (lower (Types.token_owner t)) = Some info
          /\ validate_address (token_owner info) = Err e).
Proof.
  intros Hvalid Hm rewritten shrunk.
  set (totals := get_wrapped_token_totals_from_path path m).
  set (unwrapped := get_expected_unwrapped_token_totals totals m).
  assert (Hget : forall t, t ∈ transfers path ->
            odict_get unwrapped (lower (Types.token_owner t))
            = (fun info => (Flows.token_flow (transfers path) (lower (Types.token_owner t)),
                            token_owner info))
                <$> Flows.wrapper_of m (lower (Types.token_owner t))).
  { intros t Ht. unfold unwrapped, totals.
    rewrite unwrapped_totals_get, bool_decide_eq_true_2; [done|].
    apply token_owners_elem. by exists t. }
  assert (Hsub : Flows.substituted unwrapped <$> transfers path = rewritten).
  { apply list_fmap_ext. intros _ t Ht%list_elem_of_lookup_2.
    by apply substituted_unwrapped_step. }
  pose proof (replace_wrapped_tokens_cases path unwrapped Hvalid) as Hrep.
  assert (Hrun : process_path_for_wrapped_tokens path cache
                 = (path_unwrapped ← replace_wrapped_tokens path unwrapped;
                    if has_inflationary totals
                    then shrunk_path ← shrink_path_values path_unwrapped
                                         default_retain_bps;
                         mret (shrunk_path, true, cache')
                    else mret (path_unwrapped, false, cache'))).
  { unfold process_path_for_wrapped_tokens. by rewrite Hm. }
  destruct (replace_wrapped_tokens path unwrapped) as [path'|e0] eqn:Hr.
  - destruct Hrep as [-> Hok]. rewrite Hsub in Hrun.
    assert (Hok' : forall t info,
              t ∈ transfers path ->
              Flows.wrapper_of m (lower (Types.token_owner t)) = Some info ->
              is_ok (validate_address (token_owner info)) = true).
    { intros t info Ht Hw.
      apply (Hok t (Flows.token_flow (transfers path) (lower (Types.token_owner t)),
                    token_owner info) Ht).
      by rewrite (Hget t Ht), Hw. }
    assert (Hrv : Forall valid_step rewritten).
    { apply Forall_fmap, Forall_forall. intros t Ht.
      apply unwrapped_step_valid; [by eapply Forall_forall in Hvalid|].
      intros info. by apply Hok'. }
    pose proof (shrink_path_values_run default_retain_bps
                  {| max_flow := max_flow path; transfers := rewritten |} Hrv) as Hshrink.
    cbn [transfers] in Hshrink. fold shrunk in Hshrink.
    cbn [mbind result_bind] in Hrun. rewrite Hshrink in Hrun.
    cbn [mbind result_bind mret result_ret] in Hrun.
    pose proof (has_inflationary_uses path m) as Hinfl. fold totals in Hinfl.
    split; [|split].
    + split; [done|]. intros _. rewrite Hrun. by destruct (has_inflationary totals).
    + intros result flag c. rewrite Hrun.
      destruct (has_inflationary totals); intros [= <- <- <-].
      * split; [done|]. split; [|done]. by rewrite <- Hinfl.
      * split; [done|]. split; [|done]. rewrite <- Hinfl. done.
    + intros e. rewrite Hrun. by destruct (has_inflationary totals).
  - destruct Hrep as (t & info & Ht & Hinfo & He).
    cbn [mbind result_bind] in Hrun.
    rewrite (Hget t Ht) in Hinfo.
    destruct (Flows.wrapper_of m (lower (Types.token_owner t))) as [row|] eqn:Hw; [|done].
    injection Hinfo as <-. cbn [snd] in He.
    split; [|split].
    + rewrite Hrun. split; [done|]. intros Hall.
      specialize (Hall t row Ht Hw). by rewrite He in Hall.
    + intros result flag c. by rewrite Hrun.
    + intros e. rewrite Hrun. intros [= <-]. by exists t, row.
Qed.

End WrapperPipeline.

Lemma process_path_with_wrappers_witness :
  exists cache',
    PathProcessor.process_path_for_wrapped_tokens
      {| max_flow := 1000; transfers := Examples.two_hop |}
      (Some Examples.wrapper_cache)
    = Ok ({| max_flow := 1000;
             transfers :=
               [ Examples.step Examples.addr_A Examples.addr_B Examples.addr_D 1000;
                 Examples.step Examples.addr_B Examples.addr_C Examples.addr_B 1000 ] |},
          false, cache').
Proof.
  set (path := {| max_flow := 1000; transfers := Examples.two_hop |}).
  set (s1 := Examples.step Examples.addr_A Examples.addr_B Examples.addr_A 1000).
  set (s2 := Examples.step Examples.addr_B Examples.addr_C Examples.addr_B 1000).
  destruct (token_map_total path (Some Examples.wrapper_cache))
    as (m & cache' & Hm & _).
  { intros c [= <-]. cbn. lia. }
  pose proof (token_map_lookup path _ cache' m Hm) as Hlook.
  assert (HA : Flows.wrapper_of m (lower (token_owner s1)) = Some Examples.wrapper_row).
  { pose proof (Hlook s1 ltac:(by left)) as H1. cbv zeta in H1.
    assert (Hc : Some Examples.wrapper_cache
                   ≫= (fun c => TokenInfo.cache_get c (lower (token_owner s1)))
                 = Some Examples.wrapper_row) by (vm_compute; reflexivity).
    rewrite Hc in H1. unfold Flows.wrapper_of. rewrite H1. reflexivity. }
  assert (HB : Flows.wrapper_of m (lower (token_owner s2)) = None).
  { pose proof (Hlook s2 ltac:(by right; left)) as H2. cbv zeta in H2.
    assert (Hc : Some Examples.wrapper_cache
                   ≫= (fun c => TokenInfo.cache_get c (lower (token_owner s2)))
                 = None) by (vm_compute; reflexivity).
    rewrite Hc in H2. destruct H2 as (info & Hinfo & _ & _ & Hty).
    unfold Flows.wrapper_of. rewrite Hinfo. by rewrite (human_not_wrapped info Hty). }
  assert (Hsteps : forall t, t ∈ transfers path -> t = s1 \/ t = s2).
  { intros t [->|[->|[]%elem_of_nil]%elem_of_cons]%elem_of_cons; [by left | by right]. }
  destruct (process_path_with_wrappers path (Some Examples.wrapper_cache) cache' m
              two_hop_valid Hm) as (Hok & Hres & _).
  assert (Hall : is_ok (PathProcessor.process_path_for_wrapped_tokens
                          path (Some Examples.wrapper_cache)) = true).
  { apply Hok. intros t info [->| ->]%Hsteps Hw.
    - rewrite HA in Hw. injection Hw as <-. vm_compute. reflexivity.
    - by rewrite HB in Hw. }
  destruct (PathProcessor.process_path_for_wrapped_tokens path _)
    as [[[result flag] c]|] eqn:Hp; [|done].
  destruct (Hres _ _ _ eq_refl) as (-> & Hflag & ->).
  exists cache'. destruct flag.
  - exfalso. destruct (proj1 Hflag eq_refl) as (t & info & [->| ->]%Hsteps & Hw & Hty).
    + rewrite HA in Hw. injection Hw as <-. vm_compute in Hty. discriminate.
    + by rewrite HB in Hw.
  - do 3 f_equal. cbn [transfers path Examples.two_hop fmap list_fmap].
    fold s1 s2. unfold Flows.unwrapped_step. rewrite HA, HB. reflexivity.
Defined.

(** ** The simple transfer *)

Section SimpleProperties.

Import Simple.

Variable int16 : string -> option Z.
Variable int10 : string -> option Z.
Variable find_path : FindPathParams -> result PathfindingResult.

Lemma check_address_Ok (name addr : string) :
  (if negb (startswith "0x" addr) || negb (len_str addr =? 42)
   then Err (ValidationError (InvalidParameter name addr))
   else Ok tt) = Ok tt
  <-> Flows.well_formed addr.
Proof.
  unfold Flows.well_formed, len_str.
  destruct (startswith "0x" addr); cbn [negb orb]; [|by split; [|intros [? _]]].
  destruct (Z.eqb_spec (Z.of_nat (String.length addr)) 42); cbn [negb].
  - split; [intros _; split; [done|lia] | done].
  - split; [done|]. intros [_ ?]. lia.
Qed.

Lemma validate_transfer_params_cases (from_addr to_addr amount : string) :
  (_validate_transfer_params int10 from_addr to_addr amount = Ok tt
   <-> Flows.well_formed from_addr /\ Flows.well_formed to_addr
       /\ (exists n, int10 amount = Some n /\ 0 < n)
       /\ lower from_addr <> lower to_addr)
  /\ (forall e,
        _validate_transfer_params int10 from_addr to_addr amount = Err e ->
        exists m, e = ValidationError m).
Proof.
  unfold _validate_transfer_params. cbn [for_each].
  pose proof (check_address_Ok "from_addr" from_addr) as Hf.
  pose proof (check_address_Ok "to_addr" to_addr) as Ht.
  destruct (if negb (startswith "0x" from_addr) || _ then _ else _) as [[]|e1] eqn:H1.
  2:{ cbn [mbind result_bind]. split.
      - split; [done|]. intros [Hwf _]. apply Hf in Hwf. congruence.
      - intros e [= <-]. revert H1.
        destruct (negb (startswith "0x" from_addr) || negb (len_str from_addr =? 42));
          [intros [= <-]; eauto | done]. }
  destruct (if negb (startswith "0x" to_addr) || _ then _ else _) as [[]|e2] eqn:H2.
  2:{ cbn [mbind result_bind]. split.
      - split; [done|]. intros (_ & Hwt & _). apply Ht in Hwt. congruence.
      - intros e [= <-]. revert H2.
        destruct (negb (startswith "0x" to_addr) || negb (len_str to_addr =? 42));
          [intros [= <-]; eauto | done]. }
  cbn [mbind result_bind].
  destruct (int10 amount) as [n|]; cbn [mbind result_bind].
  2:{ split; [|intros e [= <-]; eauto].
      split; [done|]. by intros (_ & _ & (n & ? & _) & _). }
  destruct (Z.leb_spec n 0); cbn [mbind result_bind].
  { split; [|intros e [= <-]; eauto].
    split; [done|]. intros (_ & _ & (n' & [= <-] & ?) & _). lia. }
  case_bool_decide as Heq.
  - split; [|intros e [= <-]; eauto]. split; [done|]. by intros (_ & _ & _ & ?).
  - split; [|done]. split; [|done]. intros _.
    split; [by apply Hf|]. split; [by apply Ht|]. split; [|done].
    exists n. split; [done|lia].
Qed.

(** X20: [SimpleTransfer._validate_transfer_params] accepts its arguments
    exactly when both addresses start with [0x] and have 42 characters,
    [int] reads the amount as a positive integer, and the two addresses
    differ when lower-cased; whatever it raises is the SDK's
    [ValidationError]. *)
Theorem validate_transfer_params_spec (from_addr to_addr amount : string) :
  (_validate_transfer_params int10 from_addr to_addr amount = Ok tt
   <-> Flows.well_formed from_addr /\ Flows.well_formed to_addr
       /\ (exists n, int10 amount = Some n /\ 0 < n)
       /\ lower from_addr <> lower to_addr)
  /\ (forall e,
        _validate_transfer_params int10 from_addr to_addr amount = Err e ->
        exists m, e = ValidationError m).
Proof. apply validate_transfer_params_cases. Qed.

Lemma except_Exception_Err {A} (body : result A) (e : exn) :
  except_Exception body = Err e -> is_validation_or_pathfinding e = true.
Proof.
  unfold except_Exception. destruct body as [a|e0]; [done|].
  destruct (is_validation_or_pathfinding e0) eqn:He0; by intros [= <-].
Qed.

Lemma except_Exception_Ok {A} (body : result A) (a : A) :
  except_Exception body = Ok a <-> body = Ok a.
Proof.
  unfold except_Exception. destruct body as [a0|e0]; [done|].
  by destruct (is_validation_or_pathfinding e0).
Qed.

Lemma _convert_transfers_valid (ts : list TransferStep) :
  Forall valid_step ts -> _convert_transfers ts = Ok ts.
Proof.
  intros Hv. unfold _convert_transfers. rewrite (mapM_Ok_fmap _ id).
  - by rewrite list_fmap_id.
  - intros t Ht. eapply Forall_forall in Hv; [|exact Ht]. exact Hv.
Qed.

(** X21: [SimpleTransfer.transfer].  When the lower-cased arguments do not
    pass the validation it raises [ValidationError] and calls nothing; it
    makes at most one pathfinder call; whatever it raises is a
    [ValidationError] or a [PathfindingError] (or one of its subclasses);
    and when it returns a FlowMatrix, one [find_path] call was made for
    the lower-cased addresses and the amount, the pathfinder answered with
    a path, and the FlowMatrix is what [create_flow_matrix] makes of the
    steps of that path for its [max_flow], the sum of its terminal edges
    being that [max_flow]. *)
Theorem simple_transfer_spec
    (from_addr to_addr amount : string) (use_wrapped_balances : bool)
    (from_tokens to_tokens exclude_from_tokens exclude_to_tokens : option (list string)) :
  let run :=
    transfer int16 int10 find_path from_addr to_addr amount use_wrapped_balances
             from_tokens to_tokens exclude_from_tokens exclude_to_tokens in
  (~ (Flows.well_formed (lower from_addr) /\ Flows.well_formed (lower to_addr)
      /\ (exists n, int10 amount = Some n /\ 0 < n)
      /\ lower from_addr <> lower to_addr) ->
   exists m, run = ([], Err (ValidationError m)))
  /\ (length run.1 <= 1)%nat
  /\ (forall e, run.2 = Err e -> is_validation_or_pathfinding e = true)
  /\ (forall fm,
        run.2 = Ok fm ->
        exists n params path steps,
          int10 amount = Some n /\ 0 < n /\ lower from_addr <> lower to_addr
          /\ run.1 = [Advanced.CallFindPath params]
          /\ Types.from_addr params = lower from_addr
          /\ Types.to_addr params = lower to_addr
          /\ target_flow params = n
          /\ find_path params = Ok path
          /\ _convert_transfers (transfers path) = Ok steps
          /\ (Forall valid_step (transfers path) -> steps = transfers path)
          /\ create_flow_matrix int16 (lower from_addr) (lower to_addr)
                                (max_flow path) steps = Ok fm
          /\ terminal_total (flow_edges fm) = max_flow path).
Proof.
  intros run. unfold run, transfer.
  destruct (validate_transfer_params_cases (lower from_addr) (lower to_addr) amount)
    as [Hiff Herr].
  rewrite !lower_idemp in Hiff.
  destruct (_validate_transfer_params int10 (lower from_addr) (lower to_addr) amount)
    as [[]|e0] eqn:Hval.
  2:{ destruct (Herr e0 eq_refl) as [m ->]. cbn [fst snd length].
      split; [intros _; by exists m|]. split; [lia|].
      split; [by intros e [= <-]|]. done. }
  destruct (proj1 Hiff eq_refl) as (Hwf & Hwt & (n & Hn & Hpos) & Hne).
  rewrite Hn.
  destruct (new_FindPathParams _ _ _ _ _ _ _ _) as [params|e1] eqn:Hp;
    cbn [except_Exception].
  2:{ destruct (is_validation_or_pathfinding e1) eqn:He1; cbn [fst snd length].
      - split; [intros Hnot; exfalso; apply Hnot; eauto 10|]. split; [lia|].
        split; [by intros e [= <-]|]. done.
      - split; [intros Hnot; exfalso; apply Hnot; eauto 10|]. split; [lia|].
        split; [by intros e [= <-]|]. done. }
  cbn [fst snd length].
  split; [intros Hnot; exfalso; apply Hnot; eauto 10|]. split; [lia|].
  split; [intros e; apply except_Exception_Err|].
  intros fm Hfm. apply (proj1 (except_Exception_Ok _ _)) in Hfm.
  apply bind_Ok in Hfm as (path & Hpath & Hfm).
  apply bind_Ok in Hfm as (steps & Hsteps & Hfm).
  apply new_FindPathParams_Ok in Hp as (Hpf & Hpt & Hpa & _).
  rewrite !lower_idemp in *.
  exists n, params, path, steps.
  split; [done|]. split; [done|]. split; [done|]. split; [done|].
  split; [done|]. split; [done|]. split; [done|]. split; [done|].
  split; [done|]. split.
  { intros Hv. rewrite (_convert_transfers_valid _ Hv) in Hsteps. by injection Hsteps. }
  split; [done|].
  apply create_flow_matrix_Ok in Hfm as (idx & _ & _ & Hsum & _).
  by rewrite <- terminal_sum_total.
Qed.

End SimpleProperties.

Section SimpleSameAddress.

Import Simple.

(** [SimpleTransfer.transfer] refuses a transfer from an address to
    itself before the pathfinder is called, whatever the amount is. *)
Lemma simple_transfer_same_address
    (int16 int10 : string -> option Z)
    (find_path : FindPathParams -> result PathfindingResult)
    (addr amount : string) (use_wrapped_balances : bool)
    (from_tokens to_tokens exclude_from_tokens exclude_to_tokens : option (list string)) :
  exists m,
    transfer int16 int10 find_path addr addr amount use_wrapped_balances
             from_tokens to_tokens exclude_from_tokens exclude_to_tokens
    = ([], Err (ValidationError m)).
Proof.
  unfold transfer.
  destruct (validate_transfer_params_cases int10 (lower addr) (lower addr) amount)
    as [Hiff Herr].
  destruct (_validate_transfer_params int10 (lower addr) (lower addr) amount)
    as [[]|e] eqn:Hval.
  - exfalso. destruct (proj1 Hiff eq_refl) as (_ & _ & _ & Hne). by apply Hne.
  - destruct (Herr e eq_refl) as [m ->]. by exists m.
Qed.

End SimpleSameAddress.

Lemma validate_transfer_params_spec_witness :
  Simple._validate_transfer_params Examples.int10 Examples.addr_A Examples.addr_C "1000"
  = Ok tt
  /\ (Flows.well_formed Examples.addr_A /\ Flows.well_formed Examples.addr_C
      /\ (exists n, Examples.int10 "1000" = Some n /\ 0 < n)
      /\ lower Examples.addr_A <> lower Examples.addr_C)
  /\ exists m,
       Simple._validate_transfer_params Examples.int10 Examples.addr_A Examples.addr_C "0"
       = Err (ValidationError m).
Proof.
  assert (H : Flows.well_formed Examples.addr_A /\ Flows.well_formed Examples.addr_C
              /\ (exists n, Examples.int10 "1000" = Some n /\ 0 < n)
              /\ lower Examples.addr_A <> lower Examples.addr_C).
  { split; [split; reflexivity|]. split; [split; reflexivity|].
    split; [exists 1000; split; [reflexivity|lia]|]. vm_compute. discriminate. }
  split; [|split; [exact H|]].
  - exact (proj2 (proj1 (validate_transfer_params_spec Examples.int10
                           Examples.addr_A Examples.addr_C "1000")) H).
  - assert (He : Simple._validate_transfer_params Examples.int10 Examples.addr_A
                   Examples.addr_C "0" = Err (ValidationError AmountNotPositive))
      by (vm_compute; reflexivity).
    destruct (proj2 (validate_transfer_params_spec Examples.int10
                       Examples.addr_A Examples.addr_C "0") _ He) as [m Hm].
    exists m. rewrite He. f_equal. exact Hm.
Defined.

Lemma simple_transfer_spec_witness :
  let find_path := fun _ : FindPathParams =>
    Ok {| max_flow := 1000; transfers := Examples.two_hop |} in
  let run amount :=
    Simple.transfer Examples.int16 Examples.int10 find_path
                    Examples.addr_A Examples.addr_C amount false None None None None in
  (* a refused call *)
  (~ (Flows.well_formed (lower Examples.addr_A) /\ Flows.well_formed (lower Examples.addr_C)
      /\ (exists n, Examples.int10 "0" = Some n /\ 0 < n)
      /\ lower Examples.addr_A <> lower Examples.addr_C)
   /\ exists m, run "0" = ([], Err (ValidationError m)))
  (* a call that returns *)
  /\ ((run "1000").2 = Ok Examples.two_hop_matrix
      /\ exists params,
           (run "1000").1 = [Advanced.CallFindPath params]
           /\ target_flow params = 1000).
Proof.
  intros find_path run.
  split.
  - assert (H : ~ (Flows.well_formed (lower Examples.addr_A)
                   /\ Flows.well_formed (lower Examples.addr_C)
                   /\ (exists n, Examples.int10 "0" = Some n /\ 0 < n)
                   /\ lower Examples.addr_A <> lower Examples.addr_C)).
    { intros (_ & _ & (n & Hn & Hpos) & _). vm_compute in Hn.
      injection Hn as <-. lia. }
    split; [exact H|].
    exact (proj1 (simple_transfer_spec Examples.int16 Examples.int10 find_path
                    Examples.addr_A Examples.addr_C "0" false None None None None) H).
  - assert (H : (run "1000").2 = Ok Examples.two_hop_matrix)
      by (vm_compute; reflexivity).
    split; [exact H|].
    destruct (proj2 (proj2 (proj2 (simple_transfer_spec Examples.int16 Examples.int10
                find_path Examples.addr_A Examples.addr_C "1000" false
                None None None None))) _ H)
      as (n & params & path & steps & Hn & _ & _ & Hcall & _ & _ & Hflow & _).
    exists params. split; [exact Hcall|].
    rewrite Hflow. vm_compute in Hn. by injection Hn.
Defined.

(** C7: [transitive_transfer], run with a pathfinder client, on a sender
    and a receiver that are the same well-formed address and on any
    amount, zero and negative ones too: the arguments pass
    [FindPathParams], one [find_path] call is made for them, and the
    outcome is what the pathfinder and the steps after it give; nothing is
    raised before the call.  On an address that is not well formed,
    [FindPathParams] raises pydantic's validation error and no call is
    made.  [SimpleTransfer.transfer], given the same address twice, raises
    [ValidationError] and makes no call, whatever the amount. *)
Theorem transitive_transfer_unchecked_arguments
    (int16 int10 : string -> option Z)
    (find_path : FindPathParams -> result PathfindingResult)
    (hub : string) (cache : TokenInfo.TokenInfoCache)
    (amount : Z) (amount_text : string) :
  let self := {| Advanced.v2_hub_address := hub;
                 Advanced.cache := cache;
                 Advanced._pathfinder_client := true |} in
  let params := {| from_addr := Examples.addr_A;
                   to_addr := Examples.addr_A;
                   target_flow := amount;
                   use_wrapped_balances := false;
                   from_tokens := None;
                   to_tokens := None;
                   exclude_from_tokens := None;
                   exclude_to_tokens := None |} in
  Advanced.transitive_transfer int16 find_path self Examples.addr_A Examples.addr_A
                               amount false None None None None None
  = ([Advanced.CallFindPath params],
     path ← find_path params;
     Advanced.after_find_path int16 self Examples.addr_A Examples.addr_A None path)
  /\ Advanced.transitive_transfer int16 find_path self "0x12" Examples.addr_A
                                  amount false None None None None None
     = ([], Err (PydanticValidationError (InvalidEthereumAddress "0x12")))
  /\ exists m,
       Simple.transfer int16 int10 find_path Examples.addr_A Examples.addr_A
                       amount_text false None None None None
       = ([], Err (ValidationError m)).
Proof.
  intros self params. split; [reflexivity|]. split; [reflexivity|].
  apply simple_transfer_same_address.
Qed.
